(** * schema/table.go: table, field and relation metadata

    A shallow embedding of [schema/table.go] of the bun ORM: the
    construction of a [Table] from a Go struct type (field discovery,
    primary-key fallback, inlining of struct-typed fields, the four relation
    resolvers) and the hook predicates.

    Go pointers to [Field] objects are addresses into one store of field
    objects, so that aliasing between [Fields], [PKs], [DataFields],
    [FieldMap] and the relation descriptors is the aliasing of the source.
    Diagnostics written with [internal.Warn.Printf] have no effect on the
    constructed table and are left out. *)

From Stdlib Require Import ZArith Ascii String Lia.
From stdpp Require Import gmap strings list fin_maps.

Local Open Scope string_scope.
Local Open Scope list_scope.

(** ** The reflect package, as far as table.go uses it *)

Module reflect.

Inductive Kind :=
| Invalid | Bool | Int | Int8 | Int16 | Int32 | Int64
| Uint | Uint8 | Uint16 | Uint32 | Uint64 | Uintptr
| Float32 | Float64 | Complex64 | Complex128
| Array | Chan | Func | Interface | Map | Ptr | Slice
| String | Struct | UnsafePointer.

(** A [reflect.Type]: a declared (or predeclared) type with its package,
    name and kind, a pointer type or a slice type. *)
Inductive rtype :=
| Named (pkg name : string) (k : Kind)
| PtrTo (elem : rtype)
| SliceOf (elem : rtype).

Definition kind (t : rtype) : Kind :=
  match t with
  | Named _ _ k => k
  | PtrTo _ => Ptr
  | SliceOf _ => Slice
  end.

(** [Type.Name]: empty for unnamed (pointer, slice) types. *)
Definition name (t : rtype) : string :=
  match t with
  | Named _ n _ => n
  | _ => ""
  end.

(** [Type.Elem]; [None] stands for the panic of reflect on a type
    without element type. *)
Definition elem (t : rtype) : option rtype :=
  match t with
  | PtrTo e | SliceOf e => Some e
  | Named _ _ _ => None
  end.

(** [reflect.StructField]; of the struct tag only the value under the
    key [bun] is read by table.go. *)
Record StructField := mkStructField {
  Name : string;
  PkgPath : string;
  Typ : rtype;
  TagBun : string;
  Index : list nat;
  Anonymous : bool
}.

Definition withIndex (f : StructField) (ix : list nat) : StructField :=
  mkStructField (Name f) (PkgPath f) (Typ f) (TagBun f) ix (Anonymous f).

End reflect.

Abbreviation rtype := reflect.rtype.

#[global] Instance Kind_eq_dec : EqDecision reflect.Kind.
Proof. solve_decision. Defined.

#[global] Instance rtype_eq_dec : EqDecision rtype.
Proof. solve_decision. Defined.

#[global] Instance StructField_eq_dec : EqDecision reflect.StructField.
Proof. solve_decision. Defined.

(** Types are the keys of the visited set of inlineFields. *)
Definition allKinds : list reflect.Kind :=
  [ reflect.Invalid; reflect.Bool; reflect.Int; reflect.Int8; reflect.Int16;
    reflect.Int32; reflect.Int64; reflect.Uint; reflect.Uint8; reflect.Uint16;
    reflect.Uint32; reflect.Uint64; reflect.Uintptr; reflect.Float32;
    reflect.Float64; reflect.Complex64; reflect.Complex128; reflect.Array;
    reflect.Chan; reflect.Func; reflect.Interface; reflect.Map; reflect.Ptr;
    reflect.Slice; reflect.String; reflect.Struct; reflect.UnsafePointer ].

Definition Kind_to_nat (k : reflect.Kind) : nat :=
  default 0 (fst <$> list_find (fun k' => k' = k) allKinds).

#[global] Instance Kind_countable : Countable reflect.Kind.
Proof.
  refine (inj_countable' Kind_to_nat (fun n => nth n allKinds reflect.Invalid) _).
  intros k. by destruct k.
Defined.

Fixpoint rtype_to_tree (t : rtype) : gen_tree (string * string * reflect.Kind) :=
  match t with
  | reflect.Named p n k => GenLeaf (p, n, k)
  | reflect.PtrTo e => GenNode 0 [rtype_to_tree e]
  | reflect.SliceOf e => GenNode 1 [rtype_to_tree e]
  end.

Fixpoint tree_to_rtype (t : gen_tree (string * string * reflect.Kind)) : option rtype :=
  match t with
  | GenLeaf (p, n, k) => Some (reflect.Named p n k)
  | GenNode 0 [e] => reflect.PtrTo <$> tree_to_rtype e
  | GenNode 1 [e] => reflect.SliceOf <$> tree_to_rtype e
  | _ => None
  end.

#[global] Instance rtype_countable : Countable rtype.
Proof.
  refine (inj_countable rtype_to_tree tree_to_rtype _).
  intros t. induction t as [| e IH | e IH]; simpl; [done | by rewrite IH | by rewrite IH].
Defined.

(** ** tagparser.Tag *)

Module Tag.

Record t := mk {
  Name : string;
  Options : gmap string string
}.

(** [Tag.HasOption] *)
Definition HasOption (tag : t) (name : string) : bool :=
  bool_decide (is_Some (Options tag !! name)).

End Tag.

(** ** The store of Field objects *)

(** The address of a [Field] object; a [*Field] that may be nil is an
    [option ptr]. *)
Abbreviation ptr := nat.

Module Field.

(** [schema.Field], with the members table.go reads or writes.  The
    bound conversion closures ([Append], [Scan], [IsZero]) belong to
    the dialect and are not represented. *)
Record t := mk {
  StructField : reflect.StructField;
  Tag : Tag.t;
  Typ : rtype;
  Index : list nat;
  Name : string;
  GoName : string;
  SQLName : string;
  IsPK : bool;
  NotNull : bool;
  NullZero : bool;
  AutoIncrement : bool;
  SQLDefault : string;
  OnDelete : string;
  OnUpdate : string;
  UserSQLType : string;
  DiscoveredSQLType : string;
  CreateTableSQLType : string
}.

Definition set_IsPK (b : bool) (f : t) : t :=
  mk (StructField f) (Tag f) (Typ f) (Index f) (Name f) (GoName f)
     (SQLName f) b (NotNull f) (NullZero f) (AutoIncrement f)
     (SQLDefault f) (OnDelete f) (OnUpdate f) (UserSQLType f)
     (DiscoveredSQLType f) (CreateTableSQLType f).

Definition set_NullZero (b : bool) (f : t) : t :=
  mk (StructField f) (Tag f) (Typ f) (Index f) (Name f) (GoName f)
     (SQLName f) (IsPK f) (NotNull f) b (AutoIncrement f)
     (SQLDefault f) (OnDelete f) (OnUpdate f) (UserSQLType f)
     (DiscoveredSQLType f) (CreateTableSQLType f).

Definition set_AutoIncrement (b : bool) (f : t) : t :=
  mk (StructField f) (Tag f) (Typ f) (Index f) (Name f) (GoName f)
     (SQLName f) (IsPK f) (NotNull f) (NullZero f) b
     (SQLDefault f) (OnDelete f) (OnUpdate f) (UserSQLType f)
     (DiscoveredSQLType f) (CreateTableSQLType f).

Definition set_UserSQLType (s : string) (f : t) : t :=
  mk (StructField f) (Tag f) (Typ f) (Index f) (Name f) (GoName f)
     (SQLName f) (IsPK f) (NotNull f) (NullZero f) (AutoIncrement f)
     (SQLDefault f) (OnDelete f) (OnUpdate f) s
     (DiscoveredSQLType f) (CreateTableSQLType f).

Definition set_CreateTableSQLType (s : string) (f : t) : t :=
  mk (StructField f) (Tag f) (Typ f) (Index f) (Name f) (GoName f)
     (SQLName f) (IsPK f) (NotNull f) (NullZero f) (AutoIncrement f)
     (SQLDefault f) (OnDelete f) (OnUpdate f) (UserSQLType f)
     (DiscoveredSQLType f) s.

(** The renaming done on a clone by [inlineFields]. *)
Definition rename (goName name sqlName : string) (index : list nat)
    (f : t) : t :=
  mk (StructField f) (Tag f) (Typ f) index name goName
     sqlName (IsPK f) (NotNull f) (NullZero f) (AutoIncrement f)
     (SQLDefault f) (OnDelete f) (OnUpdate f) (UserSQLType f)
     (DiscoveredSQLType f) (CreateTableSQLType f).

(** The zero [Field], read at an address that was never allocated. *)
Definition zero : t :=
  mk (reflect.mkStructField "" "" (reflect.Named "" "" reflect.Invalid) "" [] false)
     (Tag.mk "" ∅) (reflect.Named "" "" reflect.Invalid) [] "" "" ""
     false false false false "" "" "" "" "" "".

End Field.

Abbreviation Heap := (list Field.t).

Definition deref (h : Heap) (p : ptr) : Field.t := nth p h Field.zero.

(** [&Field{...}]: the new object gets the next free address. *)
Definition alloc (h : Heap) (f : Field.t) : ptr * Heap := (length h, h ++ [f]).

(** [*p = f] *)
Definition store (h : Heap) (p : ptr) (f : Field.t) : Heap := <[p := f]> h.

(** ** Relations (relation.go) *)

Inductive RelationType :=
| InvalidRelation
| HasOneRelation
| BelongsToRelation
| HasManyRelation
| ManyToManyRelation.

#[global] Instance RelationType_eq_dec : EqDecision RelationType.
Proof. solve_decision. Defined.

Module Relation.

(** [schema.Relation].  The registry keeps one table per type, so the
    [*Table] members [JoinTable] and [M2MTable] are the types of those
    tables. *)
Record t := mk {
  Typ : RelationType;
  Field : ptr;
  JoinTable : rtype;
  BaseFields : list ptr;
  JoinFields : list ptr;
  PolymorphicField : option ptr;
  PolymorphicValue : string;
  M2MTable : option rtype;
  M2MBaseFields : list ptr;
  M2MJoinFields : list ptr
}.

End Relation.

(** ** The closures of softDeleteFieldUpdater, by name *)

Inductive SoftDeleteUpdater :=
| SetTime          (* stores time.Now() through a pointer to time.Time *)
| SetNullTime      (* stores sql.NullTime{Time: time.Now()} *)
| SetNullInt64     (* stores sql.NullInt64{Int64: time.Now().UnixNano()} *)
| SetInt64         (* stores time.Now().UnixNano() through a pointer to int64 *)
| SetPtrTime       (* fv.Set(reflect.ValueOf(&now)) *)
| SetPtrInt64      (* fv.Set(reflect.ValueOf(&utime)) *)
| ScanFallback.    (* field.ScanWithCheck(fv, time.Now()) *)

(** ** Table *)

Module Table.

Record t := mk {
  Typ : rtype;
  TypeName : string;
  ModelName : string;
  Name : string;
  SQLName : string;
  SQLNameForSelects : string;
  Alias : string;
  Fields : list ptr;
  PKs : list ptr;
  DataFields : list ptr;
  FieldMap : gmap string ptr;
  Relations : gmap string Relation.t;
  Unique : gmap string (list ptr);
  SoftDeleteField : option ptr;
  UpdateSoftDeleteField : option SoftDeleteUpdater;
  allFields : list ptr;
  skippedFields : list ptr;
  flags : Z
}.

Definition set_naming (typeName modelName name sqlName sel alias : string)
    (x : t) : t :=
  mk (Typ x) typeName modelName name sqlName sel alias
     (Fields x) (PKs x) (DataFields x) (FieldMap x) (Relations x)
     (Unique x) (SoftDeleteField x) (UpdateSoftDeleteField x)
     (allFields x) (skippedFields x) (flags x).

Definition set_Fields (l : list ptr) (x : t) : t :=
  mk (Typ x) (TypeName x) (ModelName x) (Name x) (SQLName x)
     (SQLNameForSelects x) (Alias x)
     l (PKs x) (DataFields x) (FieldMap x) (Relations x)
     (Unique x) (SoftDeleteField x) (UpdateSoftDeleteField x)
     (allFields x) (skippedFields x) (flags x).

Definition set_PKs (l : list ptr) (x : t) : t :=
  mk (Typ x) (TypeName x) (ModelName x) (Name x) (SQLName x)
     (SQLNameForSelects x) (Alias x)
     (Fields x) l (DataFields x) (FieldMap x) (Relations x)
     (Unique x) (SoftDeleteField x) (UpdateSoftDeleteField x)
     (allFields x) (skippedFields x) (flags x).

Definition set_DataFields (l : list ptr) (x : t) : t :=
  mk (Typ x) (TypeName x) (ModelName x) (Name x) (SQLName x)
     (SQLNameForSelects x) (Alias x)
     (Fields x) (PKs x) l (FieldMap x) (Relations x)
     (Unique x) (SoftDeleteField x) (UpdateSoftDeleteField x)
     (allFields x) (skippedFields x) (flags x).

Definition set_FieldMap (m : gmap string ptr) (x : t) : t :=
  mk (Typ x) (TypeName x) (ModelName x) (Name x) (SQLName x)
     (SQLNameForSelects x) (Alias x)
     (Fields x) (PKs x) (DataFields x) m (Relations x)
     (Unique x) (SoftDeleteField x) (UpdateSoftDeleteField x)
     (allFields x) (skippedFields x) (flags x).

Definition set_Relations (m : gmap string Relation.t) (x : t) : t :=
  mk (Typ x) (TypeName x) (ModelName x) (Name x) (SQLName x)
     (SQLNameForSelects x) (Alias x)
     (Fields x) (PKs x) (DataFields x) (FieldMap x) m
     (Unique x) (SoftDeleteField x) (UpdateSoftDeleteField x)
     (allFields x) (skippedFields x) (flags x).

Definition set_Unique (m : gmap string (list ptr)) (x : t) : t :=
  mk (Typ x) (TypeName x) (ModelName x) (Name x) (SQLName x)
     (SQLNameForSelects x) (Alias x)
     (Fields x) (PKs x) (DataFields x) (FieldMap x) (Relations x)
     m (SoftDeleteField x) (UpdateSoftDeleteField x)
     (allFields x) (skippedFields x) (flags x).

Definition set_SoftDelete (f : option ptr) (u : option SoftDeleteUpdater)
    (x : t) : t :=
  mk (Typ x) (TypeName x) (ModelName x) (Name x) (SQLName x)
     (SQLNameForSelects x) (Alias x)
     (Fields x) (PKs x) (DataFields x) (FieldMap x) (Relations x)
     (Unique x) f u
     (allFields x) (skippedFields x) (flags x).

Definition set_allFields (l : list ptr) (x : t) : t :=
  mk (Typ x) (TypeName x) (ModelName x) (Name x) (SQLName x)
     (SQLNameForSelects x) (Alias x)
     (Fields x) (PKs x) (DataFields x) (FieldMap x) (Relations x)
     (Unique x) (SoftDeleteField x) (UpdateSoftDeleteField x)
     l (skippedFields x) (flags x).

Definition set_skippedFields (l : list ptr) (x : t) : t :=
  mk (Typ x) (TypeName x) (ModelName x) (Name x) (SQLName x)
     (SQLNameForSelects x) (Alias x)
     (Fields x) (PKs x) (DataFields x) (FieldMap x) (Relations x)
     (Unique x) (SoftDeleteField x) (UpdateSoftDeleteField x)
     (allFields x) l (flags x).

Definition set_flags (z : Z) (x : t) : t :=
  mk (Typ x) (TypeName x) (ModelName x) (Name x) (SQLName x)
     (SQLNameForSelects x) (Alias x)
     (Fields x) (PKs x) (DataFields x) (FieldMap x) (Relations x)
     (Unique x) (SoftDeleteField x) (UpdateSoftDeleteField x)
     (allFields x) (skippedFields x) z.

End Table.

(** ** What table.go takes from outside the file *)

(** The hook interfaces of hook.go, whose reflect types newTable tests
    with [Type.Implements]. *)
Inductive Hook :=
| beforeScanHookType | afterScanHookType | afterSelectHookType
| beforeInsertHookType | afterInsertHookType
| beforeUpdateHookType | afterUpdateHookType
| beforeDeleteHookType | afterDeleteHookType.

(** The program whose types are mapped (as reflection shows it), and the
    helpers of other packages that table.go calls. *)
Record Env := mkEnv {
  (** [typ.NumField()] and [typ.Field(i)]: the declared fields of a struct
      type, in order. *)
  structFields : rtype -> list reflect.StructField;
  (** [reflect.PtrTo(typ).Implements(hook)] *)
  Implements : rtype -> Hook -> bool;
  (** [internal.Underscore], [internal.ToExported] *)
  Underscore : string -> string;
  ToExported : string -> string;
  (** the package variable [tableNameInflector] *)
  tableNameInflector : string -> string;
  (** [NewFormatter(dialect).AppendIdent(nil, s)] *)
  AppendIdent : string -> string;
  (** [tagparser.Parse] *)
  Parse : string -> Tag.t;
  (** [sqltype.Detect] *)
  Detect : rtype -> string;
  (** [dialect.OnField]: the [CreateTableSQLType] the dialect assigns to a
      field, empty when it assigns none. *)
  OnField : Field.t -> string;
  (** the verb %q of fmt on a string *)
  Quote : string -> string
}.

(** [dialect.Tables()]: the registry of tables.  [Ref] gives the table of
    a type with its fields discovered; [ByName] looks a table up by name. *)
Record Tables := mkTables {
  Ref : rtype -> Table.t;
  ByName : string -> option Table.t
}.

(** ** internal.Flag *)

Module Flag.

(** Modelled from the spec: [internal.Flag] is declared outside
    table.go; it is a bit set in an unsigned 64-bit integer, Set adds
    the bits of its argument and [Has] tests whether one of them is
    present. *)
(** [Flag.Set] ([Set] is reserved) *)
Definition Set_ (flag other : Z) : Z := Z.lor flag other.

Definition Has (flag other : Z) : bool := negb (Z.land flag other =? 0)%Z.

End Flag.

(** [1 << iota] for the nine hook flags. *)
Definition beforeScanHookFlag : Z := Z.shiftl 1 0.
Definition afterScanHookFlag : Z := Z.shiftl 1 1.
Definition afterSelectHookFlag : Z := Z.shiftl 1 2.
Definition beforeInsertHookFlag : Z := Z.shiftl 1 3.
Definition afterInsertHookFlag : Z := Z.shiftl 1 4.
Definition beforeUpdateHookFlag : Z := Z.shiftl 1 5.
Definition afterUpdateHookFlag : Z := Z.shiftl 1 6.
Definition beforeDeleteHookFlag : Z := Z.shiftl 1 7.
Definition afterDeleteHookFlag : Z := Z.shiftl 1 8.

(** The table [hooks] of newTable. *)
Definition hooks : list (Hook * Z) :=
  [ (beforeScanHookType, beforeScanHookFlag);
    (afterScanHookType, afterScanHookFlag);
    (afterSelectHookType, afterSelectHookFlag);
    (beforeInsertHookType, beforeInsertHookFlag);
    (afterInsertHookType, afterInsertHookFlag);
    (beforeUpdateHookType, beforeUpdateHookFlag);
    (afterUpdateHookType, afterUpdateHookFlag);
    (beforeDeleteHookType, beforeDeleteHookFlag);
    (afterDeleteHookType, afterDeleteHookFlag) ].

Definition HasBeforeScanHook (t : Table.t) : bool := Flag.Has (Table.flags t) beforeScanHookFlag.
Definition HasAfterScanHook (t : Table.t) : bool := Flag.Has (Table.flags t) afterScanHookFlag.
Definition HasAfterSelectHook (t : Table.t) : bool := Flag.Has (Table.flags t) afterSelectHookFlag.
Definition HasBeforeInsertHook (t : Table.t) : bool := Flag.Has (Table.flags t) afterInsertHookFlag.
Definition HasAfterInsertHook (t : Table.t) : bool := Flag.Has (Table.flags t) afterInsertHookFlag.
Definition HasBeforeUpdateHook (t : Table.t) : bool := Flag.Has (Table.flags t) beforeUpdateHookFlag.
Definition HasAfterUpdateHook (t : Table.t) : bool := Flag.Has (Table.flags t) afterUpdateHookFlag.
Definition HasBeforeDeleteHook (t : Table.t) : bool := Flag.Has (Table.flags t) beforeDeleteHookFlag.
Definition HasAfterDeleteHook (t : Table.t) : bool := Flag.Has (Table.flags t) afterDeleteHookFlag.

(** ** Helpers of the strings package and of other files of the package *)

(** [strings.Split(s, sep)] for a one-byte separator: never empty. *)
Fixpoint Split (sep : ascii) (s : string) : list string :=
  match s with
  | EmptyString => [""]
  | String c s' =>
      if decide (c = sep) then "" :: Split sep s'
      else match Split sep s' with
           | x :: xs => String c x :: xs
           | [] => [String c ""]
           end
  end.

(** [strings.IndexByte(s, c) >= 0] *)
Fixpoint hasByte (c : ascii) (s : string) : bool :=
  match s with
  | EmptyString => false
  | String c' s' => if decide (c' = c) then true else hasByte c s'
  end.

Definition isSpace (c : ascii) : bool :=
  let n := nat_of_ascii c in
  ((n =? 32) || ((9 <=? n) && (n <=? 13)))%nat.

Fixpoint trimLeft (s : string) : string :=
  match s with
  | String c s' => if isSpace c then trimLeft s' else s
  | EmptyString => EmptyString
  end.

Fixpoint trimRight (s : string) : string :=
  match s with
  | EmptyString => EmptyString
  | String c s' =>
      match trimRight s' with
      | EmptyString => if isSpace c then EmptyString else String c EmptyString
      | r => String c r
      end
  end.

(** [strings.TrimSpace] on the ASCII white space. *)
Definition TrimSpace (s : string) : string := trimRight (trimLeft s).

(** Modelled from the spec: [indirectType] is declared in another file of
    the package; it gives the base type of a pointer type (the
    "dereferenced/base type" of a field) and any other type unchanged. *)
Definition indirectType (t : rtype) : rtype :=
  match t with
  | reflect.PtrTo e => e
  | _ => t
  end.

(** Modelled from the spec: [indexEqual] is declared in another file of
    the package; two access paths are identical when they have the same
    steps in the same order. *)
Definition indexEqual (ind1 ind2 : list nat) : bool := bool_decide (ind1 = ind2).

(** Modelled from the spec: [Field.markAsPK] is declared in another file
    of the package; it marks the field as primary key. *)
Definition markAsPK (f : Field.t) : Field.t := Field.set_IsPK true f.

(** The reflect type of time.Time ([timeType], declared in another file
    of the package) and the two types of database/sql that table.go
    names. *)
Definition timeType : rtype := reflect.Named "time" "Time" reflect.Struct.
Definition nullTimeType : rtype := reflect.Named "database/sql" "NullTime" reflect.Struct.
Definition nullIntType : rtype := reflect.Named "database/sql" "NullInt64" reflect.Struct.

(** [appendNew] *)
Definition appendNew (dst src : list nat) : list nat := dst ++ src.

(** [removeField]: the first occurrence of the pointer is cut out. *)
Fixpoint removeField (fields : list ptr) (field : ptr) : list ptr :=
  match fields with
  | [] => []
  | f :: rest => if decide (f = field) then rest else f :: removeField rest field
  end.

(** [parseRelationJoin]; [None] is the panic on a pair that is not of
    the form base=join. *)
Fixpoint parseRelationJoinPairs (ss : list string) : option (list string * list string) :=
  match ss with
  | [] => Some ([], [])
  | s :: rest =>
      match Split "=" (TrimSpace s) with
      | [b; j] =>
          match parseRelationJoinPairs rest with
          | Some (bs, js) => Some (b :: bs, j :: js)
          | None => None
          end
      | _ => None
      end
  end.

Definition parseRelationJoin (join : string) : option (list string * list string) :=
  parseRelationJoinPairs (Split "," join).

(** [softDeleteFieldUpdater]: the closure chosen for the type of the
    soft-delete field. *)
Definition softDeleteFieldUpdater (field : Field.t) : SoftDeleteUpdater :=
  let ft := Field.Typ field in
  if decide (ft = timeType) then SetTime
  else if decide (ft = nullTimeType) then SetNullTime
  else if decide (ft = nullIntType) then SetNullInt64
  else
    match reflect.kind ft with
    | reflect.Int64 => SetInt64
    | reflect.Ptr =>
        match reflect.elem ft with
        | Some typ =>
            if decide (typ = timeType) then SetPtrTime
            else match reflect.kind typ with
                 | reflect.Int64 => SetPtrInt64
                 | _ => ScanFallback
                 end
        | None => ScanFallback
        end
    | _ => ScanFallback
    end.

(** The outcome of a construction step: a result, a panic with its
    message, or (for the recursions whose depth the model bounds) the
    bound reached. *)
Inductive outcome (A : Type) :=
| Done (a : A)
| Panic (msg : string)
| OutOfFuel.

Arguments Done {A} a.
Arguments Panic {A} msg.
Arguments OutOfFuel {A}.

Definition bind {A B} (x : outcome A) (k : A -> outcome B) : outcome B :=
  match x with
  | Done a => k a
  | Panic msg => Panic msg
  | OutOfFuel => OutOfFuel
  end.

#[global] Instance outcome_ret : MRet outcome := fun A a => Done a.
#[global] Instance outcome_bind : MBind outcome := fun A B k x => bind x k.

(** The table under construction together with the store of fields. *)
Record State := mkState {
  heap : Heap;
  tbl : Table.t
}.

Definition onTable (g : Table.t -> Table.t) (st : State) : State :=
  mkState (heap st) (g (tbl st)).

(** ** Construction of a table, phase 1: field discovery *)

Section Construction.

Variable E : Env.
Variable reg : Tables.

Definition quoteIdent (s : string) : string := AppendIdent E s.

Definition quoteTableName (s : string) : string :=
  if hasByte "?" s || hasByte "(" s || hasByte ")" s then s
  else quoteIdent s.

Definition setName (name : string) (t : Table.t) : Table.t :=
  Table.set_naming (Table.TypeName t) (Table.ModelName t)
    name (quoteIdent name) (quoteIdent name)
    (if decide (Table.Alias t = "") then quoteIdent name else Table.Alias t)
    t.

Definition newTable (typ : rtype) : Table.t :=
  let t := Table.mk typ "" "" "" "" "" "" [] [] [] ∅ ∅ ∅ None None [] [] 0%Z in
  let t := Table.set_naming (ToExported E (reflect.name typ))
             (Underscore E (reflect.name typ))
             (Table.Name t) (Table.SQLName t) (Table.SQLNameForSelects t)
             (Table.Alias t) t in
  let tableName := tableNameInflector E (Table.ModelName t) in
  let t := setName tableName t in
  let t := Table.set_naming (Table.TypeName t) (Table.ModelName t)
             (Table.Name t) (Table.SQLName t) (Table.SQLNameForSelects t)
             (quoteIdent (Table.ModelName t)) t in
  foldl (fun t (hook : Hook * Z) =>
           if Implements E typ hook.1
           then Table.set_flags (Flag.Set_ (Table.flags t) hook.2) t
           else t)
        t hooks.

(** [Table.String] *)
Definition tableString (t : Table.t) : string := "model=" +:+ Table.TypeName t.

(** [Table.CheckPKs]: the error, if any. *)
Definition CheckPKs (t : Table.t) : option string :=
  if (length (Table.PKs t) =? 0)%nat
  then Some ("bun: " +:+ tableString t +:+ " does not have primary keys")
  else None.

Definition addField (field : ptr) (st : State) : State :=
  let t := tbl st in
  let t := Table.set_Fields (Table.Fields t ++ [field]) t in
  let t := if Field.IsPK (deref (heap st) field)
           then Table.set_PKs (Table.PKs t ++ [field]) t
           else Table.set_DataFields (Table.DataFields t ++ [field]) t in
  let t := Table.set_FieldMap
             (<[Field.Name (deref (heap st) field) := field]> (Table.FieldMap t)) t in
  mkState (heap st) t.

(** The method [Table.removeField]. *)
Definition Table_removeField (field : ptr) (st : State) : State :=
  let t := tbl st in
  let t := Table.set_Fields (removeField (Table.Fields t) field) t in
  let t := if Field.IsPK (deref (heap st) field)
           then Table.set_PKs (removeField (Table.PKs t) field) t
           else Table.set_DataFields (removeField (Table.DataFields t) field) t in
  let t := Table.set_FieldMap
             (delete (Field.Name (deref (heap st) field)) (Table.FieldMap t)) t in
  mkState (heap st) t.

Definition fieldWithLock (t : Table.t) (name : string) : option ptr :=
  Table.FieldMap t !! name.

Definition HasField (t : Table.t) (name : string) : bool :=
  bool_decide (is_Some (Table.FieldMap t !! name)).

Definition fieldByGoName (h : Heap) (t : Table.t) (name : string) : option ptr :=
  List.find (fun f => String.eqb (Field.GoName (deref h f)) name) (Table.allFields t).

Definition processBaseModelField (f : reflect.StructField) (t : Table.t) : Table.t :=
  let tag := Parse E (reflect.TagBun f) in
  let t := if String.eqb (Tag.Name tag) "_" then setName "" t
           else if negb (String.eqb (Tag.Name tag) "") then setName (Tag.Name tag) t
           else t in
  let t := match Tag.Options tag !! "select" with
           | Some s =>
               Table.set_naming (Table.TypeName t) (Table.ModelName t)
                 (Table.Name t) (Table.SQLName t) (quoteTableName s)
                 (Table.Alias t) t
           | None => t
           end in
  match Tag.Options tag !! "alias" with
  | Some v =>
      Table.set_naming (Table.TypeName t) (Table.ModelName t)
        (Table.Name t) (Table.SQLName t) (Table.SQLNameForSelects t)
        (quoteIdent v) t
  | None => t
  end.

(** The column name newField resolves for a struct field: the tag name
    when there is one and it is not the skip marker, else the
    underscored Go name. *)
Definition columnName (f : reflect.StructField) : string :=
  let tag := Parse E (reflect.TagBun f) in
  let skip := String.eqb (Tag.Name tag) "-" in
  if negb skip && negb (String.eqb (Tag.Name tag) "") then Tag.Name tag
  else Underscore E (reflect.Name f).

(** The [Field] object newField builds, from the struct literal to the
    defaulting of the SQL types (and the [NullZero] that the soft_delete
    option sets on a field that is not skipped). *)
Definition makeField (f : reflect.StructField) (index : list nat) : Field.t :=
  let tag := Parse E (reflect.TagBun f) in
  let skip := String.eqb (Tag.Name tag) "-" in
  let sqlName := columnName f in
  let opt (k : string) := default "" (Tag.Options tag !! k) in
  let field :=
    Field.mk f tag (indirectType (reflect.Typ f)) index
      sqlName (reflect.Name f) (quoteIdent sqlName)
      false (Tag.HasOption tag "notnull") (Tag.HasOption tag "nullzero")
      (Tag.HasOption tag "autoincrement")
      (opt "default") (opt "on_delete") (opt "on_update")
      (opt "type") (Detect E (indirectType (reflect.Typ f))) "" in
  let field := if Tag.HasOption tag "pk" then markAsPK field else field in
  let field := Field.set_CreateTableSQLType (OnField E field) field in
  let field := if String.eqb (Field.UserSQLType field) ""
               then Field.set_UserSQLType (Field.DiscoveredSQLType field) field
               else field in
  let field := if String.eqb (Field.CreateTableSQLType field) ""
               then Field.set_CreateTableSQLType (Field.UserSQLType field) field
               else field in
  if negb skip && Tag.HasOption tag "soft_delete"
  then Field.set_NullZero true field
  else field.

(** [t.Unique[uniqueName] = append(t.Unique[uniqueName], field)] for
    every name of the unique option. *)
Definition addUnique (names : list string) (field : ptr)
    (u : gmap string (list ptr)) : gmap string (list ptr) :=
  foldl (fun u n => <[n := default [] (u !! n) ++ [field]]> u) u names.

(** The part of newField after the duplicate check: the new object is
    allocated and entered in [Unique], under its alias, in [allFields]
    and, when skipped, in [skippedFields] and the field map. *)
Definition createField (f : reflect.StructField) (index : list nat)
    (st : State) : option ptr * State :=
  let tag := Parse E (reflect.TagBun f) in
  let skip := String.eqb (Tag.Name tag) "-" in
  let '(field, h) := alloc (heap st) (makeField f index) in
  let t := tbl st in
  let t := match Tag.Options tag !! "unique" with
           | Some v => Table.set_Unique (addUnique (Split "," v) field (Table.Unique t)) t
           | None => t
           end in
  let t := match Tag.Options tag !! "alias" with
           | Some v => Table.set_FieldMap (<[v := field]> (Table.FieldMap t)) t
           | None => t
           end in
  let t := Table.set_allFields (Table.allFields t ++ [field]) t in
  if skip then
    let t := Table.set_skippedFields (Table.skippedFields t ++ [field]) t in
    let t := Table.set_FieldMap (<[Field.Name (deref h field) := field]> (Table.FieldMap t)) t in
    (None, mkState h t)
  else
    let t := if Tag.HasOption tag "soft_delete"
             then Table.set_SoftDelete (Some field)
                    (Some (softDeleteFieldUpdater (deref h field))) t
             else t in
    (Some field, mkState h t).

Definition newField (f : reflect.StructField) (index : list nat)
    (st : State) : option ptr * State :=
  if negb (String.eqb (reflect.PkgPath f) "") then (None, st)
  else
    let sqlName := columnName f in
    let index := index ++ reflect.Index f in
    match fieldWithLock (tbl st) sqlName with
    | Some field =>
        if indexEqual (Field.Index (deref (heap st) field)) index
        then (Some field, st)
        else createField f index (Table_removeField field st)
    | None => createField f index st
    end.

(** One turn of the loop of addFields, on the field [f0] at position
    [i]; [rec] is addFields itself, for the embedded struct. *)
Definition addFieldsStep
    (rec : rtype -> list nat -> State -> option State)
    (baseIndex : list nat) (i : nat) (f0 : reflect.StructField)
    (st : State) : option State :=
  let f := reflect.withIndex f0 [i] in
  let index := baseIndex in
  if reflect.Anonymous f then
    if String.eqb (reflect.TagBun f) "-" then Some st
    else if String.eqb (reflect.Name f) "BaseModel" then
      Some (if (length index =? 0)%nat
            then onTable (processBaseModelField f) st else st)
    else
      let fieldType := indirectType (reflect.Typ f) in
      if negb (bool_decide (reflect.kind fieldType = reflect.Struct)) then Some st
      else
        match rec fieldType (index ++ reflect.Index f) st with
        | None => None
        | Some st =>
            let tag := Parse E (reflect.TagBun f) in
            if Tag.HasOption tag "inherit" then
              let embeddedTable := Ref reg fieldType in
              Some (onTable
                      (Table.set_naming
                         (Table.TypeName embeddedTable)
                         (Table.ModelName embeddedTable)
                         (Table.Name (tbl st))
                         (Table.SQLName embeddedTable)
                         (Table.SQLNameForSelects embeddedTable)
                         (Table.Alias embeddedTable)) st)
            else Some st
        end
  else
    match newField f index st with
    | (Some field, st) => Some (addField field st)
    | (None, st) => Some st
    end.

(** The loop [for i := 0; i < typ.NumField(); i++]. *)
Fixpoint addFieldsLoop
    (rec : rtype -> list nat -> State -> option State)
    (baseIndex : list nat) (i : nat) (fs : list reflect.StructField)
    (st : State) : option State :=
  match fs with
  | [] => Some st
  | f :: rest =>
      match addFieldsStep rec baseIndex i f st with
      | Some st => addFieldsLoop rec baseIndex (S i) rest st
      | None => None
      end
  end.

(** [Table.addFields]; an embedded pointer to a struct may lead back to
    the struct itself, so the depth of the recursion is bounded by
    [fuel] and [None] says that the bound was reached. *)
Fixpoint addFields (fuel : nat) (typ : rtype) (baseIndex : list nat)
    (st : State) : option State :=
  match fuel with
  | 0 => None
  | S fuel =>
      addFieldsLoop (addFields fuel) baseIndex 0 (structFields E typ) st
  end.

(** The loop of initFields over the conventional key names. *)
Fixpoint pkFallback (names : list string) (st : State) : State :=
  match names with
  | [] => st
  | name :: rest =>
      match Table.FieldMap (tbl st) !! name with
      | Some field =>
          let h := store (heap st) field (markAsPK (deref (heap st) field)) in
          let t := Table.set_PKs [field] (tbl st) in
          let t := Table.set_DataFields (removeField (Table.DataFields t) field) t in
          mkState h t
      | None => pkFallback rest st
      end
  end.

Definition initFields (fuel : nat) (st : State) : option State :=
  let st := onTable (fun t => Table.set_FieldMap ∅ (Table.set_Fields [] t)) st in
  match addFields fuel (Table.Typ (tbl st)) [] st with
  | None => None
  | Some st =>
      if (0 <? length (Table.PKs (tbl st)))%nat then Some st
      else
        let st := pkFallback ["id"; "uuid"; "pk_" +:+ Table.ModelName (tbl st)] st in
        match Table.PKs (tbl st) with
        | [pk] =>
            Some (mkState
                    (store (heap st) pk (Field.set_AutoIncrement true (deref (heap st) pk)))
                    (tbl st))
        | _ => Some st
        end
  end.

Definition init1 (fuel : nat) (st : State) : option State := initFields fuel st.

(** ** Phase 2: relations *)

(** Modelled from the spec: the registry is outside table.go.  [Ref] is
    idempotent and safe on cycles: asked for the type of the table
    under construction [cur], it gives that very table; any other type
    is looked up in the registry. *)
Definition Tables_Ref (cur : Table.t) (typ : rtype) : Table.t :=
  if decide (typ = Table.Typ cur) then cur else Ref reg typ.

(** Modelled from the spec: [Relation.String] is declared in
    relation.go; it names the relation by its field. *)
Definition relationString (h : Heap) (rel : Relation.t) : string :=
  "relation=" +:+ Field.GoName (deref h (Relation.Field rel)).

(** [reflect.Kind.String] *)
Definition kindString (k : reflect.Kind) : string :=
  match k with
  | reflect.Invalid => "invalid" | reflect.Bool => "bool"
  | reflect.Int => "int" | reflect.Int8 => "int8" | reflect.Int16 => "int16"
  | reflect.Int32 => "int32" | reflect.Int64 => "int64"
  | reflect.Uint => "uint" | reflect.Uint8 => "uint8" | reflect.Uint16 => "uint16"
  | reflect.Uint32 => "uint32" | reflect.Uint64 => "uint64"
  | reflect.Uintptr => "uintptr"
  | reflect.Float32 => "float32" | reflect.Float64 => "float64"
  | reflect.Complex64 => "complex64" | reflect.Complex128 => "complex128"
  | reflect.Array => "array" | reflect.Chan => "chan" | reflect.Func => "func"
  | reflect.Interface => "interface" | reflect.Map => "map" | reflect.Ptr => "ptr"
  | reflect.Slice => "slice" | reflect.String => "string"
  | reflect.Struct => "struct" | reflect.UnsafePointer => "unsafe.Pointer"
  end.

Definition addRelation (h : Heap) (rel : Relation.t) (t : Table.t) : outcome Table.t :=
  let name := Field.GoName (deref h (Relation.Field rel)) in
  match Table.Relations t !! name with
  | Some _ => Panic (tableString t +:+ " already has " +:+ relationString h rel)
  | None => Done (Table.set_Relations (<[name := rel]> (Table.Relations t)) t)
  end.

Definition with_BaseFields (l : list ptr) (r : Relation.t) : Relation.t :=
  Relation.mk (Relation.Typ r) (Relation.Field r) (Relation.JoinTable r)
    l (Relation.JoinFields r) (Relation.PolymorphicField r)
    (Relation.PolymorphicValue r) (Relation.M2MTable r)
    (Relation.M2MBaseFields r) (Relation.M2MJoinFields r).

Definition with_JoinFields (l : list ptr) (r : Relation.t) : Relation.t :=
  Relation.mk (Relation.Typ r) (Relation.Field r) (Relation.JoinTable r)
    (Relation.BaseFields r) l (Relation.PolymorphicField r)
    (Relation.PolymorphicValue r) (Relation.M2MTable r)
    (Relation.M2MBaseFields r) (Relation.M2MJoinFields r).

Definition with_Polymorphic (f : option ptr) (v : string) (r : Relation.t) : Relation.t :=
  Relation.mk (Relation.Typ r) (Relation.Field r) (Relation.JoinTable r)
    (Relation.BaseFields r) (Relation.JoinFields r) f v (Relation.M2MTable r)
    (Relation.M2MBaseFields r) (Relation.M2MJoinFields r).

Definition with_M2M (b j : list ptr) (r : Relation.t) : Relation.t :=
  Relation.mk (Relation.Typ r) (Relation.Field r) (Relation.JoinTable r)
    (Relation.BaseFields r) (Relation.JoinFields r) (Relation.PolymorphicField r)
    (Relation.PolymorphicValue r) (Relation.M2MTable r) b j.

(** *** has-one *)

(** The loop of hasOneRelation over the pairs of an explicit join. *)
Fixpoint hasOneJoinLoop (t joinTable : Table.t) (goName : string)
    (pairs : list (string * string)) (rel : Relation.t) : outcome Relation.t :=
  match pairs with
  | [] => Done rel
  | (baseColumn, joinColumn) :: rest =>
      match fieldWithLock t baseColumn with
      | Some f =>
          let rel := with_BaseFields (Relation.BaseFields rel ++ [f]) rel in
          match fieldWithLock joinTable joinColumn with
          | Some f =>
              hasOneJoinLoop t joinTable goName rest
                (with_JoinFields (Relation.JoinFields rel ++ [f]) rel)
          | None =>
              Panic ("bun: " +:+ Table.TypeName t +:+ " has-one " +:+ goName +:+ ": "
                     +:+ Table.TypeName t +:+ " must have column " +:+ baseColumn)
          end
      | None =>
          Panic ("bun: " +:+ Table.TypeName t +:+ " has-one " +:+ goName +:+ ": "
                 +:+ Table.TypeName t +:+ " must have column " +:+ baseColumn)
      end
  end.

(** The loop of hasOneRelation over the primary keys of the join
    table, when there is no explicit join. *)
Fixpoint hasOnePKLoop (h : Heap) (t : Table.t) (goName fkPrefix : string)
    (pks : list ptr) (rel : Relation.t) : outcome Relation.t :=
  match pks with
  | [] => Done rel
  | joinPK :: rest =>
      let fkName := fkPrefix +:+ Field.Name (deref h joinPK) in
      match fieldWithLock t fkName with
      | Some fk =>
          hasOnePKLoop h t goName fkPrefix rest
            (with_BaseFields (Relation.BaseFields rel ++ [fk]) rel)
      | None =>
          match fieldWithLock t (Field.Name (deref h joinPK)) with
          | Some fk =>
              hasOnePKLoop h t goName fkPrefix rest
                (with_BaseFields (Relation.BaseFields rel ++ [fk]) rel)
          | None =>
              Panic ("bun: " +:+ Table.TypeName t +:+ " has-one " +:+ goName +:+ ": "
                     +:+ Table.TypeName t +:+ " must have column " +:+ fkName
                     +:+ " (to override, use join:base_column=join_column tag on "
                     +:+ goName +:+ " field)")
          end
      end
  end.

(** [Table.hasOneRelation] with receiver [t], while the table [cur] is
    under construction. *)
Definition hasOneRelation (h : Heap) (cur t : Table.t) (field : ptr) : outcome Relation.t :=
  let fld := deref h field in
  let joinTable := Tables_Ref cur (Field.Typ fld) in
  match CheckPKs joinTable with
  | Some err => Panic err
  | None =>
      let rel := Relation.mk HasOneRelation field (Table.Typ joinTable)
                   [] [] None "" None [] [] in
      match Tag.Options (Field.Tag fld) !! "join" with
      | Some join =>
          match parseRelationJoin join with
          | None => Panic ("can't parse relation join: " +:+ Quote E join)
          | Some (baseColumns, joinColumns) =>
              hasOneJoinLoop t joinTable (Field.GoName fld)
                (zip baseColumns joinColumns) rel
          end
      | None =>
          let rel := with_JoinFields (Table.PKs joinTable) rel in
          let fkPrefix := Underscore E (Field.GoName fld) +:+ "_" in
          hasOnePKLoop h t (Field.GoName fld) fkPrefix (Table.PKs joinTable) rel
      end
  end.

(** *** belongs-to *)

Fixpoint belongsToJoinLoop (t joinTable : Table.t) (goName : string)
    (pairs : list (string * string)) (rel : Relation.t) : outcome Relation.t :=
  match pairs with
  | [] => Done rel
  | (baseColumn, joinColumn) :: rest =>
      match fieldWithLock t baseColumn with
      | Some f =>
          let rel := with_BaseFields (Relation.BaseFields rel ++ [f]) rel in
          match fieldWithLock joinTable joinColumn with
          | Some f =>
              belongsToJoinLoop t joinTable goName rest
                (with_JoinFields (Relation.JoinFields rel ++ [f]) rel)
          | None =>
              Panic ("bun: " +:+ goName +:+ " belongs-to " +:+ Table.TypeName t +:+ ": "
                     +:+ Table.TypeName joinTable +:+ " must have column " +:+ baseColumn)
          end
      | None =>
          Panic ("bun: " +:+ goName +:+ " belongs-to " +:+ Table.TypeName t +:+ ": "
                 +:+ Table.TypeName joinTable +:+ " must have column " +:+ baseColumn)
      end
  end.

Fixpoint belongsToPKLoop (h : Heap) (t joinTable : Table.t) (goName fkPrefix : string)
    (pks : list ptr) (rel : Relation.t) : outcome Relation.t :=
  match pks with
  | [] => Done rel
  | pk :: rest =>
      let fkName := fkPrefix +:+ Field.Name (deref h pk) in
      match fieldWithLock joinTable fkName with
      | Some f =>
          belongsToPKLoop h t joinTable goName fkPrefix rest
            (with_JoinFields (Relation.JoinFields rel ++ [f]) rel)
      | None =>
          match fieldWithLock joinTable (Field.Name (deref h pk)) with
          | Some f =>
              belongsToPKLoop h t joinTable goName fkPrefix rest
                (with_JoinFields (Relation.JoinFields rel ++ [f]) rel)
          | None =>
              Panic ("bun: " +:+ goName +:+ " belongs-to " +:+ Table.TypeName t +:+ ": "
                     +:+ Table.TypeName joinTable +:+ " must have column " +:+ fkName
                     +:+ " (to override, use join:base_column=join_column tag on "
                     +:+ goName +:+ " field)")
          end
      end
  end.

Definition belongsToRelation (h : Heap) (cur t : Table.t) (field : ptr) : outcome Relation.t :=
  match CheckPKs t with
  | Some err => Panic err
  | None =>
      let fld := deref h field in
      let joinTable := Tables_Ref cur (Field.Typ fld) in
      let rel := Relation.mk BelongsToRelation field (Table.Typ joinTable)
                   [] [] None "" None [] [] in
      match Tag.Options (Field.Tag fld) !! "join" with
      | Some join =>
          match parseRelationJoin join with
          | None => Panic ("can't parse relation join: " +:+ Quote E join)
          | Some (baseColumns, joinColumns) =>
              belongsToJoinLoop t joinTable (Field.GoName fld)
                (zip baseColumns joinColumns) rel
          end
      | None =>
          let rel := with_BaseFields (Table.PKs t) rel in
          let fkPrefix := Underscore E (Table.ModelName t) +:+ "_" in
          belongsToPKLoop h t joinTable (Field.GoName fld) fkPrefix (Table.PKs t) rel
      end
  end.

(** *** has-many *)

(** The loop of hasManyRelation over the pairs of an explicit join;
    the state is the relation and [polymorphicColumn]. *)
Fixpoint hasManyJoinLoop (t joinTable : Table.t) (goName : string)
    (isPolymorphic : bool) (pairs : list (string * string))
    (acc : Relation.t * string) : outcome (Relation.t * string) :=
  match pairs with
  | [] => Done acc
  | (baseColumn, joinColumn) :: rest =>
      let '(rel, polymorphicColumn) := acc in
      if isPolymorphic && String.eqb baseColumn "type" then
        hasManyJoinLoop t joinTable goName isPolymorphic rest (rel, joinColumn)
      else
        match fieldWithLock t baseColumn with
        | Some f =>
            let rel := with_BaseFields (Relation.BaseFields rel ++ [f]) rel in
            match fieldWithLock joinTable joinColumn with
            | Some f =>
                hasManyJoinLoop t joinTable goName isPolymorphic rest
                  (with_JoinFields (Relation.JoinFields rel ++ [f]) rel, polymorphicColumn)
            | None =>
                Panic ("bun: " +:+ Table.TypeName t +:+ " has-one " +:+ goName +:+ ": "
                       +:+ Table.TypeName t +:+ " must have column " +:+ baseColumn)
            end
        | None =>
            Panic ("bun: " +:+ Table.TypeName t +:+ " has-one " +:+ goName +:+ ": "
                   +:+ Table.TypeName t +:+ " must have column " +:+ baseColumn)
        end
  end.

Fixpoint hasManyPKLoop (h : Heap) (t joinTable : Table.t) (goName fkPrefix : string)
    (pks : list ptr) (rel : Relation.t) : outcome Relation.t :=
  match pks with
  | [] => Done rel
  | pk :: rest =>
      let joinColumn := fkPrefix +:+ Field.Name (deref h pk) in
      match fieldWithLock joinTable joinColumn with
      | Some fk =>
          hasManyPKLoop h t joinTable goName fkPrefix rest
            (with_JoinFields (Relation.JoinFields rel ++ [fk]) rel)
      | None =>
          match fieldWithLock joinTable (Field.Name (deref h pk)) with
          | Some fk =>
              hasManyPKLoop h t joinTable goName fkPrefix rest
                (with_JoinFields (Relation.JoinFields rel ++ [fk]) rel)
          | None =>
              Panic ("bun: " +:+ Table.TypeName t +:+ " has-many " +:+ goName +:+ ": "
                     +:+ Table.TypeName joinTable +:+ " must have column " +:+ joinColumn
                     +:+ " (to override, use join:base_column=join_column tag on the field "
                     +:+ goName +:+ ")")
          end
      end
  end.

(** The end of hasManyRelation: the polymorphic column and value. *)
Definition hasManyPolymorphic (t joinTable : Table.t) (goName : string)
    (polymorphic : option string) (polymorphicColumn : string)
    (rel : Relation.t) : outcome Relation.t :=
  match polymorphic with
  | Some polymorphicValue =>
      match fieldWithLock joinTable polymorphicColumn with
      | None =>
          Panic ("bun: " +:+ Table.TypeName t +:+ " has-many " +:+ goName +:+ ": "
                 +:+ Table.TypeName joinTable +:+ " must have polymorphic column "
                 +:+ polymorphicColumn)
      | Some pf =>
          let polymorphicValue :=
            if String.eqb polymorphicValue "" then Table.ModelName t
            else polymorphicValue in
          Done (with_Polymorphic (Some pf) polymorphicValue rel)
      end
  | None => Done rel
  end.

Definition hasManyRelation (h : Heap) (cur t : Table.t) (field : ptr) : outcome Relation.t :=
  match CheckPKs t with
  | Some err => Panic err
  | None =>
      let fld := deref h field in
      if negb (bool_decide (reflect.kind (Field.Typ fld) = reflect.Slice)) then
        Panic ("bun: " +:+ Table.TypeName t +:+ "." +:+ Field.GoName fld
               +:+ " has-many relation requires slice, got "
               +:+ Quote E (kindString (reflect.kind (Field.Typ fld))))
      else
        match reflect.elem (Field.Typ fld) with
        | None => Panic "reflect: Elem of invalid type"
        | Some el =>
            let joinTable := Tables_Ref cur (indirectType el) in
            let polymorphic := Tag.Options (Field.Tag fld) !! "polymorphic" in
            let isPolymorphic := bool_decide (is_Some polymorphic) in
            let rel := Relation.mk HasManyRelation field (Table.Typ joinTable)
                         [] [] None "" None [] [] in
            match Tag.Options (Field.Tag fld) !! "join" with
            | Some join =>
                match parseRelationJoin join with
                | None => Panic ("can't parse relation join: " +:+ Quote E join)
                | Some (baseColumns, joinColumns) =>
                    '(rel, polymorphicColumn) ←
                      hasManyJoinLoop t joinTable (Field.GoName fld) isPolymorphic
                        (zip baseColumns joinColumns) (rel, "");
                    hasManyPolymorphic t joinTable (Field.GoName fld)
                      polymorphic polymorphicColumn rel
                end
            | None =>
                let rel := with_BaseFields (Table.PKs t) rel in
                let fkPrefix := Underscore E (Table.ModelName t) +:+ "_" in
                let polymorphicColumn :=
                  if isPolymorphic then fkPrefix +:+ "type" else "" in
                rel ← hasManyPKLoop h t joinTable (Field.GoName fld) fkPrefix
                        (Table.PKs t) rel;
                hasManyPolymorphic t joinTable (Field.GoName fld)
                  polymorphic polymorphicColumn rel
            end
        end
  end.

(** *** many-to-many *)

Definition m2mRelation (h : Heap) (cur t : Table.t) (field : ptr) : outcome Relation.t :=
  let fld := deref h field in
  if negb (bool_decide (reflect.kind (Field.Typ fld) = reflect.Slice)) then
    Panic ("bun: " +:+ Table.TypeName t +:+ "." +:+ Field.GoName fld
           +:+ " m2m relation requires slice, got "
           +:+ Quote E (kindString (reflect.kind (Field.Typ fld))))
  else
    match reflect.elem (Field.Typ fld) with
    | None => Panic "reflect: Elem of invalid type"
    | Some el =>
        let joinTable := Tables_Ref cur (indirectType el) in
        match CheckPKs t with
        | Some err => Panic err
        | None =>
        match CheckPKs joinTable with
        | Some err => Panic err
        | None =>
        match Tag.Options (Field.Tag fld) !! "m2m" with
        | None => Panic ("bun: " +:+ Field.GoName fld +:+ " must have m2m tag option")
        | Some m2mTableName =>
        match ByName reg m2mTableName with
        | None => Panic ("bun: can't find m2m " +:+ m2mTableName
                         +:+ " table (use db.RegisterModel)")
        | Some m2mTable =>
            let rel := Relation.mk ManyToManyRelation field (Table.Typ joinTable)
                         [] [] None "" (Some (Table.Typ m2mTable)) [] [] in
            '(leftColumn, rightColumn) ←
              match Tag.Options (Field.Tag fld) !! "join" with
              | Some join =>
                  match parseRelationJoin join with
                  | None => Panic ("can't parse relation join: " +:+ Quote E join)
                  | Some (l :: _, r :: _) => Done (l, r)
                  | Some _ => Panic "runtime error: index out of range [0] with length 0"
                  end
              | None => Done (Table.TypeName t, Table.TypeName joinTable)
              end;
            match fieldByGoName h m2mTable leftColumn with
            | None =>
                Panic ("bun: " +:+ Table.TypeName t +:+ " many-to-many "
                       +:+ Field.GoName fld +:+ ": " +:+ Table.TypeName m2mTable
                       +:+ " must have field " +:+ leftColumn
                       +:+ " (to override, use tag join:LeftField=RightField on field "
                       +:+ Table.TypeName t +:+ "." +:+ Field.GoName fld)
            | Some leftField =>
            match fieldByGoName h m2mTable rightColumn with
            | None =>
                Panic ("bun: " +:+ Table.TypeName t +:+ " many-to-many "
                       +:+ Field.GoName fld +:+ ": " +:+ Table.TypeName m2mTable
                       +:+ " must have field " +:+ rightColumn
                       +:+ " (to override, use tag join:LeftField=RightField on field "
                       +:+ Table.TypeName t +:+ "." +:+ Field.GoName fld)
            | Some rightField =>
                leftRel ← hasOneRelation h cur m2mTable leftField;
                let rel := with_BaseFields (Relation.JoinFields leftRel) rel in
                let rel := with_M2M (Relation.BaseFields leftRel) (Relation.M2MJoinFields rel) rel in
                rightRel ← hasOneRelation h cur m2mTable rightField;
                let rel := with_JoinFields (Relation.JoinFields rightRel) rel in
                let rel := with_M2M (Relation.M2MBaseFields rel) (Relation.BaseFields rightRel) rel in
                Done rel
            end
            end
        end
        end
        end
        end
    end.

(** ** Phase 2: inlining *)

(** The loop of inlineFields over [joinTable.allFields]; [rec] is
    inlineFields itself.  The visited set [path] is a Go map, shared by
    all the calls of one traversal, so it is threaded through like the
    state. *)
Fixpoint inlineLoop
    (rec : ptr -> option (gset rtype) -> State -> outcome (gset rtype * State))
    (strct : ptr) (fs : list ptr) (acc : gset rtype * State)
    : outcome (gset rtype * State) :=
  match fs with
  | [] => Done acc
  | f0 :: rest =>
      let '(path, st) := acc in
      let s := deref (heap st) strct in
      let f := deref (heap st) f0 in
      let name := Field.Name s +:+ "__" +:+ Field.Name f in
      let f := Field.rename (Field.GoName s +:+ "_" +:+ Field.GoName f)
                 name (quoteIdent name)
                 (appendNew (Field.Index s) (Field.Index f)) f in
      let '(p, h) := alloc (heap st) f in
      let t := tbl st in
      let t := match Table.FieldMap t !! Field.Name f with
               | Some _ => t
               | None => Table.set_FieldMap (<[Field.Name f := p]> (Table.FieldMap t)) t
               end in
      let st := mkState h t in
      if negb (bool_decide (reflect.kind (Field.Typ f) = reflect.Struct)) then
        inlineLoop rec strct rest (path, st)
      else if decide (Field.Typ f ∈ path) then
        inlineLoop rec strct rest (path, st)
      else
        acc ← rec p (Some path) st;
        inlineLoop rec strct rest acc
  end.

(** [Table.inlineFields]; [path = None] is the nil map of the outer
    calls.  [fuel] bounds the depth of the recursion. *)
Fixpoint inlineFields (fuel : nat) (strct : ptr) (path : option (gset rtype))
    (st : State) : outcome (gset rtype * State) :=
  match fuel with
  | 0 => OutOfFuel
  | S fuel =>
      let path := match path with
                  | None => {[ Table.Typ (tbl st) ]}
                  | Some path => path
                  end in
      let styp := Field.Typ (deref (heap st) strct) in
      if decide (styp ∈ path) then Done (path, st)
      else
        let path := {[ styp ]} ∪ path in
        let joinTable := Tables_Ref (tbl st) styp in
        inlineLoop (inlineFields fuel) strct (Table.allFields joinTable) (path, st)
  end.

Fixpoint initInlinesLoop (fuel : nat) (fs : list ptr) (st : State) : outcome State :=
  match fs with
  | [] => Done st
  | f :: rest =>
      if bool_decide (reflect.kind (Field.Typ (deref (heap st) f)) = reflect.Struct) then
        '(_, st) ← inlineFields fuel f None st;
        initInlinesLoop fuel rest st
      else initInlinesLoop fuel rest st
  end.

Definition initInlines (fuel : nat) (st : State) : outcome State :=
  initInlinesLoop fuel (Table.skippedFields (tbl st)) st.

(** ** Phase 2: the relations of a table *)

Definition initRelation (field : ptr) (rel : string) (st : State) : outcome State :=
  let h := heap st in
  let t := tbl st in
  if String.eqb rel "has-one" then
    r ← hasOneRelation h t t field; t ← addRelation h r t; Done (mkState h t)
  else if String.eqb rel "belongs-to" then
    r ← belongsToRelation h t t field; t ← addRelation h r t; Done (mkState h t)
  else if String.eqb rel "has-many" then
    r ← hasManyRelation h t t field; t ← addRelation h r t; Done (mkState h t)
  else
    Panic ("bun: unknown relation=" +:+ rel +:+ " on field="
           +:+ Field.GoName (deref h field)).

Definition tryRelation (field : ptr) (st : State) : outcome (bool * State) :=
  let fld := deref (heap st) field in
  match Tag.Options (Field.Tag fld) !! "rel" with
  | Some rel => st ← initRelation field rel st; Done (true, st)
  | None =>
      if Tag.HasOption (Field.Tag fld) "m2m" then
        r ← m2mRelation (heap st) (tbl st) (tbl st) field;
        t ← addRelation (heap st) r (tbl st);
        Done (true, mkState (heap st) t)
      else Done (false, st)
  end.

(** The loop [for i := 0; i < len(t.Fields); ] of initRelations.  Every
    turn either advances [i] or shortens [t.Fields], so [n], which
    starts as [len(t.Fields)], counts the turns that remain. *)
Fixpoint initRelationsLoop (fuel : nat) (n : nat) (i : nat) (st : State)
    : outcome State :=
  match Table.Fields (tbl st) !! i with
  | None => Done st
  | Some f =>
      match n with
      | 0 => OutOfFuel
      | S n =>
          '(isRel, st) ← tryRelation f st;
          let '(i, st) :=
            if isRel : bool then
              (i, onTable (fun t =>
                     Table.set_DataFields (removeField (Table.DataFields t) f)
                       (Table.set_Fields (removeField (Table.Fields t) f) t)) st)
            else (S i, st) in
          if bool_decide (reflect.kind (Field.Typ (deref (heap st) f)) = reflect.Struct) then
            '(_, st) ← inlineFields fuel f None st;
            initRelationsLoop fuel n i st
          else initRelationsLoop fuel n i st
      end
  end.

Definition initRelations (fuel : nat) (st : State) : outcome State :=
  initRelationsLoop fuel (length (Table.Fields (tbl st))) 0 st.

Definition init2 (fuel : nat) (st : State) : outcome State :=
  st ← initInlines fuel st;
  st ← initRelations fuel st;
  Done (onTable (Table.set_skippedFields []) st).

End Construction.

(** ** A program to run the construction on

    The helpers of package internal, a dialect that quotes with
    backticks, an inflector that appends an s, and the declarations of a
    few record types with their bun tags. *)

Definition isUpper (c : ascii) : bool :=
  let n := nat_of_ascii c in ((65 <=? n) && (n <=? 90))%nat.

Definition isLower (c : ascii) : bool :=
  let n := nat_of_ascii c in ((97 <=? n) && (n <=? 122))%nat.

Definition toLower (c : ascii) : ascii := ascii_of_nat (nat_of_ascii c + 32).
Definition toUpper (c : ascii) : ascii := ascii_of_nat (nat_of_ascii c - 32).

Fixpoint underscoreFrom (prev : option ascii) (s : string) : string :=
  match s with
  | EmptyString => EmptyString
  | String c rest =>
      let tail := underscoreFrom (Some c) rest in
      if isUpper c then
        match prev, rest with
        | Some p, String nx _ =>
            if isLower p || isLower nx
            then String "_" (String (toLower c) tail)
            else String (toLower c) tail
        | _, _ => String (toLower c) tail
        end
      else String c tail
  end.

Definition snakeCase (s : string) : string := underscoreFrom None s.

Definition exported (s : string) : string :=
  match s with
  | String c rest => if isLower c then String (toUpper c) rest else s
  | EmptyString => s
  end.

Definition opts (l : list (string * string)) : gmap string string := list_to_map l.

Definition demoParse (s : string) : Tag.t :=
  if String.eqb s "" then Tag.mk "" ∅
  else if String.eqb s ",pk" then Tag.mk "" (opts [("pk", "")])
  else if String.eqb s "rel:belongs-to" then Tag.mk "" (opts [("rel", "belongs-to")])
  else if String.eqb s "rel:has-one" then Tag.mk "" (opts [("rel", "has-one")])
  else if String.eqb s "rel:has-many" then Tag.mk "" (opts [("rel", "has-many")])
  else if String.eqb s "m2m:post_tags" then Tag.mk "" (opts [("m2m", "post_tags")])
  else if String.eqb s ",soft_delete" then Tag.mk "" (opts [("soft_delete", "")])
  else if String.eqb s "rel:has-many,polymorphic,join:type=owner_type"
       then Tag.mk "" (opts [("rel", "has-many"); ("polymorphic", ""); ("join", "type=owner_type")])
  else Tag.mk s ∅.

Definition goInt : rtype := reflect.Named "" "int" reflect.Int.
Definition goString : rtype := reflect.Named "" "string" reflect.String.
Definition structT (name : string) : rtype := reflect.Named "main" name reflect.Struct.

Definition fld (name : string) (typ : rtype) (tag : string) : reflect.StructField :=
  reflect.mkStructField name "" typ tag [] false.
Definition embedded (name : string) (typ : rtype) (tag : string) : reflect.StructField :=
  reflect.mkStructField name "" typ tag [] true.

Definition demoDecls : list (rtype * list reflect.StructField) :=
  [ (structT "Author", [fld "ID" goInt ",pk"; fld "Name" goString ""]);
    (structT "Book", [fld "ID" goInt ",pk"; fld "AuthorID" goInt "";
                       fld "Author" (reflect.PtrTo (structT "Author")) "rel:belongs-to"]);
    (structT "Tag", [fld "ID" goInt ",pk"]);
    (structT "Post", [fld "TenantID" goInt ",pk"; fld "ID" goInt ",pk";
                       fld "Tags" (reflect.SliceOf (structT "Tag")) "m2m:post_tags"]);
    (structT "PostTag", [fld "PostTenantID" goInt ""; fld "PostID" goInt "";
                          fld "TagID" goInt "";
                          fld "Post" (reflect.PtrTo (structT "Post")) "";
                          fld "Tag" (reflect.PtrTo (structT "Tag")) ""]);
    (structT "Item", [fld "ID" goInt ",pk"; fld "OwnerType" goString ""]);
    (structT "Owner", [fld "ID" goInt ",pk";
                        fld "Items" (reflect.SliceOf (structT "Item"))
                          "rel:has-many,polymorphic,join:type=owner_type"]);
    (structT "Base", [fld "ID" goInt ""]);
    (structT "Dup", [embedded "Base" (structT "Base") ""; fld "ID" goInt ""]);
    (structT "Node", [fld "ID" goInt ""; fld "Next" (reflect.PtrTo (structT "Node")) "-"]);
    (structT "Ping", [fld "Pong" (reflect.PtrTo (structT "Pong")) "-"]);
    (structT "Pong", [fld "Ping" (reflect.PtrTo (structT "Ping")) "-"]);
    (structT "Doc", [fld "ID" goInt ",pk";
                      fld "DeletedAt" (reflect.PtrTo timeType) ",soft_delete"]) ].

Definition demoEnv : Env :=
  mkEnv (fun typ => default [] (snd <$> List.find (fun d => bool_decide (d.1 = typ)) demoDecls))
        (fun _ _ => false)
        snakeCase exported (fun s => s +:+ "s")
        (fun s => "`" +:+ s +:+ "`")
        demoParse
        (fun typ => kindString (reflect.kind typ))
        (fun _ => "")
        (fun s => s).

Definition noTables : Tables := mkTables (newTable demoEnv) (fun _ => None).

(** Phase 1 on the types of [typs], one after the other, in one store. *)
Fixpoint discover (typs : list rtype) (h : Heap) : option (Heap * list Table.t) :=
  match typs with
  | [] => Some (h, [])
  | typ :: rest =>
      match init1 demoEnv noTables 8 (mkState h (newTable demoEnv typ)) with
      | Some st =>
          match discover rest (heap st) with
          | Some (h, ts) => Some (h, tbl st :: ts)
          | None => None
          end
      | None => None
      end
  end.

Definition demoWorld : Heap * list Table.t :=
  default ([], []) (discover (fst <$> demoDecls) []).

Definition demoHeap : Heap := demoWorld.1.

Definition demoRef (typ : rtype) : Table.t :=
  default (newTable demoEnv typ)
    (List.find (fun t => bool_decide (Table.Typ t = typ)) demoWorld.2).

Definition demoTables : Tables :=
  mkTables demoRef
    (fun name => List.find (fun t => String.eqb (Table.Name t) name) demoWorld.2).

Definition construct (typ : rtype) : outcome State :=
  init2 demoEnv demoTables 8 (mkState demoHeap (demoRef typ)).

(** ** Definitions used by the statements *)

(** The convention for a join column, in the words of the specification:
    the column named by the prefix followed by the name of the primary
    key, and only when the searched table has no such column the one named
    like the primary key itself. *)
Definition conventionColumn (searched : Table.t) (fkPrefix pk : string) : option ptr :=
  match Table.FieldMap searched !! (fkPrefix +:+ pk) with
  | Some f => Some f
  | None => Table.FieldMap searched !! pk
  end.

(** The pairs of an explicit has-many join that stand for columns: all
    of them, but for a polymorphic relation those whose base side is the
    word type. *)
Definition columnPairs (isPolymorphic : bool) (pairs : list (string * string))
    : list (string * string) :=
  filter (fun p => negb (isPolymorphic && String.eqb p.1 "type") = true) pairs.

(** The explicit join pairs of a field, empty when it has none or when
    they do not parse. *)
Definition joinPairs (fld : Field.t) : list (string * string) :=
  match Tag.Options (Field.Tag fld) !! "join" with
  | Some join =>
      match parseRelationJoin join with
      | Some (bs, js) => zip bs js
      | None => []
      end
  | None => []
  end.

(** Whether newField skips a struct field: its tag name is the dash. *)
Definition isSkipped (E : Env) (f : reflect.StructField) : bool :=
  String.eqb (Tag.Name (Parse E (reflect.TagBun f))) "-".

(** The field map after createField: the alias entry, and for a skipped
    field the entry under its name. *)
Definition aliasInsert (E : Env) (f : reflect.StructField) (new : ptr)
    (m : gmap string ptr) : gmap string ptr :=
  match Tag.Options (Parse E (reflect.TagBun f)) !! "alias" with
  | Some v => <[v := new]> m
  | None => m
  end.

Definition bookT : Table.t := demoRef (structT "Book").
Definition authorT : Table.t := demoRef (structT "Author").
Definition postT : Table.t := demoRef (structT "Post").
Definition ownerT : Table.t := demoRef (structT "Owner").

(** The discovery of [Dup], whose column id is reached first through the
    embedded [Base] (path 0.0) and then as its own field (path 1). *)
Definition dupStart : State := mkState [] (newTable demoEnv (structT "Dup")).

Definition dupAfterBase : State :=
  default dupStart
    (addFieldsStep demoEnv noTables (addFields demoEnv noTables 7) [] 0
       (embedded "Base" (structT "Base") "") dupStart).

Definition dupAfterID : State :=
  default dupAfterBase
    (addFieldsStep demoEnv noTables (addFields demoEnv noTables 7) [] 1
       (fld "ID" goInt "") dupAfterBase).

(** The conventional primary key in the words of the specification: the
    field registered as id, else as uuid, else as pk_ followed by the
    model name. *)
Definition conventionalKey (t : Table.t) : option ptr :=
  match Table.FieldMap t !! "id" with
  | Some f => Some f
  | None =>
      match Table.FieldMap t !! "uuid" with
      | Some f => Some f
      | None => Table.FieldMap t !! ("pk_" +:+ Table.ModelName t)
      end
  end.

(** The order in which addFields visits access paths: a path comes
    before its extensions, and before the paths that branch off to a
    later field. *)
Fixpoint lexlt (x y : list nat) : Prop :=
  match x, y with
  | _, [] => False
  | [], _ :: _ => True
  | a :: x, b :: y => a < b \/ (a = b /\ lexlt x y)
  end.

(** What holds of the table during the scan, when every path before
    [bound] has been visited: the registered fields are allocated and
    were found before [bound], DataFields has no field twice, and a
    primary key is a created field that is tagged pk. *)
Record scanned (st : State) (bound : list nat) : Prop := mkScanned {
  sc_map : forall k p, Table.FieldMap (tbl st) !! k = Some p ->
             p < length (heap st)
             /\ lexlt (Field.Index (deref (heap st) p)) bound;
  sc_data_nodup : NoDup (Table.DataFields (tbl st));
  sc_data : forall p, p ∈ Table.DataFields (tbl st) -> p < length (heap st);
  sc_pks : forall p, p ∈ Table.PKs (tbl st) ->
             p < length (heap st)
             /\ p ∈ Table.allFields (tbl st)
             /\ Tag.HasOption (Field.Tag (deref (heap st) p)) "pk" = true
}.

(** The struct types of [U] that a traversal of inlineFields with
    visited set [path] has not yet expanded. *)
Definition unvisited (U path : gset rtype) : nat := size (U ∖ path).

(** The types of the program are finitely many: every struct-typed
    field of a registered table has its type in [U], the fields of the
    registry are allocated in [h0], and no table has more than [M]
    fields. *)
Definition finiteProgram (reg : Tables) (h0 : Heap) (U : gset rtype) (M : nat) : Prop :=
  (forall s p, p ∈ Table.allFields (Ref reg s) ->
     p < length h0
     /\ (reflect.kind (Field.Typ (deref h0 p)) = reflect.Struct ->
         Field.Typ (deref h0 p) ∈ U))
  /\ (forall s, length (Table.allFields (Ref reg s)) <= M).

(** ** The values a soft-delete closure is invoked on

    The closures of softDeleteFieldUpdater receive the reflect value of
    the field of one record.  An instant is a number of nanoseconds since
    the Unix epoch; the reading of [time.Now()] is a parameter of the
    invocation.  A pointer is nil or points to a variable that holds an
    instant or an integer. *)
Inductive Value :=
| VTime (t : Z)
| VNullTime (t : Z) (valid : bool)
| VNullInt64 (n : Z) (valid : bool)
| VInt (typ : rtype) (n : Z)
| VPtr (elem : rtype) (target : option Z)
| VOther (typ : rtype).

Definition int64Type : rtype := reflect.Named "" "int64" reflect.Int64.

(** The zero [time.Time], January 1 of year 1. *)
Definition zeroInstant : Z := (-62135596800 * 1000000000)%Z.

(** [Value.Type] *)
Definition typeOf (v : Value) : rtype :=
  match v with
  | VTime _ => timeType
  | VNullTime _ _ => nullTimeType
  | VNullInt64 _ _ => nullIntType
  | VInt typ _ => typ
  | VPtr elem _ => reflect.PtrTo elem
  | VOther typ => typ
  end.

(** [Value.IsZero] *)
Definition isZero (v : Value) : bool :=
  match v with
  | VTime t => (t =? zeroInstant)%Z
  | VNullTime t valid => (t =? zeroInstant)%Z && negb valid
  | VNullInt64 n valid => (n =? 0)%Z && negb valid
  | VInt _ n => (n =? 0)%Z
  | VPtr _ target => bool_decide (target = None)
  | VOther _ => true
  end.

(** [reflect.Zero] at the types the closures are written for. *)
Definition zeroValue (typ : rtype) : Value :=
  if decide (typ = timeType) then VTime zeroInstant
  else if decide (typ = nullTimeType) then VNullTime zeroInstant false
  else if decide (typ = nullIntType) then VNullInt64 0 false
  else match typ with
       | reflect.PtrTo elem => VPtr elem None
       | reflect.Named _ _ reflect.Int64 => VInt typ 0
       | _ => VOther typ
       end.

(** The closures returned by softDeleteFieldUpdater, run on the field
    value [fv] when the clock reads [now].  The first four take the
    address of the field and assert its type ([fv.Addr().Interface()]
    asserted to a pointer to time.Time, sql.NullTime, sql.NullInt64 or
    int64), which panics when the field has another type; the two pointer
    closures assign a fresh pointer with [fv.Set], which panics when the
    field is not of that pointer type.  [scan] is
    [field.ScanWithCheck], declared in another file. *)
Definition runUpdater (scan : Value -> Z -> outcome Value)
    (u : SoftDeleteUpdater) (now : Z) (fv : Value) : outcome Value :=
  match u with
  | SetTime =>
      if decide (typeOf fv = timeType) then Done (VTime now)
      else Panic "interface conversion: interface {} is not *time.Time"
  | SetNullTime =>
      if decide (typeOf fv = nullTimeType) then Done (VNullTime now false)
      else Panic "interface conversion: interface {} is not *sql.NullTime"
  | SetNullInt64 =>
      if decide (typeOf fv = nullIntType) then Done (VNullInt64 now false)
      else Panic "interface conversion: interface {} is not *sql.NullInt64"
  | SetInt64 =>
      if decide (typeOf fv = int64Type) then Done (VInt int64Type now)
      else Panic "interface conversion: interface {} is not *int64"
  | SetPtrTime =>
      if decide (typeOf fv = reflect.PtrTo timeType)
      then Done (VPtr timeType (Some now))
      else Panic "reflect.Set: value of type *time.Time is not assignable"
  | SetPtrInt64 =>
      if decide (typeOf fv = reflect.PtrTo int64Type)
      then Done (VPtr int64Type (Some now))
      else Panic "reflect.Set: value of type *int64 is not assignable"
  | ScanFallback => scan fv now
  end.

(** The soft-delete field of the table of [Doc], after phase 1. *)
Definition docState : State :=
  default (mkState [] (newTable demoEnv (structT "Doc")))
    (init1 demoEnv noTables 8 (mkState [] (newTable demoEnv (structT "Doc")))).

(** The struct types of the example program. *)
Definition demoTypes : gset rtype := list_to_set (timeType :: (fst <$> demoDecls)).

(** What the invariant asks of the recursive call for an embedded
    struct. *)
Definition scanning (rec : rtype -> list nat -> State -> option State) : Prop :=
  forall typ base st st',
    scanned st (base ++ [0]) -> rec typ base st = Some st' ->
    exists n, scanned st' (base ++ [n]).

(** What one traversal keeps: the table is still the table of the same
    type, and the store has only grown. *)
Definition inlining (h0 : Heap) (T0 : rtype) (st : State) : Prop :=
  Table.Typ (tbl st) = T0 /\ exists ext, heap st = h0 ++ ext.

(** The contract of inlineFields at a given fuel, for a field whose type
    is visited already or is one of [U]. *)
Definition inlinesWithin (E : Env) (reg : Tables) (h0 : Heap) (T0 : rtype)
    (U : gset rtype) (M : nat)
    (rec : ptr -> option (gset rtype) -> State -> outcome (gset rtype * State))
    (n : nat) : Prop :=
  forall strct path st,
    inlining h0 T0 st -> T0 ∈ path ->
    unvisited U path < n ->
    Field.Typ (deref (heap st) strct) ∈ U ∪ path ->
    exists path' st',
      rec strct (Some path) st = Done (path', st')
      /\ path ⊆ path'
      /\ inlining h0 T0 st'
      /\ (exists ext, heap st' = heap st ++ ext)
      /\ length (heap st') + M * unvisited U path'
         <= length (heap st) + M * unvisited U path.

(** ** The text of a join option *)

(** The number of bytes [c] in [s]. *)
Fixpoint countByte (c : ascii) (s : string) : nat :=
  match s with
  | EmptyString => 0
  | String c' s' => (if decide (c' = c) then 1 else 0) + countByte c s'
  end.








(** ** Explicit joins and the relations of the example program *)

(** The fields that the columns [names] stand for in the table [t], in
    the order of the names; nothing when one of them is not a column of
    [t]. *)
Definition resolveColumns (t : Table.t) (names : list string) : option (list ptr) :=
  mapM (fun name => Table.FieldMap t !! name) names.

(** The polymorphic column that an explicit join names: the join side
    of the last pair whose base side is the word type. *)
Definition polymorphicColumnOf (pairs : list (string * string)) : string :=
  foldl (fun column p => if String.eqb p.1 "type" then p.2 else column) "" pairs.

(** The example program with one more tag: a has-one relation that
    names its join columns. *)
Definition writerEnv : Env :=
  mkEnv (structFields demoEnv) (Implements demoEnv) (Underscore demoEnv)
        (ToExported demoEnv) (tableNameInflector demoEnv) (AppendIdent demoEnv)
        (fun s => if String.eqb s "rel:has-one,join:author_id=id"
                  then Tag.mk "" (opts [("rel", "has-one"); ("join", "author_id=id")])
                  else demoParse s)
        (Detect demoEnv) (OnField demoEnv) (Quote demoEnv).

(** The field [Writer *Author] of Book with that tag, as newField
    builds it, at the end of the store of the example program. *)
Definition writerHeap : Heap :=
  demoHeap ++ [makeField writerEnv
                 (reflect.withIndex
                    (fld "Writer" (reflect.PtrTo (structT "Author"))
                       "rel:has-one,join:author_id=id") [3]) [3]].

(** The table of Book without its primary key. *)
Definition keylessBook : State := mkState demoHeap (Table.set_PKs [] bookT).

(** ** What inlineFields changes *)

(** A clone made by inlineFields: the copy of the field [f] found under
    the struct field [s], renamed after both. *)
Definition cloneOf (E : Env) (s f : Field.t) : Field.t :=
  let name := Field.Name s +:+ "__" +:+ Field.Name f in
  Field.rename (Field.GoName s +:+ "_" +:+ Field.GoName f) name (quoteIdent E name)
    (appendNew (Field.Index s) (Field.Index f)) f.

(** The visited set a call of inlineFields starts from. *)
Definition visitedOf (path : option (gset rtype)) (st : State) : gset rtype :=
  match path with
  | None => {[ Table.Typ (tbl st) ]}
  | Some path => path
  end.

(** What a traversal of inlineFields may change: clones are added at
    the end of the store, a name that is free in the field map is given
    to a new clone of that name, and nothing else of the table changes. *)
Record inlined (E : Env) (st st' : State) : Prop := mkInlined {
  in_heap : exists ext, heap st' = heap st ++ ext
                        /\ Forall (fun c => exists s f, c = cloneOf E s f) ext;
  in_kept : forall k p, Table.FieldMap (tbl st) !! k = Some p ->
                        Table.FieldMap (tbl st') !! k = Some p;
  in_new : forall k p, Table.FieldMap (tbl st') !! k = Some p ->
                       Table.FieldMap (tbl st) !! k = None ->
                       length (heap st) <= p < length (heap st')
                       /\ Field.Name (deref (heap st') p) = k;
  in_table : Table.set_FieldMap (Table.FieldMap (tbl st)) (tbl st') = tbl st
}.

(** ** Phase 2 *)

(** A step ends, with a result that satisfies [P] or with a panic: the
    bound that the model puts on the recursions is not reached. *)
Definition endsWith {A} (P : A -> Prop) (r : outcome A) : Prop :=
  match r with
  | Done a => P a
  | Panic _ => True
  | OutOfFuel => False
  end.

(** Whether tryRelation takes a field for a relation: it has the option
    rel or the option m2m. *)
Definition isRelationField (fld : Field.t) : bool :=
  bool_decide (is_Some (Tag.Options (Field.Tag fld) !! "rel"))
  || Tag.HasOption (Field.Tag fld) "m2m".

(** What holds while the loop of initRelations runs on the table of the
    state [st0], when the fields before position [i] have been looked
    at: they are not relations, the relation fields seen so far are out
    of [Fields] and [DataFields] and have their relation registered, and
    nothing else of the lists has changed. *)
Record relating (st0 : State) (i : nat) (st : State) : Prop := mkRelating {
  rl_heap : exists ext, heap st = heap st0 ++ ext;
  rl_sub : forall p, p ∈ Table.Fields (tbl st) -> p ∈ Table.Fields (tbl st0);
  rl_filter :
    filter (fun p => isRelationField (deref (heap st0) p) = false) (Table.Fields (tbl st))
    = filter (fun p => isRelationField (deref (heap st0) p) = false)
        (Table.Fields (tbl st0));
  rl_seen : Forall (fun p => isRelationField (deref (heap st0) p) = false)
              (take i (Table.Fields (tbl st)));
  rl_pks : Table.PKs (tbl st) = Table.PKs (tbl st0);
  rl_all : Table.allFields (tbl st) = Table.allFields (tbl st0);
  rl_data_nodup : NoDup (Table.DataFields (tbl st));
  rl_data_sub : Table.DataFields (tbl st) ⊆ Table.DataFields (tbl st0);
  rl_gone : forall p,
    p ∈ Table.Fields (tbl st0) ->
    isRelationField (deref (heap st0) p) = true ->
    p ∉ Table.Fields (tbl st) ->
    (p ∉ Table.DataFields (tbl st))
    /\ exists r, Table.Relations (tbl st) !! Field.GoName (deref (heap st0) p) = Some r
                 /\ Relation.Field r = p
}.

(** ** Phase 1: the lists of the table *)

(** What the scan keeps of the lists of the table, whatever the order
    of the paths: every discovered field is allocated and exported,
    [Fields] has no field twice and none that is skipped, [PKs] and
    [DataFields] are the fields of [Fields] with and without the
    primary-key mark, in the order of [Fields], the skipped fields are
    discovered fields with the skip marker, and the field map leads to
    discovered fields only. *)
Record discovered (st : State) : Prop := mkDiscovered {
  dv_valid : forall p, p ∈ Table.allFields (tbl st) -> p < length (heap st);
  dv_exported : forall p, p ∈ Table.allFields (tbl st) ->
      reflect.PkgPath (Field.StructField (deref (heap st) p)) = "";
  dv_nodup : NoDup (Table.Fields (tbl st));
  dv_fields : forall p, p ∈ Table.Fields (tbl st) ->
      p ∈ Table.allFields (tbl st)
      /\ Tag.Name (Field.Tag (deref (heap st) p)) <> "-";
  dv_pks : Table.PKs (tbl st)
           = filter (fun p => Field.IsPK (deref (heap st) p) = true)
               (Table.Fields (tbl st));
  dv_data : Table.DataFields (tbl st)
            = filter (fun p => Field.IsPK (deref (heap st) p) = false)
                (Table.Fields (tbl st));
  dv_skipped : forall p, p ∈ Table.skippedFields (tbl st) ->
      p ∈ Table.allFields (tbl st)
      /\ Tag.Name (Field.Tag (deref (heap st) p)) = "-";
  dv_map : forall k p, Table.FieldMap (tbl st) !! k = Some p ->
      p ∈ Table.allFields (tbl st)
}.

(** What the invariant asks of the recursive call for an embedded
    struct. *)
Definition discovering (rec : rtype -> list nat -> State -> option State) : Prop :=
  forall typ base st st',
    scanned st (base ++ [0]) -> discovered st ->
    rec typ base st = Some st' -> discovered st'.

(** The example program with one more record type, [Ghost], whose
    member ID is skipped: [ID int `bun:"-"`] and [Name string]. *)
Definition ghostEnv : Env :=
  mkEnv (fun typ => if decide (typ = structT "Ghost")
                    then [fld "ID" goInt "-"; fld "Name" goString ""]
                    else structFields demoEnv typ)
        (Implements demoEnv) (Underscore demoEnv)
        (ToExported demoEnv) (tableNameInflector demoEnv) (AppendIdent demoEnv)
        (Parse demoEnv) (Detect demoEnv) (OnField demoEnv) (Quote demoEnv).

(** ** Frames *)

(** What phase 1 never changes of the table: its type, its relations
    and its hook flags. *)
Definition sameFlags (t t' : Table.t) : Prop :=
  Table.Typ t' = Table.Typ t
  /\ Table.Relations t' = Table.Relations t
  /\ Table.flags t' = Table.flags t.

(** What phase 2 may do to a state: add clones at the end of the store,
    add entries to the field map and to the relations, and replace
    [Fields], [DataFields] and [skippedFields]; the rest of the table
    stays. *)
Record phase2 (E : Env) (st st' : State) : Prop := mkPhase2 {
  p2_heap : exists clones, heap st' = heap st ++ clones
                           /\ Forall (fun c => exists s f, c = cloneOf E s f) clones;
  p2_table :
    tbl st'
    = Table.set_skippedFields (Table.skippedFields (tbl st'))
        (Table.set_Relations (Table.Relations (tbl st'))
           (Table.set_FieldMap (Table.FieldMap (tbl st'))
              (Table.set_DataFields (Table.DataFields (tbl st'))
                 (Table.set_Fields (Table.Fields (tbl st')) (tbl st)))));
  p2_map : forall k p, Table.FieldMap (tbl st) !! k = Some p ->
                       Table.FieldMap (tbl st') !! k = Some p;
  p2_rel : forall k r, Table.Relations (tbl st) !! k = Some r ->
                       Table.Relations (tbl st') !! k = Some r
}.

(** ** Unique groups *)

(** The example program with one more tag: a column that belongs to
    two unique groups. *)
Definition uniqueEnv : Env :=
  mkEnv (structFields demoEnv) (Implements demoEnv) (Underscore demoEnv)
        (ToExported demoEnv) (tableNameInflector demoEnv) (AppendIdent demoEnv)
        (fun s => if String.eqb s "email,unique:people,contact"
                  then Tag.mk "email" (opts [("unique", "people,contact")])
                  else demoParse s)
        (Detect demoEnv) (OnField demoEnv) (Quote demoEnv).

(** The table of Author with the unique group people already holding
    the column name. *)
Definition groupedAuthor : State :=
  mkState demoHeap (Table.set_Unique {[ "people" := [1] ]} authorT).

(** ** The order of Fields *)

(** The fields of [l] come in strictly increasing order of their access
    paths, in the order in which addFields visits paths. *)
Fixpoint increasing (h : Heap) (l : list ptr) : Prop :=
  match l with
  | [] => True
  | p :: rest =>
      Forall (fun q => lexlt (Field.Index (deref h p)) (Field.Index (deref h q))) rest
      /\ increasing h rest
  end.

(** What the scan keeps of the order of [Fields], when every path
    before [bound] has been visited. *)
Record ordered (st : State) (bound : list nat) : Prop := mkOrdered {
  or_valid : forall p, p ∈ Table.Fields (tbl st) -> p < length (heap st);
  or_before : forall p, p ∈ Table.Fields (tbl st) ->
                        lexlt (Field.Index (deref (heap st) p)) bound;
  or_increasing : increasing (heap st) (Table.Fields (tbl st));
  or_nonempty : forall p, p ∈ Table.Fields (tbl st) ->
                          Field.Index (deref (heap st) p) <> []
}.

Definition ordering (rec : rtype -> list nat -> State -> option State) : Prop :=
  forall typ base st st',
    scanned st (base ++ [0]) -> ordered st (base ++ [0]) ->
    rec typ base st = Some st' ->
    exists n, ordered st' (base ++ [n]).

(** ** The names of a table *)

(** The example program with one more tag, for the BaseModel member of
    a record: a table name and a name for selects. *)
Definition baseEnv : Env :=
  mkEnv (structFields demoEnv) (Implements demoEnv) (Underscore demoEnv)
        (ToExported demoEnv) (tableNameInflector demoEnv) (AppendIdent demoEnv)
        (fun s => if String.eqb s "users,select:users_view"
                  then Tag.mk "users" (opts [("select", "users_view")])
                  else demoParse s)
        (Detect demoEnv) (OnField demoEnv) (Quote demoEnv).

(** ** Columns and their names *)

(** No member of a record type of the program carries the field option
    alias. *)
Definition noAlias (E : Env) : Prop :=
  forall typ f, f ∈ structFields E typ -> reflect.Anonymous f = false ->
    Tag.Options (Parse E (reflect.TagBun f)) !! "alias" = None.

(** The field map and the column names agree: an entry leads to a field
    of that name, and a column is registered under its name. *)
Record named (st : State) : Prop := mkNamed {
  nm_map : forall k p, Table.FieldMap (tbl st) !! k = Some p ->
                       Field.Name (deref (heap st) p) = k;
  nm_fields : forall p, p ∈ Table.Fields (tbl st) ->
      Table.FieldMap (tbl st) !! Field.Name (deref (heap st) p) = Some p
}.

(** What the invariant asks of the recursive call for an embedded
    struct. *)
Definition naming (rec : rtype -> list nat -> State -> option State) : Prop :=
  forall typ base st st',
    scanned st (base ++ [0]) -> discovered st -> named st ->
    rec typ base st = Some st' -> named st'.

(** Every column can be looked up by its name, and no two columns have
    the same name. *)
Definition columnsByName (st : State) : Prop :=
  (forall p, p ∈ Table.Fields (tbl st) ->
     fieldWithLock (tbl st) (Field.Name (deref (heap st) p)) = Some p
     /\ HasField (tbl st) (Field.Name (deref (heap st) p)) = true)
  /\ (forall i j p q, i <> j ->
        Table.Fields (tbl st) !! i = Some p -> Table.Fields (tbl st) !! j = Some q ->
        Field.Name (deref (heap st) p) <> Field.Name (deref (heap st) q)).

(** The example program with one more record type, [Shadow], whose
    second member takes the column name of the first as its alias:
    [A string `bun:"x"`], [B string `bun:"b,alias:x"`] and
    [C string `bun:"x"`]. *)
Definition aliasEnv : Env :=
  mkEnv (fun typ => if decide (typ = structT "Shadow")
                    then [fld "A" goString "x"; fld "B" goString "b,alias:x";
                          fld "C" goString "x"]
                    else structFields demoEnv typ)
        (Implements demoEnv) (Underscore demoEnv)
        (ToExported demoEnv) (tableNameInflector demoEnv) (AppendIdent demoEnv)
        (fun s => if String.eqb s "b,alias:x"
                  then Tag.mk "b" (opts [("alias", "x")])
                  else demoParse s)
        (Detect demoEnv) (OnField demoEnv) (Quote demoEnv).

(** ** The soft-delete field *)

(** A field that newField makes the soft-delete field of its table: it
    carries the option soft_delete and is not skipped. *)
Definition isSoftDelete (fld : Field.t) : bool :=
  negb (String.eqb (Tag.Name (Field.Tag fld)) "-")
  && Tag.HasOption (Field.Tag fld) "soft_delete".

(** The soft-delete field of a table is the last of the discovered
    fields that qualifies, with [NullZero] set and the updater of its
    type; there is none when no discovered field qualifies. *)
Definition softDeleteChoice (st : State) : Prop :=
  match Table.SoftDeleteField (tbl st) with
  | Some p =>
      (exists before after,
          Table.allFields (tbl st) = before ++ p :: after
          /\ Forall (fun q => isSoftDelete (deref (heap st) q) = false) after)
      /\ isSoftDelete (deref (heap st) p) = true
      /\ Field.NullZero (deref (heap st) p) = true
      /\ Table.UpdateSoftDeleteField (tbl st)
         = Some (softDeleteFieldUpdater (deref (heap st) p))
  | None =>
      Table.UpdateSoftDeleteField (tbl st) = None
      /\ Forall (fun q => isSoftDelete (deref (heap st) q) = false)
           (Table.allFields (tbl st))
  end.

(** What the invariant asks of the recursive call for an embedded
    struct. *)
Definition softening (rec : rtype -> list nat -> State -> option State) : Prop :=
  forall typ base st st',
    scanned st (base ++ [0]) -> discovered st -> softDeleteChoice st ->
    rec typ base st = Some st' -> softDeleteChoice st'.

(** * Theorems *)

(** ** Hook predicates *)

Lemma hook_flags_fold (E : Env) (typ : rtype) (l : list (Hook * Z)) (t0 : Table.t) :
  Table.flags
    (foldl (fun t (hook : Hook * Z) =>
              if Implements E typ hook.1
              then Table.set_flags (Flag.Set_ (Table.flags t) hook.2) t
              else t) t0 l) =
  foldl (fun z (hook : Hook * Z) =>
           if Implements E typ hook.1 then Flag.Set_ z hook.2 else z)
        (Table.flags t0) l.
Proof.
  revert t0. induction l as [| hk l IH]; intros t0; [done |].
  cbn [foldl]. rewrite IH. by destruct (Implements E typ hk.1).
Qed.

Lemma newTable_flags (E : Env) (typ : rtype) :
  Table.flags (newTable E typ) =
  foldl (fun z (hook : Hook * Z) =>
           if Implements E typ hook.1 then Flag.Set_ z hook.2 else z) 0%Z hooks.
Proof. unfold newTable. cbn zeta. by rewrite hook_flags_fold. Qed.

(** C10.  HasBeforeInsertHook and HasAfterInsertHook give the same
    answer on every table: both test the after-insert flag.  On the table
    newTable builds for a type, HasBeforeInsertHook therefore says
    whether the type implements the after-insert hook, whatever it does
    about the before-insert hook. *)
Theorem HasBeforeInsertHook_is_HasAfterInsertHook (t : Table.t) :
  HasBeforeInsertHook t = HasAfterInsertHook t
  /\ HasBeforeInsertHook t = Flag.Has (Table.flags t) afterInsertHookFlag
  /\ forall (E : Env) (typ : rtype),
       HasBeforeInsertHook (newTable E typ) = Implements E typ afterInsertHookType.
Proof.
  split; [reflexivity |]. split; [reflexivity |].
  intros E typ. unfold HasBeforeInsertHook. rewrite newTable_flags.
  unfold hooks. cbn [foldl fst snd].
  destruct (Implements E typ beforeScanHookType),
           (Implements E typ afterScanHookType),
           (Implements E typ afterSelectHookType),
           (Implements E typ beforeInsertHookType),
           (Implements E typ afterInsertHookType),
           (Implements E typ beforeUpdateHookType),
           (Implements E typ afterUpdateHookType),
           (Implements E typ beforeDeleteHookType),
           (Implements E typ afterDeleteHookType); reflexivity.
Qed.



(** ** Relation records *)

Lemma with_BaseFields_twice l l' r :
  with_BaseFields l (with_BaseFields l' r) = with_BaseFields l r.
Proof. reflexivity. Qed.

Lemma with_JoinFields_twice l l' r :
  with_JoinFields l (with_JoinFields l' r) = with_JoinFields l r.
Proof. reflexivity. Qed.

(** ** The convention loops *)

Lemma hasOnePKLoop_convention h t goName fkPrefix pks rel :
  match mapM (fun pk => conventionColumn t fkPrefix (Field.Name (deref h pk))) pks with
  | Some cols =>
      hasOnePKLoop h t goName fkPrefix pks rel
      = Done (with_BaseFields (Relation.BaseFields rel ++ cols) rel)
  | None => exists msg, hasOnePKLoop h t goName fkPrefix pks rel = Panic msg
  end.
Proof.
  revert rel. induction pks as [| pk pks IH]; intros rel.
  - simpl. rewrite app_nil_r. destruct rel. reflexivity.
  - cbn [mapM hasOnePKLoop]. unfold conventionColumn, fieldWithLock in *.
    destruct (Table.FieldMap t !! (fkPrefix +:+ Field.Name (deref h pk))) as [fk |] eqn:Hpre.
    + simpl. specialize (IH (with_BaseFields (Relation.BaseFields rel ++ [fk]) rel)).
      destruct (mapM _ pks) as [cols |]; simpl.
      * rewrite IH. simpl. by rewrite <- app_assoc.
      * exact IH.
    + destruct (Table.FieldMap t !! Field.Name (deref h pk)) as [fk |] eqn:Hbare.
      * simpl. specialize (IH (with_BaseFields (Relation.BaseFields rel ++ [fk]) rel)).
        destruct (mapM _ pks) as [cols |]; simpl.
        -- rewrite IH. simpl. by rewrite <- app_assoc.
        -- exact IH.
      * simpl. eauto.
Qed.

Lemma belongsToPKLoop_convention h t joinTable goName fkPrefix pks rel :
  match mapM (fun pk => conventionColumn joinTable fkPrefix (Field.Name (deref h pk))) pks with
  | Some cols =>
      belongsToPKLoop h t joinTable goName fkPrefix pks rel
      = Done (with_JoinFields (Relation.JoinFields rel ++ cols) rel)
  | None => exists msg, belongsToPKLoop h t joinTable goName fkPrefix pks rel = Panic msg
  end.
Proof.
  revert rel. induction pks as [| pk pks IH]; intros rel.
  - simpl. rewrite app_nil_r. destruct rel. reflexivity.
  - cbn [mapM belongsToPKLoop]. unfold conventionColumn, fieldWithLock in *.
    destruct (Table.FieldMap joinTable !! (fkPrefix +:+ Field.Name (deref h pk))) as [fk |] eqn:Hpre.
    + simpl. specialize (IH (with_JoinFields (Relation.JoinFields rel ++ [fk]) rel)).
      destruct (mapM _ pks) as [cols |]; simpl.
      * rewrite IH. simpl. by rewrite <- app_assoc.
      * exact IH.
    + destruct (Table.FieldMap joinTable !! Field.Name (deref h pk)) as [fk |] eqn:Hbare.
      * simpl. specialize (IH (with_JoinFields (Relation.JoinFields rel ++ [fk]) rel)).
        destruct (mapM _ pks) as [cols |]; simpl.
        -- rewrite IH. simpl. by rewrite <- app_assoc.
        -- exact IH.
      * simpl. eauto.
Qed.

Lemma hasManyPKLoop_convention h t joinTable goName fkPrefix pks rel :
  match mapM (fun pk => conventionColumn joinTable fkPrefix (Field.Name (deref h pk))) pks with
  | Some cols =>
      hasManyPKLoop h t joinTable goName fkPrefix pks rel
      = Done (with_JoinFields (Relation.JoinFields rel ++ cols) rel)
  | None => exists msg, hasManyPKLoop h t joinTable goName fkPrefix pks rel = Panic msg
  end.
Proof.
  revert rel. induction pks as [| pk pks IH]; intros rel.
  - simpl. rewrite app_nil_r. destruct rel. reflexivity.
  - cbn [mapM hasManyPKLoop]. unfold conventionColumn, fieldWithLock in *.
    destruct (Table.FieldMap joinTable !! (fkPrefix +:+ Field.Name (deref h pk))) as [fk |] eqn:Hpre.
    + simpl. specialize (IH (with_JoinFields (Relation.JoinFields rel ++ [fk]) rel)).
      destruct (mapM _ pks) as [cols |]; simpl.
      * rewrite IH. simpl. by rewrite <- app_assoc.
      * exact IH.
    + destruct (Table.FieldMap joinTable !! Field.Name (deref h pk)) as [fk |] eqn:Hbare.
      * simpl. specialize (IH (with_JoinFields (Relation.JoinFields rel ++ [fk]) rel)).
        destruct (mapM _ pks) as [cols |]; simpl.
        -- rewrite IH. simpl. by rewrite <- app_assoc.
        -- exact IH.
      * simpl. eauto.
Qed.

Lemma CheckPKs_None t : Table.PKs t <> [] -> CheckPKs t = None.
Proof. unfold CheckPKs. by destruct (Table.PKs t). Qed.

Lemma CheckPKs_Some t : Table.PKs t = [] -> exists err, CheckPKs t = Some err.
Proof. unfold CheckPKs. intros ->. simpl. eauto. Qed.

(** C2.  Without an explicit join, has-one, belongs-to and has-many
    resolve each primary key of the required side by the convention of
    the specification: the column prefix + pk if the searched table has
    it, else the bare pk column; the resolved columns are the result in
    the order of the primary keys, and when for some primary key neither
    column exists the resolver panics instead of giving a relation. *)
Theorem convention_resolution (E : Env) (reg : Tables) (h : Heap)
    (cur t : Table.t) (field : ptr) :
  Tag.Options (Field.Tag (deref h field)) !! "join" = None ->
  let fld := deref h field in
  (let joinTable := Tables_Ref reg cur (Field.Typ fld) in
   Table.PKs joinTable <> [] ->
   match mapM (fun pk => conventionColumn t (Underscore E (Field.GoName fld) +:+ "_")
                           (Field.Name (deref h pk)))
              (Table.PKs joinTable) with
   | Some cols =>
       exists rel, hasOneRelation E reg h cur t field = Done rel
                   /\ Relation.Typ rel = HasOneRelation
                   /\ Relation.BaseFields rel = cols
                   /\ Relation.JoinFields rel = Table.PKs joinTable
   | None => exists msg, hasOneRelation E reg h cur t field = Panic msg
   end)
  /\
  (let joinTable := Tables_Ref reg cur (Field.Typ fld) in
   Table.PKs t <> [] ->
   match mapM (fun pk => conventionColumn joinTable (Underscore E (Table.ModelName t) +:+ "_")
                           (Field.Name (deref h pk)))
              (Table.PKs t) with
   | Some cols =>
       exists rel, belongsToRelation E reg h cur t field = Done rel
                   /\ Relation.Typ rel = BelongsToRelation
                   /\ Relation.BaseFields rel = Table.PKs t
                   /\ Relation.JoinFields rel = cols
   | None => exists msg, belongsToRelation E reg h cur t field = Panic msg
   end)
  /\
  (forall el,
   reflect.kind (Field.Typ fld) = reflect.Slice ->
   reflect.elem (Field.Typ fld) = Some el ->
   let joinTable := Tables_Ref reg cur (indirectType el) in
   Table.PKs t <> [] ->
   match mapM (fun pk => conventionColumn joinTable (Underscore E (Table.ModelName t) +:+ "_")
                           (Field.Name (deref h pk)))
              (Table.PKs t) with
   | Some cols =>
       (exists rel, hasManyRelation E reg h cur t field = Done rel
                    /\ Relation.Typ rel = HasManyRelation
                    /\ Relation.BaseFields rel = Table.PKs t
                    /\ Relation.JoinFields rel = cols)
       \/
       (exists msg, hasManyRelation E reg h cur t field = Panic msg
                    /\ is_Some (Tag.Options (Field.Tag fld) !! "polymorphic")
                    /\ Table.FieldMap joinTable
                         !! ((Underscore E (Table.ModelName t) +:+ "_") +:+ "type") = None)
   | None => exists msg, hasManyRelation E reg h cur t field = Panic msg
   end).
Proof.
  intros Hjoin. cbv zeta. set (fld := deref h field) in *. repeat split.
  - set (joinTable := Tables_Ref reg cur (Field.Typ fld)). intros Hpk.
    unfold hasOneRelation. fold fld. fold joinTable.
    rewrite (CheckPKs_None _ Hpk), Hjoin.
    pose proof (hasOnePKLoop_convention h t (Field.GoName fld)
                  (Underscore E (Field.GoName fld) +:+ "_") (Table.PKs joinTable)
                  (with_JoinFields (Table.PKs joinTable)
                     (Relation.mk HasOneRelation field (Table.Typ joinTable)
                        [] [] None "" None [] []))) as Hloop.
    destruct (mapM _ (Table.PKs joinTable)) as [cols |].
    + eexists. split; [exact Hloop |]. done.
    + exact Hloop.
  - set (joinTable := Tables_Ref reg cur (Field.Typ fld)). intros Hpk.
    unfold belongsToRelation. fold fld. fold joinTable.
    rewrite (CheckPKs_None _ Hpk), Hjoin.
    pose proof (belongsToPKLoop_convention h t joinTable (Field.GoName fld)
                  (Underscore E (Table.ModelName t) +:+ "_") (Table.PKs t)
                  (with_BaseFields (Table.PKs t)
                     (Relation.mk BelongsToRelation field (Table.Typ joinTable)
                        [] [] None "" None [] []))) as Hloop.
    destruct (mapM _ (Table.PKs t)) as [cols |].
    + eexists. split; [exact Hloop |]. done.
    + exact Hloop.
  - intros el Hkind Helem. set (joinTable := Tables_Ref reg cur (indirectType el)).
    intros Hpk. unfold hasManyRelation. fold fld.
    rewrite (CheckPKs_None _ Hpk), Hkind, Helem.
    rewrite bool_decide_eq_true_2 by done. cbn [negb].
    fold joinTable. rewrite Hjoin.
    pose proof (hasManyPKLoop_convention h t joinTable (Field.GoName fld)
                  (Underscore E (Table.ModelName t) +:+ "_") (Table.PKs t)
                  (with_BaseFields (Table.PKs t)
                     (Relation.mk HasManyRelation field (Table.Typ joinTable)
                        [] [] None "" None [] []))) as Hloop.
    destruct (mapM _ (Table.PKs t)) as [cols |].
    + rewrite Hloop. cbn [mbind outcome_bind bind].
      unfold hasManyPolymorphic, fieldWithLock.
      destruct (Tag.Options (Field.Tag fld) !! "polymorphic") as [pv |] eqn:Hpoly.
      * rewrite bool_decide_eq_true_2 by eauto.
        destruct (Table.FieldMap joinTable !! _) as [pf |] eqn:Hpf.
        -- left. eexists. split; [reflexivity |]. done.
        -- right. eexists. split; [reflexivity |]. split; [eauto | reflexivity].
      * left. eexists. split; [reflexivity |]. done.
    + destruct Hloop as [msg Hloop]. rewrite Hloop. cbn. eauto.
Qed.

(** ** Explicit joins *)

Lemma Split_nonempty sep s : Split sep s <> [].
Proof.
  destruct s as [| c s]; simpl; [done |].
  destruct (decide (c = sep)); [done |]. by destruct (Split sep s).
Qed.

Lemma parseRelationJoinPairs_length ss bs js :
  parseRelationJoinPairs ss = Some (bs, js) ->
  length bs = length ss /\ length js = length ss.
Proof.
  revert bs js. induction ss as [| s ss IH]; intros bs js; simpl.
  - intros [= <- <-]. done.
  - destruct (Split "=" (TrimSpace s)) as [| b [| j [| ? ?]]]; try done.
    destruct (parseRelationJoinPairs ss) as [[bs' js'] |]; [| done].
    intros [= <- <-]. destruct (IH bs' js' eq_refl). simpl. lia.
Qed.

Lemma parseRelationJoin_length join bs js :
  parseRelationJoin join = Some (bs, js) ->
  length bs = length js /\ 0 < length bs.
Proof.
  unfold parseRelationJoin. intros H.
  destruct (parseRelationJoinPairs_length _ _ _ H) as [Hb Hj].
  pose proof (Split_nonempty "," join) as Hne.
  destruct (Split "," join); [done |]. simpl in *. lia.
Qed.

Lemma hasOneJoinLoop_lengths t joinTable goName pairs rel rel' :
  hasOneJoinLoop t joinTable goName pairs rel = Done rel' ->
  length (Relation.BaseFields rel') = length (Relation.BaseFields rel) + length pairs
  /\ length (Relation.JoinFields rel') = length (Relation.JoinFields rel) + length pairs
  /\ Relation.Typ rel' = Relation.Typ rel.
Proof.
  revert rel. induction pairs as [| [b j] pairs IH]; intros rel; simpl.
  - intros [= <-]. repeat split; first [done | lia].
  - destruct (fieldWithLock t b); [| done].
    destruct (fieldWithLock joinTable j); [| done].
    intros H. apply IH in H. simpl in H. rewrite !length_app in H. simpl in H.
    destruct H as (? & ? & ?). repeat split; first [done | lia].
Qed.

Lemma belongsToJoinLoop_lengths t joinTable goName pairs rel rel' :
  belongsToJoinLoop t joinTable goName pairs rel = Done rel' ->
  length (Relation.BaseFields rel') = length (Relation.BaseFields rel) + length pairs
  /\ length (Relation.JoinFields rel') = length (Relation.JoinFields rel) + length pairs
  /\ Relation.Typ rel' = Relation.Typ rel.
Proof.
  revert rel. induction pairs as [| [b j] pairs IH]; intros rel; simpl.
  - intros [= <-]. repeat split; first [done | lia].
  - destruct (fieldWithLock t b); [| done].
    destruct (fieldWithLock joinTable j); [| done].
    intros H. apply IH in H. simpl in H. rewrite !length_app in H. simpl in H.
    destruct H as (? & ? & ?). repeat split; first [done | lia].
Qed.


Lemma hasManyJoinLoop_lengths t joinTable goName isPolymorphic pairs rel pc rel' pc' :
  hasManyJoinLoop t joinTable goName isPolymorphic pairs (rel, pc) = Done (rel', pc') ->
  length (Relation.BaseFields rel')
    = length (Relation.BaseFields rel) + length (columnPairs isPolymorphic pairs)
  /\ length (Relation.JoinFields rel')
    = length (Relation.JoinFields rel) + length (columnPairs isPolymorphic pairs)
  /\ Relation.Typ rel' = Relation.Typ rel.
Proof.
  revert rel pc. induction pairs as [| [b j] pairs IH]; intros rel pc; simpl.
  - intros [= <- <-]. unfold columnPairs. simpl. repeat split; first [done | lia].
  - unfold columnPairs. rewrite filter_cons. simpl.
    destruct (isPolymorphic && String.eqb b "type") eqn:Hty; simpl.
    + intros H. apply IH in H. exact H.
    + destruct (fieldWithLock t b); [| done].
      destruct (fieldWithLock joinTable j); [| done].
      intros H. apply IH in H. simpl in H. rewrite !length_app in H.
      simpl in H. fold (columnPairs isPolymorphic pairs).
      destruct H as (? & ? & ?). repeat split; first [done | lia].
Qed.

(** ** The resolvers *)

Lemma hasOneRelation_lengths E reg h cur t field rel :
  hasOneRelation E reg h cur t field = Done rel ->
  Relation.Typ rel = HasOneRelation
  /\ length (Relation.BaseFields rel) = length (Relation.JoinFields rel)
  /\ 0 < length (Relation.BaseFields rel).
Proof.
  unfold hasOneRelation.
  set (fld := deref h field). set (joinTable := Tables_Ref reg cur (Field.Typ fld)).
  unfold CheckPKs.
  destruct (Table.PKs joinTable) as [| pk0 pks] eqn:Hpks; [done |]. cbn [length Nat.eqb].
  destruct (Tag.Options (Field.Tag fld) !! "join") as [join |].
  - destruct (parseRelationJoin join) as [[bs js] |] eqn:Hparse; [| done].
    apply parseRelationJoin_length in Hparse as [Hlen Hpos].
    intros H. apply hasOneJoinLoop_lengths in H as (Hb & Hj & Hty).
    simpl in Hb, Hj, Hty. rewrite length_zip in Hb, Hj. split; [done |]. lia.
  - intros H.
    pose proof (hasOnePKLoop_convention h t (Field.GoName fld)
                  (Underscore E (Field.GoName fld) +:+ "_") (pk0 :: pks)
                  (with_JoinFields (pk0 :: pks)
                     (Relation.mk HasOneRelation field (Table.Typ joinTable)
                        [] [] None "" None [] []))) as Hloop.
    destruct (mapM _ (pk0 :: pks)) as [cols |] eqn:Hm.
    + rewrite Hloop in H. injection H as <-. apply length_mapM in Hm.
      simpl in *. split; [done |]. lia.
    + destruct Hloop as [msg Hloop]. congruence.
Qed.

Lemma belongsToRelation_lengths E reg h cur t field rel :
  belongsToRelation E reg h cur t field = Done rel ->
  Relation.Typ rel = BelongsToRelation
  /\ length (Relation.BaseFields rel) = length (Relation.JoinFields rel)
  /\ 0 < length (Relation.BaseFields rel).
Proof.
  unfold belongsToRelation, CheckPKs.
  destruct (Table.PKs t) as [| pk0 pks] eqn:Hpks; [done |]. cbn [length Nat.eqb].
  set (fld := deref h field). set (joinTable := Tables_Ref reg cur (Field.Typ fld)).
  destruct (Tag.Options (Field.Tag fld) !! "join") as [join |].
  - destruct (parseRelationJoin join) as [[bs js] |] eqn:Hparse; [| done].
    apply parseRelationJoin_length in Hparse as [Hlen Hpos].
    intros H. apply belongsToJoinLoop_lengths in H as (Hb & Hj & Hty).
    simpl in Hb, Hj, Hty. rewrite length_zip in Hb, Hj. split; [done |]. lia.
  - intros H.
    pose proof (belongsToPKLoop_convention h t joinTable (Field.GoName fld)
                  (Underscore E (Table.ModelName t) +:+ "_") (pk0 :: pks)
                  (with_BaseFields (pk0 :: pks)
                     (Relation.mk BelongsToRelation field (Table.Typ joinTable)
                        [] [] None "" None [] []))) as Hloop.
    destruct (mapM _ (pk0 :: pks)) as [cols |] eqn:Hm.
    + rewrite Hloop in H. injection H as <-. apply length_mapM in Hm.
      simpl in *. split; [done |]. lia.
    + destruct Hloop as [msg Hloop]. congruence.
Qed.

Lemma hasManyPolymorphic_fields t joinTable goName poly pc rel rel' :
  hasManyPolymorphic t joinTable goName poly pc rel = Done rel' ->
  Relation.BaseFields rel' = Relation.BaseFields rel
  /\ Relation.JoinFields rel' = Relation.JoinFields rel
  /\ Relation.Typ rel' = Relation.Typ rel.
Proof.
  unfold hasManyPolymorphic. destruct poly as [pv |].
  - destruct (fieldWithLock joinTable pc); [| done]. by intros [= <-].
  - by intros [= <-].
Qed.


Lemma hasManyRelation_lengths E reg h cur t field rel :
  hasManyRelation E reg h cur t field = Done rel ->
  let fld := deref h field in
  Relation.Typ rel = HasManyRelation
  /\ length (Relation.BaseFields rel) = length (Relation.JoinFields rel)
  /\ match Tag.Options (Field.Tag fld) !! "join" with
     | Some _ =>
         0 < length (joinPairs fld)
         /\ length (Relation.BaseFields rel)
            = length (columnPairs
                        (bool_decide (is_Some (Tag.Options (Field.Tag fld) !! "polymorphic")))
                        (joinPairs fld))
     | None => 0 < length (Relation.BaseFields rel)
     end.
Proof.
  unfold hasManyRelation, CheckPKs, joinPairs. cbv zeta.
  destruct (Table.PKs t) as [| pk0 pks] eqn:Hpks; [done |]. cbn [length Nat.eqb].
  set (fld := deref h field).
  destruct (negb _); [done |].
  destruct (reflect.elem (Field.Typ fld)) as [el |]; [| done].
  set (joinTable := Tables_Ref reg cur (indirectType el)).
  destruct (Tag.Options (Field.Tag fld) !! "join") as [join |].
  - destruct (parseRelationJoin join) as [[bs js] |] eqn:Hparse; [| done].
    destruct (hasManyJoinLoop _ _ _ _ _ _) as [[rel1 pc1] | |] eqn:Hloop; try done.
    cbn [mbind outcome_bind bind].
    apply hasManyJoinLoop_lengths in Hloop as (Hb & Hj & Hty).
    intros H. apply hasManyPolymorphic_fields in H as (-> & -> & ->).
    apply parseRelationJoin_length in Hparse as [Hlen Hpos].
    simpl in Hb, Hj, Hty. rewrite length_zip. repeat split; first [done | lia].
  - pose proof (hasManyPKLoop_convention h t joinTable (Field.GoName fld)
                  (Underscore E (Table.ModelName t) +:+ "_") (pk0 :: pks)
                  (with_BaseFields (pk0 :: pks)
                     (Relation.mk HasManyRelation field (Table.Typ joinTable)
                        [] [] None "" None [] []))) as Hloop.
    destruct (mapM _ (pk0 :: pks)) as [cols |] eqn:Hm.
    + rewrite Hloop. cbn [mbind outcome_bind bind].
      intros H. apply hasManyPolymorphic_fields in H as (-> & -> & ->).
      apply length_mapM in Hm. simpl in *. split; [done |]. split; lia.
    + destruct Hloop as [msg ->]. done.
Qed.

Lemma m2mRelation_fields E reg h cur t field rel :
  m2mRelation E reg h cur t field = Done rel ->
  exists m2mTable leftField rightField leftRel rightRel,
    (exists name, Tag.Options (Field.Tag (deref h field)) !! "m2m" = Some name
                  /\ ByName reg name = Some m2mTable)
    /\ Relation.M2MTable rel = Some (Table.Typ m2mTable)
    /\ leftField ∈ Table.allFields m2mTable
    /\ rightField ∈ Table.allFields m2mTable
    /\ hasOneRelation E reg h cur m2mTable leftField = Done leftRel
    /\ hasOneRelation E reg h cur m2mTable rightField = Done rightRel
    /\ Relation.Typ rel = ManyToManyRelation
    /\ Relation.BaseFields rel = Relation.JoinFields leftRel
    /\ Relation.M2MBaseFields rel = Relation.BaseFields leftRel
    /\ Relation.JoinFields rel = Relation.JoinFields rightRel
    /\ Relation.M2MJoinFields rel = Relation.BaseFields rightRel.
Proof.
  unfold m2mRelation. set (fld := deref h field).
  destruct (negb _); [done |].
  destruct (reflect.elem (Field.Typ fld)) as [el |]; [| done].
  destruct (CheckPKs t); [done |].
  destruct (CheckPKs _); [done |].
  destruct (Tag.Options (Field.Tag fld) !! "m2m") as [m2mTableName |] eqn:Hname; [| done].
  destruct (ByName reg m2mTableName) as [m2mTable |] eqn:Hby; [| done].
  match goal with |- (?c ≫= _) = _ -> _ => destruct c as [[l r] | |]; try done end.
  cbn [mbind outcome_bind bind].
  destruct (fieldByGoName h m2mTable l) as [leftField |] eqn:Hlf; [| done].
  destruct (fieldByGoName h m2mTable r) as [rightField |] eqn:Hrf; [| done].
  apply find_some in Hlf as [Hlf _]. apply find_some in Hrf as [Hrf _].
  apply list_elem_of_In in Hlf, Hrf.
  destruct (hasOneRelation E reg h cur m2mTable leftField) as [leftRel | |] eqn:Hl; try done.
  cbn [bind].
  destruct (hasOneRelation E reg h cur m2mTable rightField) as [rightRel | |] eqn:Hr; try done.
  cbn [bind]. intros [= <-].
  exists m2mTable, leftField, rightField, leftRel, rightRel.
  split; [by exists m2mTableName |]. done.
Qed.

Lemma columnPairs_all pairs : columnPairs false pairs = pairs.
Proof.
  unfold columnPairs. induction pairs as [| p pairs IH]; [done |].
  rewrite filter_cons_True by done. by rewrite IH.
Qed.

(** C4 (amended).  Of a relation whose construction completes: for
    has-one and belongs-to, BaseFields and JoinFields have the same
    length, which is not zero; for has-many they have the same length,
    which is not zero when the field has no explicit join or is not
    polymorphic (a pair type=column of a polymorphic join adds no
    fields); for many-to-many both lists are non-empty, each as long as
    the matching side of the junction (C5), and the two need not be
    equally long. *)
Theorem relation_fields_lengths (E : Env) (reg : Tables) (h : Heap)
    (cur t : Table.t) (field : ptr) (rel : Relation.t) :
  (hasOneRelation E reg h cur t field = Done rel
   \/ belongsToRelation E reg h cur t field = Done rel ->
   length (Relation.BaseFields rel) = length (Relation.JoinFields rel)
   /\ 0 < length (Relation.BaseFields rel))
  /\
  (hasManyRelation E reg h cur t field = Done rel ->
   length (Relation.BaseFields rel) = length (Relation.JoinFields rel)
   /\ (Tag.Options (Field.Tag (deref h field)) !! "join" = None
       \/ Tag.Options (Field.Tag (deref h field)) !! "polymorphic" = None ->
       0 < length (Relation.BaseFields rel)))
  /\
  (m2mRelation E reg h cur t field = Done rel ->
   0 < length (Relation.BaseFields rel)
   /\ 0 < length (Relation.JoinFields rel)).
Proof.
  repeat split.
  - destruct H as [H | H].
    + by apply hasOneRelation_lengths in H as (_ & ? & _).
    + by apply belongsToRelation_lengths in H as (_ & ? & _).
  - destruct H as [H | H].
    + by apply hasOneRelation_lengths in H as (_ & _ & ?).
    + by apply belongsToRelation_lengths in H as (_ & _ & ?).
  - by apply hasManyRelation_lengths in H as (_ & ? & _).
  - intros Hor. apply hasManyRelation_lengths in H as (_ & _ & H). cbv zeta in H.
    destruct (Tag.Options (Field.Tag (deref h field)) !! "join") as [join |] eqn:Hjoin;
      [| done].
    destruct Hor as [Hor | Hor]; [done |]. rewrite Hor in H.
    rewrite bool_decide_eq_false_2 in H by (intros [? ?]; done).
    rewrite columnPairs_all in H. lia.
  - apply m2mRelation_fields in H
      as (m2mTable & lf & rf & lrel & rrel & _ & _ & _ & _ & Hl & _ & _ & -> & _).
    apply hasOneRelation_lengths in Hl. lia.
  - apply m2mRelation_fields in H
      as (m2mTable & lf & rf & lrel & rrel & _ & _ & _ & _ & _ & Hr & _ & _ & _ & -> & _).
    apply hasOneRelation_lengths in Hr. lia.
Qed.

(** C5.  Of a many-to-many relation whose construction completes:
    BaseFields is as long as M2MBaseFields, JoinFields as long as
    M2MJoinFields, and none of the four is empty.  The two sides come
    from two runs of hasOneRelation with the junction table (the table
    registered under the name of the m2m option) as receiver, one for
    each of two of its fields: the JoinFields of a run is the side of
    the relation, its BaseFields the side of the junction. *)
Theorem m2m_sides_from_has_one (E : Env) (reg : Tables) (h : Heap)
    (cur t : Table.t) (field : ptr) (rel : Relation.t) :
  m2mRelation E reg h cur t field = Done rel ->
  length (Relation.BaseFields rel) = length (Relation.M2MBaseFields rel)
  /\ length (Relation.JoinFields rel) = length (Relation.M2MJoinFields rel)
  /\ 0 < length (Relation.BaseFields rel)
  /\ 0 < length (Relation.M2MBaseFields rel)
  /\ 0 < length (Relation.JoinFields rel)
  /\ 0 < length (Relation.M2MJoinFields rel)
  /\ exists m2mTable leftField rightField leftRel rightRel,
       (exists name, Tag.Options (Field.Tag (deref h field)) !! "m2m" = Some name
                     /\ ByName reg name = Some m2mTable)
       /\ Relation.M2MTable rel = Some (Table.Typ m2mTable)
       /\ leftField ∈ Table.allFields m2mTable
       /\ rightField ∈ Table.allFields m2mTable
       /\ hasOneRelation E reg h cur m2mTable leftField = Done leftRel
       /\ hasOneRelation E reg h cur m2mTable rightField = Done rightRel
       /\ Relation.BaseFields rel = Relation.JoinFields leftRel
       /\ Relation.M2MBaseFields rel = Relation.BaseFields leftRel
       /\ Relation.JoinFields rel = Relation.JoinFields rightRel
       /\ Relation.M2MJoinFields rel = Relation.BaseFields rightRel.
Proof.
  intros H.
  apply m2mRelation_fields in H
    as (m2mTable & lf & rf & lrel & rrel & Hn & Hm & Hlf & Hrf & Hl & Hr & Hty & HB & HMB & HJ & HMJ).
  pose proof (hasOneRelation_lengths _ _ _ _ _ _ _ Hl) as (_ & Hll & Hlp).
  pose proof (hasOneRelation_lengths _ _ _ _ _ _ _ Hr) as (_ & Hrl & Hrp).
  rewrite HB, HMB, HJ, HMJ.
  repeat (split; [lia |]).
  exists m2mTable, lf, rf, lrel, rrel. done.
Qed.


(** ** The store *)

Lemma deref_alloc h f : deref (h ++ [f]) (length h) = f.
Proof. unfold deref. rewrite app_nth2 by lia. by rewrite Nat.sub_diag. Qed.

Lemma deref_app h h' p : p < length h -> deref (h ++ h') p = deref h p.
Proof. intros Hp. unfold deref. by rewrite app_nth1. Qed.

(** ** removeField *)

Lemma removeField_subseteq l x : removeField l x ⊆ l.
Proof.
  induction l as [| y l IH]; simpl; [done |].
  destruct (decide (y = x)); set_solver.
Qed.

Lemma removeField_NoDup l x : NoDup l -> NoDup (removeField l x) /\ x ∉ removeField l x.
Proof.
  induction 1 as [| y l Hy Hl IH]; simpl.
  - split; [constructor | set_solver].
  - destruct (decide (y = x)) as [-> | Hne].
    + done.
    + destruct IH as [IH1 IH2]. split.
      * constructor; [| done]. intros Hin. apply Hy. by apply removeField_subseteq in Hin.
      * set_solver.
Qed.

Lemma removeField_notin l x : x ∉ l -> removeField l x = l.
Proof.
  induction l as [| y l IH]; simpl; [done |].
  intros Hx. destruct (decide (y = x)) as [-> | Hne]; [set_solver |].
  rewrite IH; [done | set_solver].
Qed.

(** ** The object built by newField *)

Lemma makeField_Name E f index : Field.Name (makeField E f index) = columnName E f.
Proof. unfold makeField. repeat (case_match; simpl); reflexivity. Qed.

Lemma makeField_Index E f index : Field.Index (makeField E f index) = index.
Proof. unfold makeField. repeat (case_match; simpl); reflexivity. Qed.

Lemma makeField_Tag E f index :
  Field.Tag (makeField E f index) = Parse E (reflect.TagBun f).
Proof. unfold makeField. repeat (case_match; simpl); reflexivity. Qed.

Lemma makeField_IsPK E f index :
  Field.IsPK (makeField E f index) = Tag.HasOption (Parse E (reflect.TagBun f)) "pk".
Proof.
  unfold makeField.
  destruct (Tag.HasOption (Parse E (reflect.TagBun f)) "pk") eqn:Hpk;
    repeat (case_match; simpl); reflexivity.
Qed.


Lemma createField_heap E f index st :
  heap (createField E f index st).2 = heap st ++ [makeField E f index].
Proof. unfold createField, alloc. repeat (case_match; simpl); reflexivity. Qed.

Lemma createField_result E f index st :
  (createField E f index st).1 =
  if isSkipped E f then None else Some (length (heap st)).
Proof. unfold createField, alloc, isSkipped. repeat (case_match; simpl); reflexivity. Qed.

Lemma createField_lists E f index st :
  let t' := tbl (createField E f index st).2 in
  Table.Fields t' = Table.Fields (tbl st)
  /\ Table.PKs t' = Table.PKs (tbl st)
  /\ Table.DataFields t' = Table.DataFields (tbl st)
  /\ Table.allFields t' = Table.allFields (tbl st) ++ [length (heap st)]
  /\ Table.Typ t' = Table.Typ (tbl st)
  /\ Table.ModelName t' = Table.ModelName (tbl st).
Proof. unfold createField, alloc. repeat (case_match; simpl); done. Qed.


Lemma createField_FieldMap E f index st :
  Table.FieldMap (tbl (createField E f index st).2) =
  let m := aliasInsert E f (length (heap st)) (Table.FieldMap (tbl st)) in
  if isSkipped E f then <[columnName E f := length (heap st)]> m else m.
Proof.
  unfold createField, alloc, isSkipped, aliasInsert. cbv zeta.
  repeat (case_match; simpl); rewrite ?deref_alloc, ?makeField_Name; reflexivity.
Qed.

(** ** newField on a column that is already registered *)

Lemma newField_same_path E f index st prior :
  reflect.PkgPath f = "" ->
  fieldWithLock (tbl st) (columnName E f) = Some prior ->
  Field.Index (deref (heap st) prior) = index ++ reflect.Index f ->
  newField E f index st = (Some prior, st).
Proof.
  intros Hpkg Hprior Hix. unfold newField. rewrite Hpkg. simpl.
  rewrite Hprior. unfold indexEqual. by rewrite bool_decide_eq_true_2.
Qed.

Lemma newField_other_path E f index st prior :
  reflect.PkgPath f = "" ->
  fieldWithLock (tbl st) (columnName E f) = Some prior ->
  Field.Index (deref (heap st) prior) <> index ++ reflect.Index f ->
  newField E f index st
  = createField E f (index ++ reflect.Index f) (Table_removeField prior st).
Proof.
  intros Hpkg Hprior Hix. unfold newField. rewrite Hpkg. simpl.
  rewrite Hprior. unfold indexEqual. by rewrite bool_decide_eq_false_2.
Qed.

Lemma newField_unregistered E f index st :
  reflect.PkgPath f = "" ->
  fieldWithLock (tbl st) (columnName E f) = None ->
  newField E f index st = createField E f (index ++ reflect.Index f) st.
Proof.
  intros Hpkg Hnone. unfold newField. rewrite Hpkg. simpl. by rewrite Hnone.
Qed.

(** The turn of the loop of addFields on a field that is not embedded. *)
Lemma addFieldsStep_plain E reg rec baseIndex i f0 st :
  reflect.Anonymous f0 = false ->
  addFieldsStep E reg rec baseIndex i f0 st
  = Some (match newField E (reflect.withIndex f0 [i]) baseIndex st with
          | (Some field, st) => addField field st
          | (None, st) => st
          end).
Proof.
  intros Hanon. unfold addFieldsStep. simpl. rewrite Hanon.
  by destruct (newField _ _ _ _) as [[field |] st'].
Qed.

(** The state after createField and the addField of its result. *)
Lemma discover_created E f index st :
  let new := length (heap st) in
  let st1 := match createField E f index st with
             | (Some field, st) => addField field st
             | (None, st) => st
             end in
  heap st1 = heap st ++ [makeField E f index]
  /\ Table.FieldMap (tbl st1)
     = <[columnName E f := new]> (aliasInsert E f new (Table.FieldMap (tbl st)))
  /\ Table.allFields (tbl st1) = Table.allFields (tbl st) ++ [new]
  /\ Table.Fields (tbl st1)
     = Table.Fields (tbl st) ++ (if isSkipped E f then [] else [new])
  /\ Table.PKs (tbl st1)
     = Table.PKs (tbl st)
       ++ (if negb (isSkipped E f) && Field.IsPK (makeField E f index) then [new] else [])
  /\ Table.DataFields (tbl st1)
     = Table.DataFields (tbl st)
       ++ (if negb (isSkipped E f) && negb (Field.IsPK (makeField E f index)) then [new] else []).
Proof.
  cbv zeta.
  pose proof (createField_heap E f index st) as Hh.
  pose proof (createField_result E f index st) as Hr.
  pose proof (createField_FieldMap E f index st) as Hm.
  pose proof (createField_lists E f index st) as (HF & HP & HD & HA & _).
  destruct (createField E f index st) as [r st1]. simpl in *. cbv zeta in Hm.
  destruct (isSkipped E f); subst r; simpl.
  - rewrite Hh, Hm, HA, HF, HP, HD, !app_nil_r. done.
  - unfold addField. simpl. rewrite Hh, deref_alloc, makeField_Name.
    destruct (Field.IsPK (makeField E f index)); simpl;
      rewrite ?Hm, ?HA, ?HF, ?HP, ?HD, ?app_nil_r; done.
Qed.

(** C7.  When newField meets a column name that is already registered:
    with the identical access path it returns the existing Field and
    changes nothing (no Field is created); with a different access path
    the prior Field is cut out of Fields and of PKs or DataFields and its
    name is deleted from the field map, a new Field is allocated, and the
    new Field is what the turn of addFields registers under the column
    name and appends to the lists. *)
Theorem newField_registered_column (E : Env) (reg : Tables)
    (rec : rtype -> list nat -> State -> option State)
    (baseIndex : list nat) (i : nat) (f0 : reflect.StructField)
    (st : State) (prior : ptr) :
  let f := reflect.withIndex f0 [i] in
  let path := baseIndex ++ [i] in
  let priorF := deref (heap st) prior in
  reflect.Anonymous f0 = false ->
  reflect.PkgPath f0 = "" ->
  fieldWithLock (tbl st) (columnName E f) = Some prior ->
  (Field.Index priorF = path -> newField E f baseIndex st = (Some prior, st))
  /\
  (Field.Index priorF <> path ->
   let new := length (heap st) in
   let newPK := if negb (isSkipped E f) && Field.IsPK (makeField E f path)
                then [new] else [] in
   let newData := if negb (isSkipped E f) && negb (Field.IsPK (makeField E f path))
                  then [new] else [] in
   exists st',
     addFieldsStep E reg rec baseIndex i f0 st = Some st'
     /\ heap st' = heap st ++ [makeField E f path]
     /\ Field.Index (deref (heap st') new) = path
     /\ Table.FieldMap (tbl st')
        = <[columnName E f := new]>
            (aliasInsert E f new (delete (Field.Name priorF) (Table.FieldMap (tbl st))))
     /\ Table.Fields (tbl st')
        = removeField (Table.Fields (tbl st)) prior
          ++ (if isSkipped E f then [] else [new])
     /\ (if Field.IsPK priorF
         then Table.PKs (tbl st') = removeField (Table.PKs (tbl st)) prior ++ newPK
              /\ Table.DataFields (tbl st') = Table.DataFields (tbl st) ++ newData
         else Table.PKs (tbl st') = Table.PKs (tbl st) ++ newPK
              /\ Table.DataFields (tbl st')
                 = removeField (Table.DataFields (tbl st)) prior ++ newData)
     /\ (prior < new -> NoDup (Table.Fields (tbl st)) ->
         prior ∉ Table.Fields (tbl st'))).
Proof.
  intros f path priorF Hanon Hpkg Hprior. split.
  - intros Hix. by apply newField_same_path.
  - intros Hix new newPK newData.
    rewrite (addFieldsStep_plain _ _ _ _ _ _ _ Hanon). fold f.
    rewrite (newField_other_path E f baseIndex st prior Hpkg Hprior Hix).
    change (baseIndex ++ reflect.Index f) with path.
    pose proof (discover_created E f path (Table_removeField prior st))
      as (Hh & Hm & _ & HF & HP & HD).
    eexists. split; [reflexivity |].
    change (heap (Table_removeField prior st)) with (heap st) in *.
    fold new in Hm, HF, HP, HD. fold newPK in HP. fold newData in HD.
    split; [exact Hh |].
    split; [rewrite Hh; unfold new; by rewrite deref_alloc, makeField_Index |].
    split; [rewrite Hm; unfold Table_removeField; fold priorF;
            by destruct (Field.IsPK priorF) |].
    split; [rewrite HF; unfold Table_removeField; fold priorF;
            by destruct (Field.IsPK priorF) |].
    split.
    + rewrite HP, HD. unfold Table_removeField. fold priorF.
      by destruct (Field.IsPK priorF).
    + intros Hlt Hnd. rewrite HF.
      assert (Table.Fields (tbl (Table_removeField prior st))
              = removeField (Table.Fields (tbl st)) prior) as ->.
      { unfold Table_removeField. fold priorF. by destruct (Field.IsPK priorF). }
      destruct (removeField_NoDup _ prior Hnd) as [_ Hnot].
      rewrite elem_of_app. intros [Hin | Hin]; [done |].
      destruct (isSkipped E f); [by apply elem_of_nil in Hin |].
      apply list_elem_of_singleton in Hin. lia.
Qed.

(** C6 (amended).  A second discovery that resolves to a registered
    column name is a no-op only at the identical access path: newField
    then gives back the registered Field and leaves table and store as
    they were.  At a different access path the turn of addFields
    registers a newly allocated Field under that name, with the new
    path, instead of the prior one. *)
Theorem rediscovery_identity (E : Env) (reg : Tables)
    (rec : rtype -> list nat -> State -> option State)
    (baseIndex : list nat) (i : nat) (f0 : reflect.StructField)
    (st : State) (prior : ptr) :
  let f := reflect.withIndex f0 [i] in
  let path := baseIndex ++ [i] in
  reflect.Anonymous f0 = false ->
  reflect.PkgPath f0 = "" ->
  Table.FieldMap (tbl st) !! columnName E f = Some prior ->
  prior < length (heap st) ->
  (Field.Index (deref (heap st) prior) = path ->
   (newField E f baseIndex st).1 = Some prior
   /\ (newField E f baseIndex st).2 = st
   /\ Table.FieldMap (tbl (newField E f baseIndex st).2) !! columnName E f = Some prior)
  /\
  (Field.Index (deref (heap st) prior) <> path ->
   exists st' new,
     addFieldsStep E reg rec baseIndex i f0 st = Some st'
     /\ Table.FieldMap (tbl st') !! columnName E f = Some new
     /\ new <> prior
     /\ Field.Index (deref (heap st') new) = path
     /\ deref (heap st') prior = deref (heap st) prior).
Proof.
  intros f path Hanon Hpkg Hprior Hvalid. split.
  - intros Hix. rewrite (newField_same_path E f baseIndex st prior Hpkg Hprior Hix).
    done.
  - intros Hix.
    rewrite (addFieldsStep_plain _ _ _ _ _ _ _ Hanon). fold f.
    rewrite (newField_other_path E f baseIndex st prior Hpkg Hprior Hix).
    change (baseIndex ++ reflect.Index f) with path.
    pose proof (discover_created E f path (Table_removeField prior st))
      as (Hh & Hm & _).
    change (heap (Table_removeField prior st)) with (heap st) in *.
    eexists _, (length (heap st)). split; [reflexivity |].
    split; [rewrite Hm; apply lookup_insert_eq |].
    split; [lia |].
    rewrite Hh. split; [by rewrite deref_alloc, makeField_Index |].
    by apply deref_app.
Qed.

(** The two discoveries of the column id of [Dup] go through different
    paths, and the second one changes the Field registered under id. *)
Lemma rediscovery_other_path_replaces :
  Field.Index (deref (heap dupAfterBase) 0) = [0; 0]
  /\ Table.FieldMap (tbl dupAfterBase) !! "id" = Some 0
  /\ Field.Index (deref (heap dupAfterID) 1) = [1]
  /\ Table.FieldMap (tbl dupAfterID) !! "id" = Some 1
  /\ Table.FieldMap (tbl dupAfterID) !! "id" <> Table.FieldMap (tbl dupAfterBase) !! "id"
  /\ dupAfterID <> dupAfterBase.
Proof.
  split; [vm_compute; reflexivity |].
  split; [vm_compute; reflexivity |].
  split; [vm_compute; reflexivity |].
  split; [vm_compute; reflexivity |].
  split; [vm_compute; discriminate |].
  intros Heq. apply (f_equal (fun s => length (heap s))) in Heq.
  vm_compute in Heq. discriminate.
Qed.

(** ** The order of the access paths *)

Lemma lexlt_irrefl x : ~ lexlt x x.
Proof. induction x as [| a x IH]; simpl; [tauto |]. intros [? | [_ ?]]; [lia | done]. Qed.

Lemma lexlt_app_r x y z : lexlt x y -> lexlt x (y ++ z).
Proof.
  revert y. induction x as [| a x IH]; intros [| b y]; simpl; try done.
  intros [? | [-> ?]]; [by left | right; split; [done | by apply IH]].
Qed.

Lemma lexlt_next x b i r : lexlt x (b ++ i :: r) -> lexlt x (b ++ [S i]).
Proof.
  revert x. induction b as [| c b IH]; intros [| a x]; simpl; try done.
  - intros [? | [-> _]]; left; lia.
  - intros [? | [-> ?]]; [by left | right; split; [done | by apply IH]].
Qed.

Lemma lexlt_snoc_next b i : lexlt (b ++ [i]) (b ++ [S i]).
Proof. induction b as [| c b IH]; simpl; [left; lia | right; done]. Qed.

(** ** The invariant of the scan *)

Lemma scanned_mono st b1 b2 :
  scanned st b1 -> (forall x, lexlt x b1 -> lexlt x b2) -> scanned st b2.
Proof.
  intros [Hm Hn Hd Hp] Hle. split; try done.
  intros k p Hk. destruct (Hm k p Hk). split; [done | by apply Hle].
Qed.

Lemma scanned_same_lists st st' b :
  scanned st b ->
  heap st' = heap st ->
  Table.FieldMap (tbl st') = Table.FieldMap (tbl st) ->
  Table.DataFields (tbl st') = Table.DataFields (tbl st) ->
  Table.PKs (tbl st') = Table.PKs (tbl st) ->
  Table.allFields (tbl st') = Table.allFields (tbl st) ->
  scanned st' b.
Proof.
  intros [Hm Hn Hd Hp] Hh HM HD HP HA.
  split; rewrite ?Hh, ?HM, ?HD, ?HP, ?HA; done.
Qed.

Lemma processBaseModelField_lists E f t :
  let t' := processBaseModelField E f t in
  Table.FieldMap t' = Table.FieldMap t
  /\ Table.DataFields t' = Table.DataFields t
  /\ Table.PKs t' = Table.PKs t
  /\ Table.allFields t' = Table.allFields t
  /\ Table.Fields t' = Table.Fields t
  /\ Table.Typ t' = Table.Typ t.
Proof. unfold processBaseModelField, setName. repeat (case_match; simpl); done. Qed.

Lemma scanned_removeField st b prior :
  scanned st b -> scanned (Table_removeField prior st) b.
Proof.
  intros [Hm Hn Hd Hp]. unfold Table_removeField.
  destruct (Field.IsPK (deref (heap st) prior)); split; simpl.
  - intros k p Hk. apply lookup_delete_Some in Hk as [_ Hk]. by eapply Hm.
  - done.
  - done.
  - intros p Hin. apply removeField_subseteq in Hin. by apply Hp.
  - intros k p Hk. apply lookup_delete_Some in Hk as [_ Hk]. by eapply Hm.
  - by apply removeField_NoDup.
  - intros p Hin. apply removeField_subseteq in Hin. by apply Hd.
  - done.
Qed.

Lemma scanned_created E f index st b b' :
  scanned st b ->
  (forall x, lexlt x b -> lexlt x b') ->
  lexlt index b' ->
  scanned (match createField E f index st with
           | (Some field, st) => addField field st
           | (None, st) => st
           end) b'.
Proof.
  intros [Hm Hn Hd Hp] Hle Hix.
  pose proof (discover_created E f index st) as (Hh & HM & HA & _ & HP & HD).
  set (st1 := match createField E f index st with
              | (Some field, st) => addField field st
              | (None, st) => st
              end) in *.
  assert (Hnew : Field.Index (deref (heap st1) (length (heap st))) = index).
  { by rewrite Hh, deref_alloc, makeField_Index. }
  assert (Hold : forall p, p < length (heap st) ->
                   p < length (heap st1) /\ deref (heap st1) p = deref (heap st) p).
  { intros p Hlt. rewrite Hh, length_app. simpl. split; [lia | by apply deref_app]. }
  assert (Hlen : length (heap st) < length (heap st1)).
  { rewrite Hh, length_app. simpl. lia. }
  split.
  - intros k p. rewrite HM. unfold aliasInsert.
    intros Hk. apply lookup_insert_Some in Hk as [[_ <-] | [_ Hk]].
    { split; [done | by rewrite Hnew]. }
    destruct (Tag.Options (Parse E (reflect.TagBun f)) !! "alias") as [v |].
    + apply lookup_insert_Some in Hk as [[_ <-] | [_ Hk]].
      { split; [done | by rewrite Hnew]. }
      destruct (Hm k p Hk) as [Hv Hlt]. destruct (Hold p Hv) as [? ->]. auto.
    + destruct (Hm k p Hk) as [Hv Hlt]. destruct (Hold p Hv) as [? ->]. auto.
  - rewrite HD.
    destruct (negb (isSkipped E f) && negb (Field.IsPK (makeField E f index)));
      [| by rewrite app_nil_r].
    apply NoDup_app. split; [done |]. split; [| apply NoDup_singleton].
    intros p Hin Hin'. apply list_elem_of_singleton in Hin'. subst p.
    apply Hd in Hin. lia.
  - intros p. rewrite HD. rewrite elem_of_app. intros [Hin | Hin].
    + apply Hd in Hin. lia.
    + destruct (negb (isSkipped E f) && negb (Field.IsPK (makeField E f index)));
        [| by apply elem_of_nil in Hin].
      apply list_elem_of_singleton in Hin. by subst p.
  - intros p. rewrite HP, HA, !elem_of_app. intros [Hin | Hin].
    + destruct (Hp p Hin) as (Hv & Hall & Htag). destruct (Hold p Hv) as [? ->]. auto.
    + destruct (negb (isSkipped E f) && Field.IsPK (makeField E f index)) eqn:Hpk;
        [| by apply elem_of_nil in Hin].
      apply list_elem_of_singleton in Hin. subst p.
      apply andb_true_iff in Hpk as [_ Hpk].
      split; [done |]. split; [right; by apply list_elem_of_singleton |].
      rewrite Hh, deref_alloc, makeField_Tag. by rewrite makeField_IsPK in Hpk.
Qed.

Lemma scanned_plain_step E reg rec base i f0 st st' :
  reflect.Anonymous f0 = false ->
  scanned st (base ++ [i]) ->
  addFieldsStep E reg rec base i f0 st = Some st' ->
  scanned st' (base ++ [S i]).
Proof.
  intros Hanon Hsc. rewrite (addFieldsStep_plain _ _ _ _ _ _ _ Hanon).
  intros [= <-]. set (f := reflect.withIndex f0 [i]).
  assert (Hle : forall x, lexlt x (base ++ [i]) -> lexlt x (base ++ [S i])).
  { intros x. apply lexlt_next. }
  destruct (decide (reflect.PkgPath f = "")) as [Hpkg | Hpkg].
  - destruct (fieldWithLock (tbl st) (columnName E f)) as [prior |] eqn:Hprior.
    + destruct (decide (Field.Index (deref (heap st) prior) = base ++ reflect.Index f))
        as [Hix | Hix].
      * exfalso. destruct (sc_map _ _ Hsc _ _ Hprior) as [_ Hlt].
        rewrite Hix in Hlt. by apply lexlt_irrefl in Hlt.
      * rewrite (newField_other_path E f base st prior Hpkg Hprior Hix).
        apply (scanned_created E f _ _ (base ++ [i])); [| done |].
        -- by apply scanned_removeField.
        -- apply lexlt_snoc_next.
    + rewrite (newField_unregistered E f base st Hpkg Hprior).
      apply (scanned_created E f _ _ (base ++ [i])); [done | done |].
      apply lexlt_snoc_next.
  - unfold newField. apply String.eqb_neq in Hpkg. rewrite Hpkg. simpl.
    by apply (scanned_mono _ (base ++ [i])).
Qed.


Lemma scanned_step E reg rec base i f0 st st' :
  scanning rec ->
  scanned st (base ++ [i]) ->
  addFieldsStep E reg rec base i f0 st = Some st' ->
  scanned st' (base ++ [S i]).
Proof.
  intros Hrec Hsc. destruct (reflect.Anonymous f0) eqn:Hanon;
    [| by apply scanned_plain_step].
  assert (Hle : forall x, lexlt x (base ++ [i]) -> lexlt x (base ++ [S i])).
  { intros x. apply lexlt_next. }
  unfold addFieldsStep. simpl. rewrite Hanon.
  destruct (String.eqb (reflect.TagBun f0) "-").
  { intros [= <-]. by apply (scanned_mono _ (base ++ [i])). }
  destruct (String.eqb (reflect.Name f0) "BaseModel").
  { intros [= <-]. apply (scanned_mono _ (base ++ [i])); [| done].
    destruct (length base =? 0)%nat; [| done].
    pose proof (processBaseModelField_lists E (reflect.withIndex f0 [i]) (tbl st))
      as (? & ? & ? & ? & _).
    by apply (scanned_same_lists st). }
  destruct (negb _).
  { intros [= <-]. by apply (scanned_mono _ (base ++ [i])). }
  destruct (rec _ _ st) as [st1 |] eqn:Hr; [| done].
  apply Hrec in Hr as [n Hn].
  2:{ apply (scanned_mono _ (base ++ [i])); [done |]. intros x. apply lexlt_app_r. }
  assert (Hsc1 : scanned st1 (base ++ [S i])).
  { apply (scanned_mono _ ((base ++ [i]) ++ [n])); [done |].
    intros x. rewrite <- app_assoc. apply lexlt_next. }
  destruct (Tag.HasOption _ "inherit"); intros [= <-]; [| done].
  by apply (scanned_same_lists st1).
Qed.

Lemma scanned_loop E reg rec base fs i st st' :
  scanning rec ->
  scanned st (base ++ [i]) ->
  addFieldsLoop E reg rec base i fs st = Some st' ->
  scanned st' (base ++ [i + length fs]).
Proof.
  intros Hrec. revert i st. induction fs as [| f fs IH]; intros i st Hsc; simpl.
  - intros [= <-]. by rewrite Nat.add_0_r.
  - destruct (addFieldsStep E reg rec base i f st) as [st1 |] eqn:Hstep; [| done].
    intros Hloop. apply (scanned_step _ _ _ _ _ _ _ _ Hrec Hsc) in Hstep.
    apply (IH _ _ Hstep) in Hloop. by rewrite <- Nat.add_succ_comm.
Qed.

Lemma addFields_scanning E reg fuel : scanning (addFields E reg fuel).
Proof.
  induction fuel as [| fuel IH]; intros typ base st st' Hsc; simpl; [done |].
  intros Hloop. apply (scanned_loop _ _ _ _ _ _ _ _ IH Hsc) in Hloop. eauto.
Qed.

(** ** The primary-key fallback of initFields *)

Lemma deref_store_eq h p x : p < length h -> deref (store h p x) p = x.
Proof.
  intros Hp. unfold deref, store. rewrite nth_lookup.
  by rewrite list_lookup_insert_eq.
Qed.

Lemma deref_store_ne h p q x : q <> p -> deref (store h p x) q = deref h q.
Proof.
  intros Hne. unfold deref, store. rewrite !nth_lookup.
  by rewrite list_lookup_insert_ne.
Qed.

Lemma deref_store_twice h p x y : store (store h p x) p y = store h p y.
Proof. unfold store. apply list_insert_insert_eq. Qed.

(** newTable starts from empty lists; the hook flags do not touch them. *)
Lemma hook_fold_lists (E : Env) (typ : rtype) (l : list (Hook * Z)) (t0 : Table.t) :
  let t := foldl (fun t (hook : Hook * Z) =>
                    if Implements E typ hook.1
                    then Table.set_flags (Flag.Set_ (Table.flags t) hook.2) t
                    else t) t0 l in
  Table.Typ t = Table.Typ t0
  /\ Table.Fields t = Table.Fields t0
  /\ Table.PKs t = Table.PKs t0
  /\ Table.DataFields t = Table.DataFields t0
  /\ Table.FieldMap t = Table.FieldMap t0
  /\ Table.allFields t = Table.allFields t0
  /\ Table.skippedFields t = Table.skippedFields t0
  /\ Table.Relations t = Table.Relations t0.
Proof.
  revert t0. induction l as [| hk l IH]; intros t0; cbn [foldl]; [done |].
  cbv zeta in IH.
  destruct (Implements E typ hk.1);
    [destruct (IH (Table.set_flags (Flag.Set_ (Table.flags t0) hk.2) t0))
       as (-> & -> & -> & -> & -> & -> & -> & ->)
    | destruct (IH t0) as (-> & -> & -> & -> & -> & -> & -> & ->)]; done.
Qed.

Lemma newTable_fresh (E : Env) (typ : rtype) :
  Table.Typ (newTable E typ) = typ
  /\ Table.Fields (newTable E typ) = []
  /\ Table.PKs (newTable E typ) = []
  /\ Table.DataFields (newTable E typ) = []
  /\ Table.FieldMap (newTable E typ) = ∅
  /\ Table.allFields (newTable E typ) = []
  /\ Table.skippedFields (newTable E typ) = []
  /\ Table.Relations (newTable E typ) = ∅.
Proof. unfold newTable. cbv zeta. apply hook_fold_lists. Qed.

Lemma reset_fresh (t : Table.t) :
  Table.Fields t = [] -> Table.FieldMap t = ∅ ->
  Table.set_FieldMap ∅ (Table.set_Fields [] t) = t.
Proof. destruct t. simpl. by intros -> ->. Qed.

Lemma scanned_fresh (E : Env) (typ : rtype) (h0 : Heap) :
  scanned (mkState h0 (newTable E typ)) ([] ++ [0]).
Proof.
  destruct (newTable_fresh E typ) as (_ & _ & HP & HD & HM & _).
  split; simpl; rewrite ?HP, ?HD, ?HM.
  - intros k p Hk. by rewrite lookup_empty in Hk.
  - constructor.
  - intros p Hin. by apply elem_of_nil in Hin.
  - intros p Hin. by apply elem_of_nil in Hin.
Qed.

Lemma pkFallback_conventional (st : State) (f : ptr) :
  conventionalKey (tbl st) = Some f ->
  pkFallback ["id"; "uuid"; "pk_" +:+ Table.ModelName (tbl st)] st
  = mkState (store (heap st) f (markAsPK (deref (heap st) f)))
      (Table.set_DataFields (removeField (Table.DataFields (tbl st)) f)
         (Table.set_PKs [f] (tbl st))).
Proof.
  unfold conventionalKey. simpl.
  destruct (Table.FieldMap (tbl st) !! "id") as [p |]; [by intros [= ->] |].
  destruct (Table.FieldMap (tbl st) !! "uuid") as [p |]; [by intros [= ->] |].
  by intros ->.
Qed.

(** C3.  When the scan of a record type finds no field tagged pk and the
    field map has a field under id, uuid or pk_ + model name, the first
    of these (in that order) becomes the only primary key: PKs is that
    one field, it is cut out of DataFields and no longer occurs there,
    and the Field object is marked primary key and auto-increment. *)
Theorem primary_key_fallback (E : Env) (reg : Tables) (fuel : nat)
    (typ : rtype) (h0 : Heap) (st1 : State) (f : ptr) :
  let st0 := mkState h0 (newTable E typ) in
  addFields E reg fuel typ [] st0 = Some st1 ->
  (forall p, p ∈ Table.allFields (tbl st1) ->
             Tag.HasOption (Field.Tag (deref (heap st1) p)) "pk" = false) ->
  conventionalKey (tbl st1) = Some f ->
  exists st',
    initFields E reg fuel st0 = Some st'
    /\ Table.PKs (tbl st') = [f]
    /\ Table.DataFields (tbl st') = removeField (Table.DataFields (tbl st1)) f
    /\ (f ∉ Table.DataFields (tbl st'))
    /\ Field.IsPK (deref (heap st') f) = true
    /\ Field.AutoIncrement (deref (heap st') f) = true
    /\ Table.FieldMap (tbl st') = Table.FieldMap (tbl st1)
    /\ Table.Fields (tbl st') = Table.Fields (tbl st1)
    /\ forall p, p <> f -> deref (heap st') p = deref (heap st1) p.
Proof.
  intros st0 Hscan Hnopk Hkey.
  destruct (newTable_fresh E typ) as (Htyp & HF & _ & _ & HM & _).
  pose proof (addFields_scanning E reg fuel typ [] st0 st1
                (scanned_fresh E typ h0) Hscan) as [n Hsc].
  assert (Hpks : Table.PKs (tbl st1) = []).
  { destruct (Table.PKs (tbl st1)) as [| p l] eqn:Hp; [done |].
    destruct (sc_pks _ _ Hsc p) as (_ & Hall & Htag); [rewrite Hp; left |].
    rewrite (Hnopk p Hall) in Htag. done. }
  assert (Hvalid : f < length (heap st1)).
  { unfold conventionalKey in Hkey.
    destruct (Table.FieldMap (tbl st1) !! "id") as [p |] eqn:H1.
    { injection Hkey as ->. by destruct (sc_map _ _ Hsc _ _ H1). }
    destruct (Table.FieldMap (tbl st1) !! "uuid") as [p |] eqn:H2.
    { injection Hkey as ->. by destruct (sc_map _ _ Hsc _ _ H2). }
    by destruct (sc_map _ _ Hsc _ _ Hkey). }
  assert (Hreset : onTable (fun t => Table.set_FieldMap ∅ (Table.set_Fields [] t)) st0
                   = st0).
  { unfold onTable, st0. simpl. by rewrite reset_fresh. }
  unfold initFields. rewrite Hreset.
  change (Table.Typ (tbl st0)) with (Table.Typ (newTable E typ)).
  rewrite Htyp, Hscan, Hpks.
  change (0 <? length (@nil ptr))%nat with false. cbv iota zeta.
  rewrite (pkFallback_conventional st1 f Hkey). simpl.
  eexists. split; [reflexivity |]. simpl.
  split; [done |]. split; [done |].
  split; [by apply removeField_NoDup, (sc_data_nodup _ _ Hsc) |].
  rewrite deref_store_twice.
  rewrite !deref_store_eq by done.
  split; [done |]. split; [done |].
  split; [done |]. split; [done |].
  intros p Hne. by apply deref_store_ne.
Qed.

(** ** Termination of inlineFields *)

Lemma unvisited_mono (U path path' : gset rtype) :
  path ⊆ path' -> unvisited U path' <= unvisited U path.
Proof. intros Hsub. unfold unvisited. apply subseteq_size. set_solver. Qed.

Lemma unvisited_visit (U path : gset rtype) (x : rtype) :
  x ∈ U -> x ∉ path -> S (unvisited U ({[x]} ∪ path)) = unvisited U path.
Proof.
  intros HU Hp. unfold unvisited.
  assert (U ∖ path = {[x]} ∪ U ∖ ({[x]} ∪ path)) as ->.
  { apply set_eq. intros y. destruct (decide (y = x)); set_solver. }
  rewrite (size_union {[x]} (U ∖ ({[x]} ∪ path))) by set_solver.
  by rewrite size_singleton.
Qed.

Lemma unvisited_le (U path : gset rtype) : unvisited U path <= size U.
Proof. unfold unvisited. apply subseteq_size. set_solver. Qed.



Lemma inlineLoop_terminates E reg h0 T0 U M rec n strct fs :
  inlinesWithin E reg h0 T0 U M rec n ->
  (forall p, p ∈ fs ->
     p < length h0
     /\ (reflect.kind (Field.Typ (deref h0 p)) = reflect.Struct ->
         Field.Typ (deref h0 p) ∈ U)) ->
  forall path st,
    inlining h0 T0 st -> T0 ∈ path ->
    unvisited U path < n ->
    exists path' st',
      inlineLoop E rec strct fs (path, st) = Done (path', st')
      /\ path ⊆ path'
      /\ inlining h0 T0 st'
      /\ (exists ext, heap st' = heap st ++ ext)
      /\ length (heap st') + M * unvisited U path'
         <= length (heap st) + M * unvisited U path + length fs.
Proof.
  intros Hrec. induction fs as [| f0 fs IH]; intros Hfs path st Hinv HT0 Hmu.
  - exists path, st. simpl. split; [done |]. split; [done |]. split; [done |].
    split; [exists []; by rewrite app_nil_r | lia].
  - assert (Hfs' : forall p, p ∈ fs ->
              p < length h0
              /\ (reflect.kind (Field.Typ (deref h0 p)) = reflect.Struct ->
                  Field.Typ (deref h0 p) ∈ U)).
    { intros p Hp. apply Hfs. by right. }
    destruct (Hfs f0) as [Hvalid Hclosed]; [by left |].
    destruct Hinv as [Htyp [ext Hext]].
    cbn [inlineLoop]. unfold alloc.
    set (s := deref (heap st) strct).
    set (f := deref (heap st) f0).
    assert (Hf : f = deref h0 f0).
    { unfold f. rewrite Hext. by apply deref_app. }
    set (clone := Field.rename _ _ _ _ f).
    set (t1 := match Table.FieldMap (tbl st) !! Field.Name clone with
               | Some _ => tbl st
               | None => Table.set_FieldMap
                           (<[Field.Name clone := length (heap st)]> (Table.FieldMap (tbl st)))
                           (tbl st)
               end).
    set (st1 := mkState (heap st ++ [clone]) t1).
    assert (Hinv1 : inlining h0 T0 st1).
    { split.
      - unfold st1, t1. cbn [tbl].
        by destruct (Table.FieldMap (tbl st) !! Field.Name clone).
      - exists (ext ++ [clone]). unfold st1. simpl. by rewrite Hext, app_assoc. }
    assert (Hlen1 : length (heap st1) = S (length (heap st))).
    { unfold st1. simpl. rewrite length_app. simpl. lia. }
    change (Field.Typ clone) with (Field.Typ f).
    destruct (negb (bool_decide (reflect.kind (Field.Typ f) = reflect.Struct))) eqn:Hk.
    { destruct (IH Hfs' path st1 Hinv1 HT0 Hmu)
        as (path' & st' & Hrun & Hsub & Hinv' & [ext' Hext'] & Hcount).
      exists path', st'. split; [exact Hrun |]. split; [done |]. split; [done |].
      split; [exists ([clone] ++ ext'); rewrite Hext'; unfold st1; simpl;
              by rewrite <- app_assoc |].
      simpl. lia. }
    destruct (decide (Field.Typ f ∈ path)) as [Hin | Hnotin].
    { destruct (IH Hfs' path st1 Hinv1 HT0 Hmu)
        as (path' & st' & Hrun & Hsub & Hinv' & [ext' Hext'] & Hcount).
      exists path', st'. split; [exact Hrun |]. split; [done |]. split; [done |].
      split; [exists ([clone] ++ ext'); rewrite Hext'; unfold st1; simpl;
              by rewrite <- app_assoc |].
      simpl. lia. }
    apply negb_false_iff, bool_decide_eq_true in Hk.
    assert (HU : Field.Typ f ∈ U). { rewrite Hf. apply Hclosed. by rewrite <- Hf. }
    destruct (Hrec (length (heap st)) path st1 Hinv1 HT0 Hmu)
      as (path2 & st2 & Hrun2 & Hsub2 & Hinv2 & [ext2 Hext2] & Hcount2).
    { unfold st1. simpl. rewrite deref_alloc. set_solver. }
    rewrite Hrun2. cbn [mbind outcome_bind bind].
    destruct (IH Hfs' path2 st2 Hinv2) as (path' & st' & Hrun & Hsub & Hinv' & [ext' Hext'] & Hcount).
    { set_solver. }
    { pose proof (unvisited_mono U _ _ Hsub2). lia. }
    exists path', st'. split; [exact Hrun |]. split; [set_solver |]. split; [done |].
    split; [exists ([clone] ++ ext2 ++ ext'); rewrite Hext', Hext2; unfold st1; simpl;
            by rewrite <- !app_assoc |].
    simpl. lia.
Qed.

Lemma Tables_Ref_other reg cur typ : typ <> Table.Typ cur -> Tables_Ref reg cur typ = Ref reg typ.
Proof. intros Hne. unfold Tables_Ref. by destruct (decide (typ = Table.Typ cur)). Qed.

Lemma inlineFields_within E reg h0 T0 U M n :
  finiteProgram reg h0 U M ->
  inlinesWithin E reg h0 T0 U M (inlineFields E reg n) n.
Proof.
  intros [Hclosed Hbound]. induction n as [| n IH];
    intros strct path st Hinv HT0 Hmu Hty; [lia |].
  cbn [inlineFields].
  set (styp := Field.Typ (deref (heap st) strct)) in *.
  destruct (decide (styp ∈ path)) as [Hin | Hnotin].
  - exists path, st. split; [done |]. split; [done |]. split; [done |].
    split; [exists []; by rewrite app_nil_r | lia].
  - assert (HU : styp ∈ U) by set_solver.
    pose proof (unvisited_visit U path styp HU Hnotin) as Hvisit.
    assert (Hne : styp <> Table.Typ (tbl st)).
    { destruct Hinv as [-> _]. intros ->. done. }
    rewrite (Tables_Ref_other _ _ _ Hne).
    destruct (inlineLoop_terminates E reg h0 T0 U M (inlineFields E reg n) n strct
                (Table.allFields (Ref reg styp)) IH (Hclosed styp)
                ({[styp]} ∪ path) st Hinv)
      as (path' & st' & Hrun & Hsub & Hinv' & Hext & Hcount).
    { set_solver. }
    { lia. }
    exists path', st'. split; [exact Hrun |]. split; [set_solver |]. split; [done |].
    split; [done |]. pose proof (Hbound styp). nia.
Qed.

(** C8.  In a program with finitely many struct types (all in [U]) whose
    tables have at most [M] fields, inlineFields started from the nil
    path completes on every field, whatever cycles the types form: the
    visited set starts as the type of the owning table, a visited type is
    not expanded again, and a fuel above [size U + 1] is never used up.
    The traversal only adds clones to the store, at most [M] for the
    type of the field and [M] for every type of [U]. *)
Theorem inlineFields_terminates (E : Env) (reg : Tables) (U : gset rtype)
    (M : nat) (h : Heap) (t : Table.t) (strct : ptr) (fuel : nat) :
  finiteProgram reg h U M ->
  S (size U) < fuel ->
  exists path' st',
    inlineFields E reg fuel strct None (mkState h t) = Done (path', st')
    /\ Table.Typ t ∈ path'
    /\ Table.Typ (tbl st') = Table.Typ t
    /\ (exists clones,
          heap st' = h ++ clones
          /\ length clones <= M * S (size U)).
Proof.
  intros Hfin Hfuel. destruct fuel as [| n]; [lia |].
  set (st := mkState h t).
  cbn [inlineFields].
  set (T0 := Table.Typ (tbl st)).
  set (styp := Field.Typ (deref (heap st) strct)).
  assert (Hinv : inlining (heap st) T0 st).
  { split; [done |]. exists []. by rewrite app_nil_r. }
  destruct (decide (styp ∈ {[T0]})) as [Hin | Hnotin].
  - exists {[T0]}, st. split; [done |]. split; [set_solver |]. split; [done |].
    exists []. rewrite app_nil_r. split; [done |]. simpl. lia.
  - assert (Hne : styp <> Table.Typ (tbl st)) by set_solver.
    rewrite (Tables_Ref_other _ _ _ Hne).
    pose proof Hfin as [Hclosed Hbound].
    destruct (inlineLoop_terminates E reg (heap st) T0 U M (inlineFields E reg n) n strct
                (Table.allFields (Ref reg styp))
                (inlineFields_within E reg (heap st) T0 U M n Hfin)
                (Hclosed styp) ({[styp]} ∪ {[T0]}) st Hinv)
      as (path' & st' & Hrun & Hsub & [Htyp' _] & [ext Hext] & Hcount).
    { set_solver. }
    { pose proof (unvisited_le U ({[styp]} ∪ {[T0]})). lia. }
    exists path', st'. split; [exact Hrun |]. split; [set_solver |]. split; [done |].
    exists ext. split; [done |].
    rewrite Hext, length_app in Hcount.
    pose proof (Hbound styp). pose proof (unvisited_le U ({[styp]} ∪ {[T0]})). nia.
Qed.

(** ** The soft-delete closures *)

Lemma makeField_Typ E f index :
  Field.Typ (makeField E f index) = indirectType (reflect.Typ f).
Proof. unfold makeField. repeat (case_match; simpl); reflexivity. Qed.

(** Run at the type it is written for, each of the four closures for
    value types stores the reading of the clock, and the field is no
    longer zero when that reading is neither the zero time nor the
    epoch. *)
Lemma soft_delete_value_fields (E : Env) (scan : Value -> Z -> outcome Value)
    (name tag : string) (index : list nat) (now : Z) (typ : rtype) :
  typ ∈ [timeType; nullTimeType; nullIntType; int64Type] ->
  now <> zeroInstant -> now <> 0%Z ->
  let field := makeField E (reflect.mkStructField name "" typ tag [] false) index in
  exists v, runUpdater scan (softDeleteFieldUpdater field) now (zeroValue typ) = Done v
            /\ typeOf v = typ
            /\ isZero v = false.
Proof.
  intros Htyp Hz He field.
  assert (Hft : Field.Typ field = typ).
  { unfold field. rewrite makeField_Typ. simpl.
    repeat (apply elem_of_cons in Htyp as [-> | Htyp]; [done |]).
    by apply elem_of_nil in Htyp. }
  unfold softDeleteFieldUpdater. rewrite Hft.
  apply Z.eqb_neq in Hz, He.
  repeat (apply elem_of_cons in Htyp as [-> | Htyp];
          [eexists; split; [reflexivity |]; simpl; by rewrite ?Hz, ?He |]).
  by apply elem_of_nil in Htyp.
Qed.

(** C9 fails on pointer fields.  newField stores the dereferenced type
    of the struct field in Field.Type, and softDeleteFieldUpdater
    switches on Field.Type: for a field declared as pointer to time.Time
    it returns the closure for time.Time, and for a pointer to int64 the
    closure for int64.  Invoked on the (nil) pointer value of the field,
    either closure panics in its type assertion, whatever the clock
    reads, and the field is not set. *)
Theorem soft_delete_pointer_field_panics (E : Env)
    (scan : Value -> Z -> outcome Value)
    (name tag : string) (index : list nat) (now : Z) :
  let timePtr := makeField E (reflect.mkStructField name "" (reflect.PtrTo timeType)
                                tag [] false) index in
  let intPtr := makeField E (reflect.mkStructField name "" (reflect.PtrTo int64Type)
                               tag [] false) index in
  softDeleteFieldUpdater timePtr = SetTime
  /\ softDeleteFieldUpdater intPtr = SetInt64
  /\ (exists msg,
        runUpdater scan (softDeleteFieldUpdater timePtr) now
          (zeroValue (reflect.PtrTo timeType)) = Panic msg)
  /\ (exists msg,
        runUpdater scan (softDeleteFieldUpdater intPtr) now
          (zeroValue (reflect.PtrTo int64Type)) = Panic msg).
Proof.
  intros timePtr intPtr.
  assert (Ht : softDeleteFieldUpdater timePtr = SetTime).
  { unfold softDeleteFieldUpdater, timePtr. by rewrite makeField_Typ. }
  assert (Hi : softDeleteFieldUpdater intPtr = SetInt64).
  { unfold softDeleteFieldUpdater, intPtr. by rewrite makeField_Typ. }
  rewrite Ht, Hi. split; [done |]. split; [done |].
  split; eexists; reflexivity.
Qed.

(** The same on the table of Doc, whose field DeletedAt is a pointer to
    time.Time tagged soft_delete. *)
Lemma doc_soft_delete_panics :
  exists p,
    Table.SoftDeleteField (tbl docState) = Some p
    /\ Field.GoName (deref (heap docState) p) = "DeletedAt"
    /\ reflect.Typ (Field.StructField (deref (heap docState) p)) = reflect.PtrTo timeType
    /\ Table.UpdateSoftDeleteField (tbl docState) = Some SetTime
    /\ forall scan now,
         runUpdater scan SetTime now (zeroValue (reflect.PtrTo timeType))
         = Panic "interface conversion: interface {} is not *time.Time".
Proof.
  eexists.
  split; [vm_compute; reflexivity |].
  split; [vm_compute; reflexivity |].
  split; [vm_compute; reflexivity |].
  split; [vm_compute; reflexivity |].
  intros scan now. reflexivity.
Qed.

(** ** The library scenario: Book belongs to Author *)

(** C1, as stated, fails: the relation of Book on its field Author has
    kind belongs-to and its JoinFields is the field ID of Author, but its
    BaseFields is not the AuthorID field of Book. *)
Lemma book_author_base_is_not_author_id :
  exists st rel authorID authorPK,
    construct (structT "Book") = Done st
    /\ Table.Relations (tbl st) !! "Author" = Some rel
    /\ Table.FieldMap (tbl st) !! "author_id" = Some authorID
    /\ Field.GoName (deref (heap st) authorID) = "AuthorID"
    /\ Table.FieldMap authorT !! "id" = Some authorPK
    /\ Relation.Typ rel = BelongsToRelation
    /\ Relation.JoinFields rel = [authorPK]
    /\ Relation.BaseFields rel <> [authorID].
Proof.
  eexists _, _, _, _.
  split; [vm_compute; reflexivity |].
  split; [vm_compute; reflexivity |].
  split; [vm_compute; reflexivity |].
  split; [vm_compute; reflexivity |].
  split; [vm_compute; reflexivity |].
  split; [vm_compute; reflexivity |].
  split; [vm_compute; reflexivity |].
  vm_compute. discriminate.
Qed.

(** C1 (amended).  Constructing the table of Book resolves the relation
    on field Author to a relation of kind belongs-to whose BaseFields is
    the primary key ID of Book and whose JoinFields is the field ID of
    Author, found under the bare name id because Author has no column
    book_id. *)
Theorem book_belongs_to_author :
  exists st rel bookPK authorPK,
    construct (structT "Book") = Done st
    /\ Table.Relations (tbl st) !! "Author" = Some rel
    /\ Table.PKs (tbl st) = [bookPK]
    /\ Field.GoName (deref (heap st) bookPK) = "ID"
    /\ Table.FieldMap authorT !! "id" = Some authorPK
    /\ Table.FieldMap authorT !! "book_id" = None
    /\ Field.GoName (deref (heap st) authorPK) = "ID"
    /\ Relation.Typ rel = BelongsToRelation
    /\ Relation.JoinTable rel = structT "Author"
    /\ Relation.BaseFields rel = [bookPK]
    /\ Relation.JoinFields rel = [authorPK].
Proof.
  eexists _, _, _, _.
  split; [vm_compute; reflexivity |].
  split; [vm_compute; reflexivity |].
  split; [vm_compute; reflexivity |].
  split; [vm_compute; reflexivity |].
  split; [vm_compute; reflexivity |].
  split; [vm_compute; reflexivity |].
  split; [vm_compute; reflexivity |].
  split; [vm_compute; reflexivity |].
  split; [vm_compute; reflexivity |].
  split; vm_compute; reflexivity.
Qed.

(** ** Relations whose two sides are not equally long, or are empty *)

(** C4, as stated, fails: the many-to-many relation of Post (two primary
    keys) to Tag (one) has two base fields and one join field, and the
    polymorphic has-many relation of Owner whose join names only the type
    column has no base and no join field. *)
Lemma relation_sides_differ_or_empty :
  (exists rel, m2mRelation demoEnv demoTables demoHeap postT postT 8 = Done rel
               /\ length (Relation.BaseFields rel) = 2
               /\ length (Relation.JoinFields rel) = 1
               /\ length (Relation.BaseFields rel) <> length (Relation.JoinFields rel))
  /\ (exists rel, hasManyRelation demoEnv demoTables demoHeap ownerT ownerT 17 = Done rel
                  /\ length (Relation.BaseFields rel) = 0
                  /\ length (Relation.JoinFields rel) = 0
                  /\ ~ 0 < length (Relation.BaseFields rel)).
Proof.
  split; eexists.
  - split; [vm_compute; reflexivity |]. split; [vm_compute; reflexivity |].
    split; [vm_compute; reflexivity |]. vm_compute. discriminate.
  - split; [vm_compute; reflexivity |]. split; [vm_compute; reflexivity |].
    split; [vm_compute; reflexivity |]. vm_compute. lia.
Qed.

(** ** The theorems at the tables of the example program *)

Lemma convention_resolution_witness :
  Tag.Options (Field.Tag (deref demoHeap 4)) !! "join" = None
  /\ exists rel,
       belongsToRelation demoEnv demoTables demoHeap bookT bookT 4 = Done rel
       /\ Relation.BaseFields rel = Table.PKs bookT
       /\ Relation.JoinFields rel = [0].
Proof.
  assert (Hjoin : Tag.Options (Field.Tag (deref demoHeap 4)) !! "join" = None)
    by (vm_compute; reflexivity).
  split; [exact Hjoin |].
  destruct (convention_resolution demoEnv demoTables demoHeap bookT bookT 4 Hjoin)
    as (_ & Hb & _).
  cbv zeta in Hb.
  assert (Hpk : Table.PKs bookT <> []) by (vm_compute; discriminate).
  specialize (Hb Hpk).
  assert (Hm : mapM (fun pk => conventionColumn
                        (Tables_Ref demoTables bookT (Field.Typ (deref demoHeap 4)))
                        (Underscore demoEnv (Table.ModelName bookT) +:+ "_")
                        (Field.Name (deref demoHeap pk)))
                 (Table.PKs bookT) = Some [0]) by (vm_compute; reflexivity).
  rewrite Hm in Hb. destruct Hb as (rel & H1 & _ & H3 & H4).
  exists rel. split; [exact H1 |]. split; [exact H3 | exact H4].
Defined.

Lemma primary_key_fallback_witness :
  exists st',
    initFields demoEnv noTables 8 (mkState [] (newTable demoEnv (structT "Base"))) = Some st'
    /\ Table.PKs (tbl st') = [0]
    /\ Field.Name (deref (heap st') 0) = "id"
    /\ Field.IsPK (deref (heap st') 0) = true
    /\ Field.AutoIncrement (deref (heap st') 0) = true.
Proof.
  destruct (addFields demoEnv noTables 8 (structT "Base") []
              (mkState [] (newTable demoEnv (structT "Base")))) as [st1 |] eqn:Hscan;
    [| vm_compute in Hscan; discriminate].
  assert (Hst1 : Table.allFields (tbl st1) = [0]
                 /\ Tag.HasOption (Field.Tag (deref (heap st1) 0)) "pk" = false
                 /\ conventionalKey (tbl st1) = Some 0
                 /\ Field.Name (deref (heap st1) 0) = "id").
  { vm_compute in Hscan. injection Hscan as <-.
    split; [reflexivity |]. split; [reflexivity |]. split; reflexivity. }
  destruct Hst1 as (Hall & Hnopk & Hkey & Hname).
  destruct (primary_key_fallback demoEnv noTables 8 (structT "Base") [] st1 0 Hscan)
    as (st' & Hinit & Hpks & _ & _ & Hpk & Hauto & _ & _ & _).
  { intros p Hp. rewrite Hall in Hp. apply list_elem_of_singleton in Hp. by subst p. }
  { exact Hkey. }
  exists st'. split; [exact Hinit |]. split; [exact Hpks |].
  split; [| split; [exact Hpk | exact Hauto]].
  vm_compute in Hinit. injection Hinit as <-. reflexivity.
Defined.

Lemma relation_fields_lengths_witness :
  exists rel,
    belongsToRelation demoEnv demoTables demoHeap bookT bookT 4 = Done rel
    /\ length (Relation.BaseFields rel) = length (Relation.JoinFields rel)
    /\ 0 < length (Relation.BaseFields rel).
Proof.
  destruct (belongsToRelation demoEnv demoTables demoHeap bookT bookT 4)
    as [rel | |] eqn:Hrel; [| vm_compute in Hrel; discriminate ..].
  exists rel. split; [reflexivity |].
  destruct (relation_fields_lengths demoEnv demoTables demoHeap bookT bookT 4 rel)
    as (Hone & _ & _).
  apply Hone. right. exact Hrel.
Defined.

Lemma m2m_sides_from_has_one_witness :
  exists rel,
    m2mRelation demoEnv demoTables demoHeap postT postT 8 = Done rel
    /\ length (Relation.BaseFields rel) = length (Relation.M2MBaseFields rel)
    /\ length (Relation.JoinFields rel) = length (Relation.M2MJoinFields rel)
    /\ 0 < length (Relation.M2MBaseFields rel)
    /\ 0 < length (Relation.M2MJoinFields rel).
Proof.
  destruct (m2mRelation demoEnv demoTables demoHeap postT postT 8)
    as [rel | |] eqn:Hrel; [| vm_compute in Hrel; discriminate ..].
  exists rel. split; [reflexivity |].
  destruct (m2m_sides_from_has_one demoEnv demoTables demoHeap postT postT 8 rel Hrel)
    as (H1 & H2 & _ & H4 & _ & H6 & _).
  split; [exact H1 |]. split; [exact H2 |]. split; [exact H4 | exact H6].
Defined.

Lemma rediscovery_identity_witness :
  Table.FieldMap (tbl dupAfterBase) !! "id" = Some 0
  /\ Field.Index (deref (heap dupAfterBase) 0) <> [] ++ [1]
  /\ exists st' new,
       addFieldsStep demoEnv noTables (addFields demoEnv noTables 7) [] 1
         (fld "ID" goInt "") dupAfterBase = Some st'
       /\ Table.FieldMap (tbl st') !! "id" = Some new
       /\ new <> 0.
Proof.
  assert (Hreg : Table.FieldMap (tbl dupAfterBase)
                 !! columnName demoEnv (reflect.withIndex (fld "ID" goInt "") [1]) = Some 0)
    by (vm_compute; reflexivity).
  assert (Hpath : Field.Index (deref (heap dupAfterBase) 0) <> [] ++ [1])
    by (vm_compute; discriminate).
  assert (Hvalid : 0 < length (heap dupAfterBase)) by (vm_compute; lia).
  split; [exact Hreg |]. split; [exact Hpath |].
  destruct (rediscovery_identity demoEnv noTables (addFields demoEnv noTables 7) [] 1
              (fld "ID" goInt "") dupAfterBase 0 eq_refl eq_refl Hreg Hvalid)
    as [_ Hother].
  destruct (Hother Hpath) as (st' & new & Hstep & Hmap & Hne & _).
  exists st', new. split; [exact Hstep |]. split; [exact Hmap | exact Hne].
Defined.

Lemma newField_registered_column_witness :
  fieldWithLock (tbl dupAfterBase) "id" = Some 0
  /\ exists st',
       addFieldsStep demoEnv noTables (addFields demoEnv noTables 7) [] 1
         (fld "ID" goInt "") dupAfterBase = Some st'
       /\ Table.Fields (tbl st')
          = removeField (Table.Fields (tbl dupAfterBase)) 0 ++ [length (heap dupAfterBase)]
       /\ 0 ∉ Table.Fields (tbl st').
Proof.
  assert (Hreg : fieldWithLock (tbl dupAfterBase)
                   (columnName demoEnv (reflect.withIndex (fld "ID" goInt "") [1])) = Some 0)
    by (vm_compute; reflexivity).
  assert (Hpath : Field.Index (deref (heap dupAfterBase) 0) <> [] ++ [1])
    by (vm_compute; discriminate).
  split; [exact Hreg |].
  destruct (newField_registered_column demoEnv noTables (addFields demoEnv noTables 7)
              [] 1 (fld "ID" goInt "") dupAfterBase 0 eq_refl eq_refl Hreg)
    as [_ Hother].
  destruct (Hother Hpath) as (st' & Hstep & _ & _ & _ & HF & _ & Hgone).
  exists st'. split; [exact Hstep |]. split; [exact HF |].
  apply Hgone.
  - vm_compute. lia.
  - assert (Hfs : Table.Fields (tbl dupAfterBase) = [0]) by (vm_compute; reflexivity).
    rewrite Hfs. apply NoDup_singleton.
Defined.

Lemma demo_tables_checked :
  Forall (fun t =>
            Forall (fun p =>
                      p < length demoHeap
                      /\ (reflect.kind (Field.Typ (deref demoHeap p)) = reflect.Struct ->
                          Field.Typ (deref demoHeap p) ∈ demoTypes))
                   (Table.allFields t)
            /\ length (Table.allFields t) <= 5)
         demoWorld.2.
Proof. apply (bool_decide_unpack _). vm_compute. exact I. Qed.

Lemma demo_finite : finiteProgram demoTables demoHeap demoTypes 5.
Proof.
  assert (Hall : forall s,
             Forall (fun p =>
                       p < length demoHeap
                       /\ (reflect.kind (Field.Typ (deref demoHeap p)) = reflect.Struct ->
                           Field.Typ (deref demoHeap p) ∈ demoTypes))
                    (Table.allFields (Ref demoTables s))
             /\ length (Table.allFields (Ref demoTables s)) <= 5).
  { intros s. change (Ref demoTables s) with (demoRef s). unfold demoRef.
    destruct (List.find _ demoWorld.2) as [t |] eqn:Hfind; cbn [default from_option id].
    - apply find_some in Hfind as [Hin _]. apply list_elem_of_In in Hin.
      pose proof demo_tables_checked as Hchk.
      rewrite Forall_forall in Hchk. by apply Hchk.
    - destruct (newTable_fresh demoEnv s) as (_ & _ & _ & _ & _ & -> & _).
      split; [constructor | cbn [length]; lia]. }
  split.
  - intros s p Hp. destruct (Hall s) as [Hf _].
    rewrite Forall_forall in Hf. by apply Hf.
  - intros s. by destruct (Hall s).
Qed.

Lemma inlineFields_terminates_witness :
  finiteProgram demoTables demoHeap demoTypes 5
  /\ S (size demoTypes) < 20
  /\ exists path' st',
       inlineFields demoEnv demoTables 20 23 None
         (mkState demoHeap (demoRef (structT "Ping"))) = Done (path', st')
       /\ Table.Typ (demoRef (structT "Ping")) ∈ path'
       /\ exists clones, heap st' = demoHeap ++ clones
                         /\ length clones <= 5 * S (size demoTypes).
Proof.
  assert (Hfuel : S (size demoTypes) < 20) by (vm_compute; lia).
  split; [exact demo_finite |]. split; [exact Hfuel |].
  destruct (inlineFields_terminates demoEnv demoTables demoTypes 5
              demoHeap (demoRef (structT "Ping")) 23 20 demo_finite Hfuel)
    as (path' & st' & Hrun & Hin & _ & Hclones).
  exists path', st'. split; [exact Hrun |]. split; [exact Hin | exact Hclones].
Defined.
(** ** The join option: parseRelationJoin *)


Lemma Split_length sep s : length (Split sep s) = S (countByte sep s).
Proof.
  induction s as [| c s IH]; simpl; [done |].
  destruct (decide (c = sep)); simpl; [by rewrite IH |].
  destruct (Split sep s) eqn:Hs; simpl in *; [done | lia].
Qed.

Lemma parseRelationJoinPairs_accepts ss :
  is_Some (parseRelationJoinPairs ss) <->
  Forall (fun part => countByte "=" (TrimSpace part) = 1) ss.
Proof.
  induction ss as [| s ss IH]; simpl.
  - split; [constructor | by eexists].
  - pose proof (Split_length "=" (TrimSpace s)) as Hlen.
    rewrite Forall_cons, <- IH.
    destruct (Split "=" (TrimSpace s)) as [| b [| j [| x l]]] eqn:Hs; simpl in Hlen.
    + lia.
    + split; [intros [? ?]; discriminate | intros [? _]; lia].
    + destruct (parseRelationJoinPairs ss) as [[bs js] |].
      * split; [intros _; split; [lia | by eexists] | by eexists].
      * split; [intros [? ?]; discriminate | intros [_ [? ?]]; discriminate].
    + split; [intros [? ?]; discriminate | intros [? _]; lia].
Qed.

(** X1.  parseRelationJoin accepts a join option exactly when every
    comma-separated part, with the white space around it trimmed,
    contains one equals sign; any other text panics (an empty option, a
    part without or with two equals signs).  When it is accepted, both
    results have one entry per part. *)
Theorem parseRelationJoin_accepts (join : string) :
  (is_Some (parseRelationJoin join) <->
   Forall (fun part => countByte "=" (TrimSpace part) = 1) (Split "," join))
  /\ (forall bs js, parseRelationJoin join = Some (bs, js) ->
        length bs = S (countByte "," join) /\ length js = S (countByte "," join)).
Proof.
  split; [apply parseRelationJoinPairs_accepts |].
  intros bs js H. apply parseRelationJoinPairs_length in H.
  by rewrite Split_length in H.
Qed.





















(** ** The relation resolvers: explicit joins, polymorphism and errors *)

Lemma with_fields_nil rel :
  with_JoinFields (Relation.JoinFields rel ++ [])
    (with_BaseFields (Relation.BaseFields rel ++ []) rel) = rel.
Proof. destruct rel. unfold with_JoinFields, with_BaseFields. simpl. by rewrite !app_nil_r. Qed.

Lemma hasOneJoinLoop_resolves t joinTable goName bs : forall js rel,
  length bs = length js ->
  match resolveColumns t bs, resolveColumns joinTable js with
  | Some bf, Some jf =>
      hasOneJoinLoop t joinTable goName (zip bs js) rel
      = Done (with_JoinFields (Relation.JoinFields rel ++ jf)
                (with_BaseFields (Relation.BaseFields rel ++ bf) rel))
  | _, _ => exists msg, hasOneJoinLoop t joinTable goName (zip bs js) rel = Panic msg
  end.
Proof.
  unfold resolveColumns.
  induction bs as [| b bs IH]; intros [| j js] rel Hlen; try discriminate.
  - simpl. by rewrite with_fields_nil.
  - injection Hlen as Hlen. cbn [mapM zip zip_with hasOneJoinLoop]. unfold fieldWithLock.
    destruct (Table.FieldMap t !! b) as [f |] eqn:Hb; simpl; [| eauto].
    destruct (Table.FieldMap joinTable !! j) as [f' |] eqn:Hj; simpl.
    + specialize (IH js (with_JoinFields (Relation.JoinFields rel ++ [f'])
                           (with_BaseFields (Relation.BaseFields rel ++ [f]) rel)) Hlen).
      destruct (mapM _ bs) as [bf |]; simpl; [| exact IH].
      destruct (mapM _ js) as [jf |]; simpl; [| exact IH].
      rewrite IH. unfold with_JoinFields, with_BaseFields. simpl.
      by rewrite <- !app_assoc.
    + destruct (mapM _ bs); simpl; eauto.
Qed.

Lemma belongsToJoinLoop_resolves t joinTable goName bs : forall js rel,
  length bs = length js ->
  match resolveColumns t bs, resolveColumns joinTable js with
  | Some bf, Some jf =>
      belongsToJoinLoop t joinTable goName (zip bs js) rel
      = Done (with_JoinFields (Relation.JoinFields rel ++ jf)
                (with_BaseFields (Relation.BaseFields rel ++ bf) rel))
  | _, _ => exists msg, belongsToJoinLoop t joinTable goName (zip bs js) rel = Panic msg
  end.
Proof.
  unfold resolveColumns.
  induction bs as [| b bs IH]; intros [| j js] rel Hlen; try discriminate.
  - simpl. by rewrite with_fields_nil.
  - injection Hlen as Hlen. cbn [mapM zip zip_with belongsToJoinLoop]. unfold fieldWithLock.
    destruct (Table.FieldMap t !! b) as [f |] eqn:Hb; simpl; [| eauto].
    destruct (Table.FieldMap joinTable !! j) as [f' |] eqn:Hj; simpl.
    + specialize (IH js (with_JoinFields (Relation.JoinFields rel ++ [f'])
                           (with_BaseFields (Relation.BaseFields rel ++ [f]) rel)) Hlen).
      destruct (mapM _ bs) as [bf |]; simpl; [| exact IH].
      destruct (mapM _ js) as [jf |]; simpl; [| exact IH].
      rewrite IH. unfold with_JoinFields, with_BaseFields. simpl.
      by rewrite <- !app_assoc.
    + destruct (mapM _ bs); simpl; eauto.
Qed.

(** X3.  With an explicit join option that parses, has-one and
    belongs-to look every base column up in the owning table and every
    join column in the target table, pair by pair: when all of them are
    columns, the relation has exactly these fields, in the order of the
    option, as base and join fields and nothing else set; when one of
    them is missing the resolver panics. *)
Theorem explicit_join_resolution (E : Env) (reg : Tables) (h : Heap)
    (cur t : Table.t) (field : ptr) (join : string) (bs js : list string) :
  let fld := deref h field in
  let joinTable := Tables_Ref reg cur (Field.Typ fld) in
  Tag.Options (Field.Tag fld) !! "join" = Some join ->
  parseRelationJoin join = Some (bs, js) ->
  (forall bf jf,
     resolveColumns t bs = Some bf -> resolveColumns joinTable js = Some jf ->
     (CheckPKs joinTable = None ->
      hasOneRelation E reg h cur t field
      = Done (Relation.mk HasOneRelation field (Table.Typ joinTable)
                bf jf None "" None [] []))
     /\ (CheckPKs t = None ->
         belongsToRelation E reg h cur t field
         = Done (Relation.mk BelongsToRelation field (Table.Typ joinTable)
                   bf jf None "" None [] [])))
  /\ (resolveColumns t bs = None \/ resolveColumns joinTable js = None ->
      (exists msg, hasOneRelation E reg h cur t field = Panic msg)
      /\ (exists msg, belongsToRelation E reg h cur t field = Panic msg)).
Proof.
  intros fld joinTable Hjoin Hparse.
  assert (Hlen : length bs = length js).
  { apply parseRelationJoinPairs_length in Hparse. lia. }
  pose proof (fun goName rel => hasOneJoinLoop_resolves t joinTable goName bs js rel Hlen) as Hone.
  pose proof (fun goName rel => belongsToJoinLoop_resolves t joinTable goName bs js rel Hlen) as Hbel.
  split.
  - intros bf jf Hbf Hjf. rewrite Hbf, Hjf in Hone, Hbel. split; intros Hpk.
    + unfold hasOneRelation. fold fld. fold joinTable. rewrite Hpk, Hjoin, Hparse.
      by rewrite Hone.
    + unfold belongsToRelation. fold fld. fold joinTable. rewrite Hpk, Hjoin, Hparse.
      by rewrite Hbel.
  - intros Hmiss.
    assert (Hone' : forall goName rel, exists msg,
               hasOneJoinLoop t joinTable goName (zip bs js) rel = Panic msg).
    { intros goName rel. specialize (Hone goName rel).
      destruct Hmiss as [Hm | Hm]; rewrite Hm in Hone; [done |].
      by destruct (resolveColumns t bs). }
    assert (Hbel' : forall goName rel, exists msg,
               belongsToJoinLoop t joinTable goName (zip bs js) rel = Panic msg).
    { intros goName rel. specialize (Hbel goName rel).
      destruct Hmiss as [Hm | Hm]; rewrite Hm in Hbel; [done |].
      by destruct (resolveColumns t bs). }
    split.
    + unfold hasOneRelation. fold fld. fold joinTable.
      destruct (CheckPKs joinTable); [eauto |]. rewrite Hjoin, Hparse. apply Hone'.
    + unfold belongsToRelation. fold fld. fold joinTable.
      destruct (CheckPKs t); [eauto |]. rewrite Hjoin, Hparse. apply Hbel'.
Qed.

Lemma hasManyJoinLoop_polymorphic t joinTable goName isPolymorphic pairs :
  forall rel pc rel' pc',
  hasManyJoinLoop t joinTable goName isPolymorphic pairs (rel, pc) = Done (rel', pc') ->
  pc' = foldl (fun column p => if isPolymorphic && String.eqb p.1 "type"
                               then p.2 else column) pc pairs
  /\ Relation.PolymorphicField rel' = Relation.PolymorphicField rel
  /\ Relation.PolymorphicValue rel' = Relation.PolymorphicValue rel.
Proof.
  induction pairs as [| [b j] pairs IH]; intros rel pc rel' pc'; simpl.
  - by intros [= <- <-].
  - destruct (isPolymorphic && String.eqb b "type"); [by apply IH |].
    destruct (fieldWithLock t b); [| done].
    destruct (fieldWithLock joinTable j); [| done].
    intros H. by apply IH in H.
Qed.

(** X4.  A has-many relation that is built is polymorphic exactly when
    its field has the polymorphic option.  Then the polymorphic field is
    the column of the join table named by the pair type=column of an
    explicit join (the last one), or by the model name followed by _type
    when there is no explicit join, and the value is the one of the
    option, or the model name of the owning table when the option has no
    value.  Without the option the record has no polymorphic field and
    an empty value. *)
Theorem has_many_polymorphic (E : Env) (reg : Tables) (h : Heap)
    (cur t : Table.t) (field : ptr) (rel : Relation.t) :
  hasManyRelation E reg h cur t field = Done rel ->
  let fld := deref h field in
  exists el,
    reflect.elem (Field.Typ fld) = Some el
    /\ let joinTable := Tables_Ref reg cur (indirectType el) in
       match Tag.Options (Field.Tag fld) !! "polymorphic" with
       | Some v =>
           let column :=
             match Tag.Options (Field.Tag fld) !! "join" with
             | Some _ => polymorphicColumnOf (joinPairs fld)
             | None => (Underscore E (Table.ModelName t) +:+ "_") +:+ "type"
             end in
           is_Some (Relation.PolymorphicField rel)
           /\ Relation.PolymorphicField rel = Table.FieldMap joinTable !! column
           /\ Relation.PolymorphicValue rel
              = (if String.eqb v "" then Table.ModelName t else v)
       | None =>
           Relation.PolymorphicField rel = None
           /\ Relation.PolymorphicValue rel = ""
       end.
Proof.
  unfold hasManyRelation, joinPairs. cbv zeta.
  destruct (CheckPKs t); [done |].
  set (fld := deref h field).
  destruct (negb _); [done |].
  destruct (reflect.elem (Field.Typ fld)) as [el |]; [| done].
  intros H. exists el. split; [done |].
  set (joinTable := Tables_Ref reg cur (indirectType el)) in *.
  destruct (Tag.Options (Field.Tag fld) !! "join") as [join |].
  - destruct (parseRelationJoin join) as [[bs js] |] eqn:Hparse; [| done].
    destruct (hasManyJoinLoop _ _ _ _ _ _) as [[rel1 pc1] | |] eqn:Hloop; try done.
    cbn [mbind outcome_bind bind] in H.
    apply hasManyJoinLoop_polymorphic in Hloop as (Hpc & Hf & Hv). simpl in Hf, Hv.
    unfold hasManyPolymorphic, fieldWithLock in H.
    destruct (Tag.Options (Field.Tag fld) !! "polymorphic") as [v |].
    + rewrite bool_decide_eq_true_2 in Hpc by eauto.
      change (polymorphicColumnOf (zip bs js)) with
        (foldl (fun column p => if true && String.eqb p.1 "type" then p.2 else column)
           "" (zip bs js)).
      rewrite <- Hpc.
      destruct (Table.FieldMap joinTable !! pc1) as [pf |]; [| done].
      injection H as <-. simpl. eauto.
    + injection H as <-. done.
  - pose proof (hasManyPKLoop_convention h t joinTable (Field.GoName fld)
                  (Underscore E (Table.ModelName t) +:+ "_") (Table.PKs t)
                  (with_BaseFields (Table.PKs t)
                     (Relation.mk HasManyRelation field (Table.Typ joinTable)
                        [] [] None "" None [] []))) as Hloop.
    destruct (mapM _ (Table.PKs t)) as [cols |] eqn:Hm.
    + rewrite Hloop in H. cbn [mbind outcome_bind bind] in H.
      unfold hasManyPolymorphic, fieldWithLock in H.
      destruct (Tag.Options (Field.Tag fld) !! "polymorphic") as [v |].
      * rewrite bool_decide_eq_true_2 in H by eauto.
        destruct (Table.FieldMap joinTable !! _) as [pf |]; [| done].
        injection H as <-. simpl. eauto.
      * injection H as <-. done.
    + destruct Hloop as [msg Hloop]. rewrite Hloop in H. done.
Qed.

Lemma CheckPKs_empty t :
  Table.PKs t = [] ->
  CheckPKs t = Some ("bun: " +:+ tableString t +:+ " does not have primary keys").
Proof. unfold CheckPKs. by intros ->. Qed.

(** X5.  A table without primary keys cannot own a belongs-to, has-many
    or many-to-many relation, and cannot be the target of a has-one
    relation: tryRelation panics with the error of CheckPKs, naming the
    table that lacks the keys, before any column is looked up. *)
Theorem relation_requires_primary_keys (E : Env) (reg : Tables) (field : ptr)
    (st : State) :
  let fld := deref (heap st) field in
  let t := tbl st in
  let rel := Tag.Options (Field.Tag fld) !! "rel" in
  (Table.PKs t = [] ->
   rel = Some "belongs-to" \/ rel = Some "has-many"
   \/ (rel = None /\ Tag.HasOption (Field.Tag fld) "m2m" = true
       /\ exists el, Field.Typ fld = reflect.SliceOf el) ->
   tryRelation E reg field st
   = Panic ("bun: " +:+ tableString t +:+ " does not have primary keys"))
  /\ (Table.PKs (Tables_Ref reg t (Field.Typ fld)) = [] ->
      rel = Some "has-one" ->
      tryRelation E reg field st
      = Panic ("bun: " +:+ tableString (Tables_Ref reg t (Field.Typ fld))
               +:+ " does not have primary keys")).
Proof.
  cbv zeta. split.
  - intros Hpk Hkind. apply CheckPKs_empty in Hpk. unfold tryRelation.
    destruct Hkind as [Hrel | [Hrel | (Hrel & Hm2m & el & Hty)]]; rewrite Hrel.
    + unfold initRelation, belongsToRelation. simpl. by rewrite Hpk.
    + unfold initRelation, hasManyRelation. simpl. by rewrite Hpk.
    + rewrite Hm2m. unfold m2mRelation. rewrite Hty. simpl. by rewrite Hpk.
  - intros Hpk Hrel. apply CheckPKs_empty in Hpk. unfold tryRelation. rewrite Hrel.
    unfold initRelation, hasOneRelation. simpl. by rewrite Hpk.
Qed.

(** X6.  A relation option that is none of has-one, belongs-to and
    has-many is fatal, and so is a has-many or many-to-many option on a
    field that is not a slice: tryRelation panics and nothing is
    registered. *)
Theorem relation_kind_errors (E : Env) (reg : Tables) (field : ptr) (st : State) :
  let fld := deref (heap st) field in
  let rel := Tag.Options (Field.Tag fld) !! "rel" in
  (forall word, rel = Some word ->
     word <> "has-one" -> word <> "belongs-to" -> word <> "has-many" ->
     tryRelation E reg field st
     = Panic ("bun: unknown relation=" +:+ word +:+ " on field=" +:+ Field.GoName fld))
  /\ (reflect.kind (Field.Typ fld) <> reflect.Slice ->
      (rel = Some "has-many" -> Table.PKs (tbl st) <> [] ->
       tryRelation E reg field st
       = Panic ("bun: " +:+ Table.TypeName (tbl st) +:+ "." +:+ Field.GoName fld
                +:+ " has-many relation requires slice, got "
                +:+ Quote E (kindString (reflect.kind (Field.Typ fld)))))
      /\ (rel = None -> Tag.HasOption (Field.Tag fld) "m2m" = true ->
          tryRelation E reg field st
          = Panic ("bun: " +:+ Table.TypeName (tbl st) +:+ "." +:+ Field.GoName fld
                   +:+ " m2m relation requires slice, got "
                   +:+ Quote E (kindString (reflect.kind (Field.Typ fld)))))).
Proof.
  cbv zeta. split.
  - intros word Hrel H1 H2 H3. unfold tryRelation. rewrite Hrel.
    unfold initRelation.
    apply String.eqb_neq in H1, H2, H3. by rewrite H1, H2, H3.
  - intros Hkind. split.
    + intros Hrel Hpk. unfold tryRelation. rewrite Hrel.
      unfold initRelation, hasManyRelation, CheckPKs. simpl.
      destruct (Table.PKs (tbl st)); [done |]. simpl.
      by rewrite bool_decide_eq_false_2.
    + intros Hrel Hm2m. unfold tryRelation. rewrite Hrel, Hm2m.
      unfold m2mRelation. by rewrite bool_decide_eq_false_2.
Qed.

(** X7.  Relation names are unique in a table.  addRelation registers
    the relation under the Go name of its field when that name is free,
    and leaves every other relation and the field lists as they are;
    when the name is taken it panics.  A second relation of the same
    name on the result panics. *)
Theorem addRelation_unique (h : Heap) (rel : Relation.t) (t : Table.t) :
  let name := Field.GoName (deref h (Relation.Field rel)) in
  match Table.Relations t !! name with
  | Some _ =>
      addRelation h rel t
      = Panic (tableString t +:+ " already has " +:+ relationString h rel)
  | None =>
      exists t',
        addRelation h rel t = Done t'
        /\ Table.Relations t' !! name = Some rel
        /\ (forall other, other <> name ->
              Table.Relations t' !! other = Table.Relations t !! other)
        /\ (forall rel', Field.GoName (deref h (Relation.Field rel')) = name ->
              exists msg, addRelation h rel' t' = Panic msg)
        /\ Table.Fields t' = Table.Fields t
        /\ Table.PKs t' = Table.PKs t
        /\ Table.DataFields t' = Table.DataFields t
        /\ Table.FieldMap t' = Table.FieldMap t
        /\ Table.allFields t' = Table.allFields t
  end.
Proof.
  intros name. unfold addRelation. fold name.
  destruct (Table.Relations t !! name) eqn:Hfree; [done |].
  eexists. split; [done |]. simpl.
  split; [by rewrite lookup_insert_eq |].
  split; [intros other Hne; by rewrite lookup_insert_ne |].
  split; [| done].
  intros rel' ->. simpl. rewrite lookup_insert_eq. eauto.
Qed.

(** ** inlineFields: what a traversal adds *)

Lemma set_FieldMap_same t : Table.set_FieldMap (Table.FieldMap t) t = t.
Proof. by destruct t. Qed.

Lemma set_FieldMap_twice m m' t :
  Table.set_FieldMap m (Table.set_FieldMap m' t) = Table.set_FieldMap m t.
Proof. reflexivity. Qed.

Lemma inlined_refl E st : inlined E st st.
Proof.
  split.
  - exists []. by rewrite app_nil_r.
  - done.
  - intros k p H1 H2. congruence.
  - apply set_FieldMap_same.
Qed.

Lemma inlined_trans E st1 st2 st3 :
  inlined E st1 st2 -> inlined E st2 st3 -> inlined E st1 st3.
Proof.
  intros [(e1 & He1 & Hc1) Hk1 Hn1 Ht1] [(e2 & He2 & Hc2) Hk2 Hn2 Ht2]. split.
  - exists (e1 ++ e2). rewrite He2, He1, app_assoc. split; [done |].
    by apply Forall_app.
  - intros k p H. by apply Hk2, Hk1.
  - intros k p H3 H1.
    destruct (Table.FieldMap (tbl st2) !! k) as [q |] eqn:H2.
    + pose proof (Hk2 _ _ H2) as H3'. assert (q = p) as -> by congruence.
      destruct (Hn1 _ _ H2 H1) as [Hr Hname].
      rewrite He2. rewrite He2, length_app in *.
      split; [lia |]. rewrite deref_app by lia. done.
    + destruct (Hn2 _ _ H3 H2) as [Hr Hname]. split; [| done].
      rewrite He1, length_app in Hr. lia.
  - rewrite <- Ht2 in Ht1. rewrite set_FieldMap_twice in Ht1. done.
Qed.

Lemma inlined_step E st clone :
  (exists s f, clone = cloneOf E s f) ->
  inlined E st
    (mkState (heap st ++ [clone])
       match Table.FieldMap (tbl st) !! Field.Name clone with
       | Some _ => tbl st
       | None => Table.set_FieldMap
                   (<[Field.Name clone := length (heap st)]> (Table.FieldMap (tbl st)))
                   (tbl st)
       end).
Proof.
  intros Hclone. split; cbn [heap tbl].
  - exists [clone]. split; [done |]. by repeat constructor.
  - intros k p H. destruct (Table.FieldMap (tbl st) !! Field.Name clone) eqn:Hfree; [done |].
    simpl. rewrite lookup_insert_ne; [done |]. congruence.
  - intros k p H Hnone.
    destruct (Table.FieldMap (tbl st) !! Field.Name clone) eqn:Hfree; [congruence |].
    simpl in H. destruct (decide (k = Field.Name clone)) as [-> | Hne].
    + rewrite lookup_insert_eq in H. injection H as <-.
      rewrite length_app, deref_alloc. simpl. split; [lia | done].
    + rewrite lookup_insert_ne in H by done. congruence.
  - destruct (Table.FieldMap (tbl st) !! Field.Name clone);
      [apply set_FieldMap_same | by destruct (tbl st)].
Qed.

Lemma inlineLoop_inlined E rec strct fs :
  (forall strct path st path' st',
     rec strct (Some path) st = Done (path', st') ->
     inlined E st st' /\ path ⊆ path') ->
  forall path st path' st',
    inlineLoop E rec strct fs (path, st) = Done (path', st') ->
    inlined E st st' /\ path ⊆ path'.
Proof.
  intros Hrec. induction fs as [| f0 fs IH]; intros path st path' st' Hrun.
  - simpl in Hrun. injection Hrun as <- <-. split; [apply inlined_refl | done].
  - cbn [inlineLoop] in Hrun. unfold alloc in Hrun.
    set (clone := Field.rename _ _ _ _ (deref (heap st) f0)) in *.
    assert (Hstep := inlined_step E st clone
              (ex_intro _ (deref (heap st) strct) (ex_intro _ (deref (heap st) f0) eq_refl))).
    set (st1 := mkState _ _) in *.
    destruct (negb (bool_decide (reflect.kind (Field.Typ clone) = reflect.Struct))).
    { apply IH in Hrun as [Hin Hsub]. split; [by eapply inlined_trans | done]. }
    destruct (decide (Field.Typ clone ∈ path)).
    { apply IH in Hrun as [Hin Hsub]. split; [by eapply inlined_trans | done]. }
    destruct (rec (length (heap st)) (Some path) st1) as [[path2 st2] | |] eqn:Hcall;
      try done.
    cbn [mbind outcome_bind bind] in Hrun.
    apply Hrec in Hcall as [Hin2 Hsub2].
    apply IH in Hrun as [Hin Hsub]. split; [| set_solver].
    eapply inlined_trans; [exact Hstep |]. by eapply inlined_trans.
Qed.

Lemma inlineFields_inlined E reg fuel : forall strct path st path' st',
  inlineFields E reg fuel strct path st = Done (path', st') ->
  inlined E st st' /\ visitedOf path st ⊆ path'.
Proof.
  induction fuel as [| fuel IH]; intros strct path st path' st' Hrun; [done |].
  cbn [inlineFields] in Hrun. fold (visitedOf path st) in Hrun.
  destruct (decide (_ ∈ visitedOf path st)).
  - injection Hrun as <- <-. split; [apply inlined_refl | done].
  - apply inlineLoop_inlined in Hrun as [Hin Hsub]; [split; [done | set_solver] |].
    intros s p x p' x' H. by apply (IH s (Some p) x p' x').
Qed.

(** X8.  A traversal of inlineFields that completes only adds: every
    field object it allocates is a renamed copy placed after the
    existing ones, an entry of the field map is never overwritten or
    removed (the first registration of a name wins), a new entry points
    to a new copy that carries the name it is registered under, and
    nothing else of the table changes (Fields, PKs, DataFields,
    allFields and the relations among it).  The visited set only
    grows. *)
Theorem inlineFields_only_adds (E : Env) (reg : Tables) (fuel : nat)
    (strct : ptr) (path : option (gset rtype)) (st : State)
    (path' : gset rtype) (st' : State) :
  inlineFields E reg fuel strct path st = Done (path', st') ->
  (exists clones,
     heap st' = heap st ++ clones
     /\ Forall (fun c => exists s f, c = cloneOf E s f) clones)
  /\ (forall name p, Table.FieldMap (tbl st) !! name = Some p ->
                     Table.FieldMap (tbl st') !! name = Some p)
  /\ (forall name p, Table.FieldMap (tbl st) !! name = None ->
                     Table.FieldMap (tbl st') !! name = Some p ->
                     length (heap st) <= p < length (heap st')
                     /\ Field.Name (deref (heap st') p) = name)
  /\ Table.set_FieldMap (Table.FieldMap (tbl st)) (tbl st') = tbl st
  /\ visitedOf path st ⊆ path'.
Proof.
  intros Hrun. apply inlineFields_inlined in Hrun as [[Hh Hk Hn Ht] Hsub].
  split; [done |]. split; [done |]. split; [| done].
  intros name p H1 H2. by apply Hn.
Qed.

Lemma inlineLoop_registers E rec strct fs h0 :
  (forall strct path st path' st',
     rec strct (Some path) st = Done (path', st') ->
     inlined E st st' /\ path ⊆ path') ->
  strct < length h0 ->
  (forall f, f ∈ fs -> f < length h0) ->
  forall path st path' st',
    (exists ext, heap st = h0 ++ ext) ->
    inlineLoop E rec strct fs (path, st) = Done (path', st') ->
    forall f, f ∈ fs ->
      is_Some (Table.FieldMap (tbl st')
                 !! (Field.Name (deref h0 strct) +:+ "__" +:+ Field.Name (deref h0 f))).
Proof.
  intros Hrec Hstrct. induction fs as [| f0 fs IH]; intros Hfs path st path' st' [ext Hext] Hrun f Hf.
  - by apply elem_of_nil in Hf.
  - cbn [inlineLoop] in Hrun. unfold alloc in Hrun.
    assert (Hs : deref (heap st) strct = deref h0 strct)
      by (rewrite Hext; by apply deref_app).
    assert (Hf0 : deref (heap st) f0 = deref h0 f0)
      by (rewrite Hext; apply deref_app, Hfs; by left).
    rewrite Hs, Hf0 in Hrun.
    set (clone := Field.rename _ _ _ _ (deref h0 f0)) in *.
    assert (Hstep := inlined_step E st clone
              (ex_intro _ (deref h0 strct) (ex_intro _ (deref h0 f0) eq_refl))).
    set (st1 := mkState _ _) in *.
    assert (Hext1 : exists ext, heap st1 = h0 ++ ext).
    { exists (ext ++ [clone]). unfold st1. simpl. by rewrite Hext, app_assoc. }
    assert (Hreg1 : is_Some (Table.FieldMap (tbl st1) !! Field.Name clone)).
    { unfold st1. cbn [tbl].
      destruct (Table.FieldMap (tbl st) !! Field.Name clone) eqn:Hfree; [by rewrite Hfree |].
      simpl. by rewrite lookup_insert_eq. }
    assert (Hfs' : forall f, f ∈ fs -> f < length h0) by (intros; apply Hfs; by right).
    assert (Hrest : exists path2 st2,
               inlined E st1 st2 /\ (exists ext, heap st2 = h0 ++ ext)
               /\ inlineLoop E rec strct fs (path2, st2) = Done (path', st')).
    { destruct (negb (bool_decide (reflect.kind (Field.Typ clone) = reflect.Struct))).
      { exists path, st1. split; [apply inlined_refl | done]. }
      destruct (decide (Field.Typ clone ∈ path)).
      { exists path, st1. split; [apply inlined_refl | done]. }
      destruct (rec (length (heap st)) (Some path) st1) as [[path2 st2] | |] eqn:Hcall;
        try done.
      cbn [mbind outcome_bind bind] in Hrun.
      apply Hrec in Hcall as [Hin2 Hsub2].
      exists path2, st2. split; [done |]. split; [| done].
      destruct Hext1 as [e1 He1]. destruct Hin2 as [(e2 & He2 & _) _ _ _].
      exists (e1 ++ e2). by rewrite He2, He1, app_assoc. }
    destruct Hrest as (path2 & st2 & Hin2 & Hext2 & Hloop).
    apply elem_of_cons in Hf as [-> | Hf].
    + pose proof (inlineLoop_inlined E rec strct fs Hrec _ _ _ _ Hloop) as [Hin _].
      destruct Hreg1 as [p Hp]. exists p.
      apply (in_kept _ _ _ Hin), (in_kept _ _ _ Hin2). exact Hp.
    + by apply (IH Hfs' path2 st2 path' st' Hext2 Hloop).
Qed.

(** X9.  After inlineFields has expanded a struct field whose type was
    not visited before, every field of the table of that type can be
    looked up in the field map under the name of the struct field, two
    underscores and its own name; the entry is the one the name had
    before, or a new copy that carries this name. *)
Theorem inlineFields_registers_columns (E : Env) (reg : Tables) (fuel : nat)
    (strct : ptr) (path : option (gset rtype)) (st : State)
    (path' : gset rtype) (st' : State) :
  inlineFields E reg fuel strct path st = Done (path', st') ->
  let s := deref (heap st) strct in
  let joinTable := Tables_Ref reg (tbl st) (Field.Typ s) in
  Field.Typ s ∉ visitedOf path st ->
  strct < length (heap st) ->
  (forall f, f ∈ Table.allFields joinTable -> f < length (heap st)) ->
  forall f, f ∈ Table.allFields joinTable ->
    let name := Field.Name s +:+ "__" +:+ Field.Name (deref (heap st) f) in
    exists p,
      Table.FieldMap (tbl st') !! name = Some p
      /\ (Table.FieldMap (tbl st) !! name = Some p
          \/ (length (heap st) <= p < length (heap st')
              /\ Field.Name (deref (heap st') p) = name)).
Proof.
  intros Hrun s joinTable Hnew Hstrct Hfs f Hf name.
  pose proof (inlineFields_inlined E reg fuel strct path st path' st' Hrun) as [Hin _].
  destruct fuel as [| fuel]; [done |].
  cbn [inlineFields] in Hrun. fold (visitedOf path st) in Hrun. fold s in Hrun.
  destruct (decide (Field.Typ s ∈ visitedOf path st)); [done |].
  fold joinTable in Hrun.
  assert (Hsome : is_Some (Table.FieldMap (tbl st') !! name)).
  { assert (Hrec : forall s0 p0 x p' x',
               inlineFields E reg fuel s0 (Some p0) x = Done (p', x') ->
               inlined E x x' /\ p0 ⊆ p').
    { intros s0 p0 x p' x' H.
      by apply (inlineFields_inlined E reg fuel s0 (Some p0) x p' x'). }
    assert (Hext : exists ext, heap st = heap st ++ ext)
      by (exists []; by rewrite app_nil_r).
    exact (inlineLoop_registers E _ strct _ (heap st) Hrec Hstrct Hfs _ st path' st'
             Hext Hrun f Hf). }
  destruct Hsome as [p Hp]. exists p. split; [done |].
  destruct (Table.FieldMap (tbl st) !! name) as [q |] eqn:Hold.
  - left. apply (in_kept _ _ _ Hin) in Hold. congruence.
  - right. by apply (in_new _ _ _ Hin).
Qed.

(** ** Phase 2: how the resolvers, tryRelation and the loops end *)

Lemma endsWith_bind {A B} (P : A -> Prop) (Q : B -> Prop) (x : outcome A)
    (k : A -> outcome B) :
  endsWith P x -> (forall a, P a -> endsWith Q (k a)) -> endsWith Q (x ≫= k).
Proof. destruct x; simpl; [intros Ha Hk; by apply Hk | done | done]. Qed.

Lemma endsWith_impl {A} (P Q : A -> Prop) (x : outcome A) :
  endsWith P x -> (forall a, P a -> Q a) -> endsWith Q x.
Proof. destruct x; simpl; [intros Ha Hk; by apply Hk | done | done]. Qed.

Lemma hasOneJoinLoop_ends t joinTable goName pairs : forall rel,
  endsWith (fun r => Relation.Field r = Relation.Field rel)
    (hasOneJoinLoop t joinTable goName pairs rel).
Proof.
  induction pairs as [| [b j] pairs IH]; intros rel; simpl; [done |].
  destruct (fieldWithLock t b); [| done].
  destruct (fieldWithLock joinTable j); [| done].
  eapply endsWith_impl; [apply IH | done].
Qed.

Lemma belongsToJoinLoop_ends t joinTable goName pairs : forall rel,
  endsWith (fun r => Relation.Field r = Relation.Field rel)
    (belongsToJoinLoop t joinTable goName pairs rel).
Proof.
  induction pairs as [| [b j] pairs IH]; intros rel; simpl; [done |].
  destruct (fieldWithLock t b); [| done].
  destruct (fieldWithLock joinTable j); [| done].
  eapply endsWith_impl; [apply IH | done].
Qed.

Lemma hasManyJoinLoop_ends t joinTable goName isPolymorphic pairs : forall rel pc,
  endsWith (fun r => Relation.Field r.1 = Relation.Field rel)
    (hasManyJoinLoop t joinTable goName isPolymorphic pairs (rel, pc)).
Proof.
  induction pairs as [| [b j] pairs IH]; intros rel pc; simpl; [done |].
  destruct (isPolymorphic && String.eqb b "type"); [apply IH |].
  destruct (fieldWithLock t b); [| done].
  destruct (fieldWithLock joinTable j); [| done].
  eapply endsWith_impl; [apply IH | done].
Qed.

Lemma hasOnePKLoop_ends h t goName fkPrefix pks rel :
  endsWith (fun r => Relation.Field r = Relation.Field rel)
    (hasOnePKLoop h t goName fkPrefix pks rel).
Proof.
  pose proof (hasOnePKLoop_convention h t goName fkPrefix pks rel) as H.
  destruct (mapM _ pks); [by rewrite H | by destruct H as [msg ->]].
Qed.

Lemma belongsToPKLoop_ends h t joinTable goName fkPrefix pks rel :
  endsWith (fun r => Relation.Field r = Relation.Field rel)
    (belongsToPKLoop h t joinTable goName fkPrefix pks rel).
Proof.
  pose proof (belongsToPKLoop_convention h t joinTable goName fkPrefix pks rel) as H.
  destruct (mapM _ pks); [by rewrite H | by destruct H as [msg ->]].
Qed.

Lemma hasManyPKLoop_ends h t joinTable goName fkPrefix pks rel :
  endsWith (fun r => Relation.Field r = Relation.Field rel)
    (hasManyPKLoop h t joinTable goName fkPrefix pks rel).
Proof.
  pose proof (hasManyPKLoop_convention h t joinTable goName fkPrefix pks rel) as H.
  destruct (mapM _ pks); [by rewrite H | by destruct H as [msg ->]].
Qed.

Lemma hasManyPolymorphic_ends t joinTable goName poly pc rel :
  endsWith (fun r => Relation.Field r = Relation.Field rel)
    (hasManyPolymorphic t joinTable goName poly pc rel).
Proof.
  unfold hasManyPolymorphic. destruct poly; [| done].
  by destruct (fieldWithLock joinTable pc).
Qed.

Lemma hasOneRelation_ends E reg h cur t field :
  endsWith (fun r => Relation.Field r = field) (hasOneRelation E reg h cur t field).
Proof.
  unfold hasOneRelation. destruct (CheckPKs _); [done |].
  destruct (Tag.Options _ !! "join").
  - destruct (parseRelationJoin _) as [[bs js] |]; [| done].
    eapply endsWith_impl; [apply hasOneJoinLoop_ends | done].
  - eapply endsWith_impl; [apply hasOnePKLoop_ends | done].
Qed.

Lemma belongsToRelation_ends E reg h cur t field :
  endsWith (fun r => Relation.Field r = field) (belongsToRelation E reg h cur t field).
Proof.
  unfold belongsToRelation. destruct (CheckPKs _); [done |].
  destruct (Tag.Options _ !! "join").
  - destruct (parseRelationJoin _) as [[bs js] |]; [| done].
    eapply endsWith_impl; [apply belongsToJoinLoop_ends | done].
  - eapply endsWith_impl; [apply belongsToPKLoop_ends | done].
Qed.

Lemma hasManyRelation_ends E reg h cur t field :
  endsWith (fun r => Relation.Field r = field) (hasManyRelation E reg h cur t field).
Proof.
  unfold hasManyRelation. destruct (CheckPKs _); [done |].
  destruct (negb _); [done |].
  destruct (reflect.elem _); [| done].
  destruct (Tag.Options _ !! "join").
  - destruct (parseRelationJoin _) as [[bs js] |]; [| done].
    eapply endsWith_bind; [apply hasManyJoinLoop_ends |].
    intros [rel pc] Hrel. simpl in Hrel.
    eapply endsWith_impl; [apply hasManyPolymorphic_ends |].
    intros r' ->. done.
  - eapply endsWith_bind; [apply hasManyPKLoop_ends |].
    intros rel Hrel.
    eapply endsWith_impl; [apply hasManyPolymorphic_ends |].
    intros r' ->. done.
Qed.

Lemma m2mRelation_ends E reg h cur t field :
  endsWith (fun r => Relation.Field r = field) (m2mRelation E reg h cur t field).
Proof.
  unfold m2mRelation.
  destruct (negb _); [done |].
  destruct (reflect.elem _); [| done].
  destruct (CheckPKs t); [done |].
  destruct (CheckPKs _); [done |].
  destruct (Tag.Options _ !! "m2m"); [| done].
  destruct (ByName reg _) as [m2mTable |]; [| done].
  eapply (endsWith_bind (fun _ => True)).
  { destruct (Tag.Options _ !! "join"); [| done].
    by destruct (parseRelationJoin _) as [[[| lc ?] [| rc ?]] |]. }
  intros [leftColumn rightColumn] _.
  destruct (fieldByGoName h m2mTable leftColumn) as [leftField |]; [| done].
  destruct (fieldByGoName h m2mTable rightColumn) as [rightField |]; [| done].
  eapply endsWith_bind; [apply hasOneRelation_ends |]. intros leftRel _.
  eapply endsWith_bind; [apply hasOneRelation_ends |]. intros rightRel _.
  done.
Qed.

Lemma addRelation_ends h rel t :
  endsWith (fun t' =>
              Table.Relations t !! Field.GoName (deref h (Relation.Field rel)) = None
              /\ t' = Table.set_Relations
                        (<[Field.GoName (deref h (Relation.Field rel)) := rel]>
                           (Table.Relations t)) t)
    (addRelation h rel t).
Proof. unfold addRelation. by destruct (Table.Relations t !! _). Qed.

(** What tryRelation does to the state. *)
Lemma tryRelation_ends E reg field st :
  endsWith (fun r =>
              r.1 = isRelationField (deref (heap st) field)
              /\ heap r.2 = heap st
              /\ if r.1 then
                   exists rel,
                     Relation.Field rel = field
                     /\ Table.Relations (tbl st) !! Field.GoName (deref (heap st) field) = None
                     /\ tbl r.2 = Table.set_Relations
                                    (<[Field.GoName (deref (heap st) field) := rel]>
                                       (Table.Relations (tbl st))) (tbl st)
                 else r.2 = st)
    (tryRelation E reg field st).
Proof.
  unfold tryRelation, isRelationField.
  assert (Hadd : forall (x : outcome Relation.t),
             endsWith (fun r => Relation.Field r = field) x ->
             endsWith (fun st' : State =>
                         heap st' = heap st
                         /\ exists rel,
                              Relation.Field rel = field
                              /\ Table.Relations (tbl st)
                                   !! Field.GoName (deref (heap st) field) = None
                              /\ tbl st' = Table.set_Relations
                                             (<[Field.GoName (deref (heap st) field) := rel]>
                                                (Table.Relations (tbl st))) (tbl st))
               (r ← x; t ← addRelation (heap st) r (tbl st); Done (mkState (heap st) t))).
  { intros x Hx. eapply endsWith_bind; [exact Hx |]. intros rel Hrel.
    eapply endsWith_bind; [apply addRelation_ends |]. intros t' [Hfree ->].
    simpl. split; [done |]. exists rel. rewrite Hrel in Hfree. by rewrite Hrel. }
  destruct (Tag.Options _ !! "rel") as [rel |] eqn:Hrel.
  - rewrite bool_decide_eq_true_2 by eauto. simpl.
    eapply (endsWith_bind _ _ (initRelation E reg field rel st)).
    + unfold initRelation.
      destruct (String.eqb rel "has-one"); [apply Hadd, hasOneRelation_ends |].
      destruct (String.eqb rel "belongs-to"); [apply Hadd, belongsToRelation_ends |].
      destruct (String.eqb rel "has-many"); [apply Hadd, hasManyRelation_ends |].
      done.
    + intros st' [Hheap Hrelx]. simpl. done.
  - rewrite bool_decide_eq_false_2 by (by intros [? ?]). simpl.
    destruct (Tag.HasOption _ "m2m"); [| done].
    pose proof (Hadd _ (m2mRelation_ends E reg (heap st) (tbl st) (tbl st) field)) as H.
    change (r ← m2mRelation E reg (heap st) (tbl st) (tbl st) field;
            t ← addRelation (heap st) r (tbl st);
            Done (true, mkState (heap st) t))
      with (r ← m2mRelation E reg (heap st) (tbl st) (tbl st) field;
            (t ← addRelation (heap st) r (tbl st);
             (fun st' => Done (true, st')) (mkState (heap st) t))).
    destruct (m2mRelation E reg (heap st) (tbl st) (tbl st) field) as [r | |]; simpl in *;
      [| done | done].
    destruct (addRelation (heap st) r (tbl st)); simpl in *; done.
Qed.

Lemma finiteProgram_inlineFields_runs E reg h0 U M fuel strct st :
  finiteProgram reg h0 U M ->
  S (size U) < fuel ->
  (exists ext, heap st = h0 ++ ext) ->
  exists path' st', inlineFields E reg fuel strct None st = Done (path', st').
Proof.
  intros Hfin Hfuel Hext. destruct fuel as [| n]; [lia |].
  cbn [inlineFields].
  set (T0 := Table.Typ (tbl st)).
  set (styp := Field.Typ (deref (heap st) strct)).
  assert (Hinv : inlining h0 T0 st) by done.
  destruct (decide (styp ∈ {[T0]})) as [Hin | Hnotin]; [by eauto |].
  assert (Hne : styp <> Table.Typ (tbl st)) by set_solver.
  rewrite (Tables_Ref_other _ _ _ Hne).
  pose proof Hfin as [Hclosed Hbound].
  destruct (inlineLoop_terminates E reg h0 T0 U M (inlineFields E reg n) n strct
              (Table.allFields (Ref reg styp))
              (inlineFields_within E reg h0 T0 U M n Hfin)
              (Hclosed styp) ({[styp]} ∪ {[T0]}) st Hinv)
    as (path' & st' & Hrun & _).
  { set_solver. }
  { pose proof (unvisited_le U ({[styp]} ∪ {[T0]})). lia. }
  eauto.
Qed.

(** A call of inlineFields from the outside, in a finite program: it
    completes, the store grows and only the field map changes. *)
Lemma inlineFields_call_ends E reg h0 U M fuel strct st :
  finiteProgram reg h0 U M ->
  S (size U) < fuel ->
  (exists ext, heap st = h0 ++ ext) ->
  endsWith (fun r => (exists ext, heap r.2 = h0 ++ ext)
                     /\ Table.set_FieldMap (Table.FieldMap (tbl st)) (tbl r.2) = tbl st)
    (inlineFields E reg fuel strct None st).
Proof.
  intros Hfin Hfuel Hext.
  destruct (finiteProgram_inlineFields_runs E reg h0 U M fuel strct st Hfin Hfuel Hext)
    as (path' & st' & Hrun).
  rewrite Hrun. simpl.
  apply inlineFields_inlined in Hrun as [[(e & He & _) _ _ Ht] _].
  split; [| done]. destruct Hext as [e0 He0]. exists (e0 ++ e).
  by rewrite He, He0, app_assoc.
Qed.

Lemma set_FieldMap_lists m t t' :
  Table.set_FieldMap m t' = t ->
  Table.Fields t' = Table.Fields t
  /\ Table.skippedFields t' = Table.skippedFields t.
Proof. intros <-. done. Qed.

Lemma initInlinesLoop_ends E reg h0 U M fuel fs :
  finiteProgram reg h0 U M ->
  S (size U) < fuel ->
  forall st,
    (exists ext, heap st = h0 ++ ext) ->
    endsWith (fun st' => (exists ext, heap st' = h0 ++ ext)
                         /\ Table.Fields (tbl st') = Table.Fields (tbl st))
      (initInlinesLoop E reg fuel fs st).
Proof.
  intros Hfin Hfuel. induction fs as [| f fs IH]; intros st Hext; simpl; [done |].
  destruct (bool_decide _); [| by apply IH].
  eapply endsWith_bind; [by apply (inlineFields_call_ends E reg h0 U M) |].
  intros [path' st1] [Hext1 Ht1]. simpl in *.
  apply set_FieldMap_lists in Ht1 as [HF _].
  eapply endsWith_impl; [by apply IH |].
  intros st' [Hext' HF']. split; [done | congruence].
Qed.

Lemma removeField_length l x :
  x ∈ l -> S (length (removeField l x)) = length l.
Proof.
  induction l as [| y l IH]; simpl; [by intros ?%elem_of_nil |].
  intros Hin. destruct (decide (y = x)); [done |].
  apply elem_of_cons in Hin as [-> | Hin]; [done |]. simpl. by rewrite IH.
Qed.

Lemma initRelationsLoop_ends E reg h0 U M fuel :
  finiteProgram reg h0 U M ->
  S (size U) < fuel ->
  forall n i st,
    (exists ext, heap st = h0 ++ ext) ->
    length (Table.Fields (tbl st)) <= n + i ->
    endsWith (fun st' => exists ext, heap st' = h0 ++ ext)
      (initRelationsLoop E reg fuel n i st).
Proof.
  intros Hfin Hfuel. induction n as [| n IH]; intros i st Hext Hlen.
  - simpl. rewrite lookup_ge_None_2 by lia. done.
  - cbn [initRelationsLoop].
    destruct (Table.Fields (tbl st) !! i) as [f |] eqn:Hf; [| done].
    eapply endsWith_bind; [apply tryRelation_ends |].
    intros [isRel st1] (_ & Hheap & Hrel). simpl in Hheap, Hrel.
    assert (Hnext : exists i' st2,
               (if isRel
                then (i, onTable (fun t =>
                            Table.set_DataFields (removeField (Table.DataFields t) f)
                              (Table.set_Fields (removeField (Table.Fields t) f) t)) st1)
                else (S i, st1)) = (i', st2)
               /\ (exists ext, heap st2 = h0 ++ ext)
               /\ length (Table.Fields (tbl st2)) <= n + i').
    { destruct isRel.
      - eexists _, _. split; [done |]. simpl. rewrite Hheap. split; [done |].
        destruct Hrel as (rel & _ & _ & ->). simpl.
        pose proof (removeField_length (Table.Fields (tbl st)) f) as Hrm.
        apply list_elem_of_lookup_2 in Hf. specialize (Hrm Hf). lia.
      - eexists _, _. split; [done |]. subst st1. split; [done | lia]. }
    destruct Hnext as (i' & st2 & -> & Hext2 & Hlen2).
    destruct (bool_decide _); [| by apply IH].
    eapply endsWith_bind; [by apply (inlineFields_call_ends E reg h0 U M) |].
    intros [path' st3] [Hext3 Ht3]. simpl in *.
    apply set_FieldMap_lists in Ht3 as [HF _].
    apply IH; [done |]. by rewrite HF.
Qed.

(** X10.  In a program with finitely many struct types, phase 2 comes
    to an end on every table: with a bound on the depth of inlineFields
    above the number of struct types, init2 returns or panics with a
    configuration error, whatever cycles the types form and however
    many fields are removed from [Fields] while the loop of
    initRelations runs over it.  When it returns, the skipped fields
    are dropped and the store has only grown. *)
Theorem init2_terminates (E : Env) (reg : Tables) (U : gset rtype) (M : nat)
    (h : Heap) (t : Table.t) (fuel : nat) :
  finiteProgram reg h U M ->
  S (size U) < fuel ->
  (exists st',
     init2 E reg fuel (mkState h t) = Done st'
     /\ Table.skippedFields (tbl st') = []
     /\ exists clones, heap st' = h ++ clones)
  \/ (exists msg, init2 E reg fuel (mkState h t) = Panic msg).
Proof.
  intros Hfin Hfuel.
  assert (Hends : endsWith (fun st' => Table.skippedFields (tbl st') = []
                                       /\ exists clones, heap st' = h ++ clones)
                    (init2 E reg fuel (mkState h t))).
  { unfold init2.
    eapply endsWith_bind.
    { apply (initInlinesLoop_ends E reg h U M); [done | done |].
      exists []. simpl. by rewrite app_nil_r. }
    intros st1 [Hext1 _].
    eapply endsWith_bind.
    { apply (initRelationsLoop_ends E reg h U M); [done | done | done | lia]. }
    intros st2 Hext2. simpl. done. }
  destruct (init2 E reg fuel (mkState h t)) as [st' | msg |]; simpl in Hends;
    [left | right | done]; eauto.
Qed.

Lemma removeField_elem l x y : y ∈ l -> y <> x -> y ∈ removeField l x.
Proof.
  induction l as [| z l IH]; simpl; [done |].
  intros Hin Hne. destruct (decide (z = x)) as [-> | Hzx].
  - apply elem_of_cons in Hin as [-> | Hin]; done.
  - apply elem_of_cons in Hin as [-> | Hin]; [by left | right; by apply IH].
Qed.

Lemma removeField_at l i x :
  l !! i = Some x -> x ∉ take i l -> removeField l x = take i l ++ drop (S i) l.
Proof.
  revert i. induction l as [| y l IH]; intros [| i]; simpl; try done.
  - intros [= ->] _. by destruct (decide (x = x)).
  - intros Hl Hnot. apply not_elem_of_cons in Hnot as [Hne Hnot].
    destruct (decide (y = x)); [done |]. by rewrite (IH i).
Qed.

Lemma set_FieldMap_projections m t t' :
  Table.set_FieldMap m t' = t ->
  Table.Fields t' = Table.Fields t
  /\ Table.PKs t' = Table.PKs t
  /\ Table.DataFields t' = Table.DataFields t
  /\ Table.allFields t' = Table.allFields t
  /\ Table.Relations t' = Table.Relations t.
Proof. intros <-. done. Qed.

Lemma relating_inlined E st0 i st st' :
  relating st0 i st -> inlined E st st' -> relating st0 i st'.
Proof.
  intros [(e0 & He0) Hsub Hfil Hseen Hpk Hall Hnd Hds Hgone] [(e & He & _) _ _ Ht].
  apply set_FieldMap_projections in Ht as (HF & HP & HD & HA & HR).
  split; rewrite ?HF, ?HP, ?HD, ?HA, ?HR; try done.
  exists (e0 ++ e). by rewrite He, He0, app_assoc.
Qed.

Lemma relating_start st : NoDup (Table.DataFields (tbl st)) -> relating st 0 st.
Proof.
  intros Hnd. split; try done.
  exists []. by rewrite app_nil_r.
Qed.

(** One turn of the loop, up to the call of inlineFields. *)
Lemma relating_turn E reg st0 i st f isRel st1 :
  (forall p, p ∈ Table.Fields (tbl st0) -> p < length (heap st0)) ->
  relating st0 i st ->
  Table.Fields (tbl st) !! i = Some f ->
  tryRelation E reg f st = Done (isRel, st1) ->
  let next :=
    if isRel
    then (i, onTable (fun t =>
                Table.set_DataFields (removeField (Table.DataFields t) f)
                  (Table.set_Fields (removeField (Table.Fields t) f) t)) st1)
    else (S i, st1) in
  relating st0 next.1 next.2.
Proof.
  intros Hvalid [(e0 & He0) Hsub Hfil Hseen Hpk Hall Hnd Hds Hgone] Hf Htry.
  pose proof (tryRelation_ends E reg f st) as Hends. rewrite Htry in Hends.
  simpl in Hends. destruct Hends as (Hb & Hheap & Hrel).
  assert (Hf0 : f ∈ Table.Fields (tbl st0))
    by (apply Hsub; by eapply list_elem_of_lookup_2).
  assert (Hderef : deref (heap st) f = deref (heap st0) f).
  { rewrite He0. apply deref_app. by apply Hvalid. }
  rewrite Hderef in Hb, Hrel.
  assert (Hsplit : Table.Fields (tbl st)
                   = take i (Table.Fields (tbl st)) ++ f :: drop (S i) (Table.Fields (tbl st))).
  { by rewrite <- (take_drop_middle _ _ _ Hf) at 1. }
  destruct isRel; simpl.
  - destruct Hrel as (rel & Hfield & Hfree & Htbl).
    assert (Hnotseen : f ∉ take i (Table.Fields (tbl st))).
    { intros Hin. rewrite Forall_forall in Hseen. apply Hseen in Hin. congruence. }
    assert (Hrm : removeField (Table.Fields (tbl st)) f
                  = take i (Table.Fields (tbl st)) ++ drop (S i) (Table.Fields (tbl st)))
      by (by apply removeField_at).
    assert (Hilen : i < length (Table.Fields (tbl st))) by (by eapply lookup_lt_Some).
    split; simpl; rewrite ?Htbl; simpl.
    + exists e0. by rewrite Hheap.
    + intros p Hp. apply Hsub. by eapply removeField_subseteq.
    + rewrite Hrm, filter_app, <- Hfil. rewrite Hsplit at 3.
      rewrite filter_app, filter_cons_False; [done |]. congruence.
    + rewrite Hrm. rewrite take_app_le by (rewrite length_take; lia).
      rewrite take_take. by rewrite Nat.min_id.
    + done.
    + done.
    + by apply removeField_NoDup.
    + intros p Hp. apply Hds. by eapply removeField_subseteq.
    + intros p Hp0 Hprel Hout. destruct (decide (p = f)) as [-> | Hne].
      * split; [by apply removeField_NoDup |].
        exists rel. by rewrite lookup_insert_eq.
      * assert (Hout' : p ∉ Table.Fields (tbl st)).
        { intros Hin. apply Hout. by apply removeField_elem. }
        destruct (Hgone p Hp0 Hprel Hout') as (Hd & r & Hr & Hrf).
        split.
        -- intros Hin. apply Hd. by eapply removeField_subseteq.
        -- exists r. rewrite lookup_insert_ne; [done |]. congruence.
  - subst st1. split; try done.
    + by exists e0.
    + rewrite (take_S_r _ _ _ Hf). apply Forall_app. split; [done |].
      constructor; [done | constructor].
Qed.

Lemma initRelationsLoop_relating E reg fuel st0 st' :
  (forall p, p ∈ Table.Fields (tbl st0) -> p < length (heap st0)) ->
  forall n i st,
    relating st0 i st ->
    initRelationsLoop E reg fuel n i st = Done st' ->
    exists j, relating st0 j st' /\ length (Table.Fields (tbl st')) <= j.
Proof.
  intros Hvalid. induction n as [| n IH]; intros i st Hinv Hrun.
  - simpl in Hrun. destruct (Table.Fields (tbl st) !! i) eqn:Hf; [done |].
    injection Hrun as <-. exists i. split; [done |]. by apply lookup_ge_None.
  - cbn [initRelationsLoop] in Hrun.
    destruct (Table.Fields (tbl st) !! i) as [f |] eqn:Hf.
    2:{ injection Hrun as <-. exists i. split; [done |]. by apply lookup_ge_None. }
    destruct (tryRelation E reg f st) as [[isRel st1] | |] eqn:Htry; try done.
    cbn [mbind outcome_bind bind] in Hrun.
    pose proof (relating_turn E reg st0 i st f isRel st1 Hvalid Hinv Hf Htry) as Hturn.
    cbv zeta in Hturn.
    destruct (if isRel
              then (i, onTable (fun t =>
                          Table.set_DataFields (removeField (Table.DataFields t) f)
                            (Table.set_Fields (removeField (Table.Fields t) f) t)) st1)
              else (S i, st1)) as [i' st2].
    simpl in Hturn.
    destruct (bool_decide _); [| by eapply IH].
    destruct (inlineFields E reg fuel f None st2) as [[path' st3] | |] eqn:Hinl; try done.
    cbn [mbind outcome_bind bind] in Hrun.
    apply inlineFields_inlined in Hinl as [Hin _].
    eapply IH; [| exact Hrun]. by eapply relating_inlined.
Qed.

(** X11.  When initRelations returns, the fields with a rel or m2m
    option are exactly the ones it has taken out of [Fields]: what is
    left are the other fields, in their order.  Every field taken out is
    also out of [DataFields] and has its relation registered under its
    Go name; [PKs] and [allFields] are not touched, so a relation field
    tagged pk stays a primary key. *)
Theorem initRelations_splits_fields (E : Env) (reg : Tables) (fuel : nat)
    (st st' : State) :
  initRelations E reg fuel st = Done st' ->
  (forall p, p ∈ Table.Fields (tbl st) -> p < length (heap st)) ->
  NoDup (Table.DataFields (tbl st)) ->
  Table.Fields (tbl st')
  = filter (fun p => isRelationField (deref (heap st) p) = false) (Table.Fields (tbl st))
  /\ Table.PKs (tbl st') = Table.PKs (tbl st)
  /\ Table.allFields (tbl st') = Table.allFields (tbl st)
  /\ Table.DataFields (tbl st') ⊆ Table.DataFields (tbl st)
  /\ (forall p, p ∈ Table.Fields (tbl st) ->
        isRelationField (deref (heap st) p) = true ->
        (p ∉ Table.DataFields (tbl st'))
        /\ exists r, Table.Relations (tbl st') !! Field.GoName (deref (heap st) p) = Some r
                     /\ Relation.Field r = p).
Proof.
  intros Hrun Hvalid Hnd. unfold initRelations in Hrun.
  destruct (initRelationsLoop_relating E reg fuel st st' Hvalid _ 0 st
              (relating_start st Hnd) Hrun)
    as (j & [_ Hsub Hfil Hseen Hpk Hall _ Hds Hgone] & Hj).
  rewrite take_ge in Hseen by done.
  assert (HF : Table.Fields (tbl st')
               = filter (fun p => isRelationField (deref (heap st) p) = false)
                   (Table.Fields (tbl st))).
  { rewrite <- Hfil. clear -Hseen. induction Hseen as [| p l Hp Hl IH]; [done |].
    rewrite filter_cons_True by done. by rewrite <- IH. }
  split; [exact HF |]. split; [done |]. split; [done |]. split; [done |].
  intros p Hp Hrel. apply Hgone; [done | done |].
  rewrite HF. intros Hin. apply list_elem_of_filter in Hin as [Hno _]. congruence.
Qed.

(** ** Phase 1: Fields, PKs, DataFields, skipped and unexported fields *)

Lemma filter_ext_elem {A} (P Q : A -> Prop) `{!forall x, Decision (P x)}
    `{!forall x, Decision (Q x)} (l : list A) :
  (forall x, x ∈ l -> P x <-> Q x) -> filter P l = filter Q l.
Proof.
  induction l as [| a l IH]; intros Hpq; [done |].
  assert (Hl : filter P l = filter Q l).
  { apply IH. intros x Hx. apply Hpq. by right. }
  destruct (decide (P a)) as [Ha | Ha].
  - rewrite !filter_cons_True; [by rewrite Hl | | done]. apply Hpq; [by left | done].
  - rewrite !filter_cons_False; [done | | done].
    intros Hq. apply Ha, Hpq; [by left | done].
Qed.

Lemma filter_removeField (P : ptr -> Prop) `{!forall x, Decision (P x)} l x :
  filter P (removeField l x) = removeField (filter P l) x.
Proof.
  induction l as [| y l IH]; simpl; [done |].
  destruct (decide (y = x)) as [-> | Hne].
  - destruct (decide (P x)) as [Hx | Hx].
    + rewrite filter_cons_True by done. simpl. by destruct (decide (x = x)).
    + rewrite filter_cons_False by done.
      rewrite removeField_notin; [done |].
      intros Hin. by apply list_elem_of_filter in Hin as [? _].
  - destruct (decide (P y)) as [Hy | Hy].
    + rewrite !filter_cons_True by done. simpl.
      destruct (decide (y = x)); [done |]. by rewrite IH.
    + rewrite !filter_cons_False by done. done.
Qed.

Lemma filter_removeField_other (P : ptr -> Prop) `{!forall x, Decision (P x)} l x :
  ~ P x -> filter P (removeField l x) = filter P l.
Proof.
  intros Hx. rewrite filter_removeField. apply removeField_notin.
  intros Hin. by apply list_elem_of_filter in Hin as [? _].
Qed.

Lemma makeField_StructField E f index : Field.StructField (makeField E f index) = f.
Proof. unfold makeField. repeat (case_match; simpl); reflexivity. Qed.

Lemma created_skipped E f index st :
  Table.skippedFields
    (tbl match createField E f index st with
         | (Some field, st) => addField field st
         | (None, st) => st
         end)
  = Table.skippedFields (tbl st) ++ (if isSkipped E f then [length (heap st)] else []).
Proof.
  unfold createField, alloc, isSkipped, addField.
  repeat (case_match; simpl in *; simplify_eq); rewrite ?app_nil_r; done.
Qed.

Lemma processBaseModelField_skipped E f t :
  Table.skippedFields (processBaseModelField E f t) = Table.skippedFields t.
Proof. unfold processBaseModelField, setName. repeat (case_match; simpl); done. Qed.

Lemma discovered_same st st' :
  discovered st ->
  heap st' = heap st ->
  Table.Fields (tbl st') = Table.Fields (tbl st) ->
  Table.PKs (tbl st') = Table.PKs (tbl st) ->
  Table.DataFields (tbl st') = Table.DataFields (tbl st) ->
  Table.allFields (tbl st') = Table.allFields (tbl st) ->
  Table.skippedFields (tbl st') = Table.skippedFields (tbl st) ->
  Table.FieldMap (tbl st') = Table.FieldMap (tbl st) ->
  discovered st'.
Proof.
  intros [H1 H2 H3 H4 H5 H6 H7 H8] Hh HF HP HD HA HS HM.
  split; rewrite ?Hh, ?HF, ?HP, ?HD, ?HA, ?HS, ?HM; done.
Qed.

Lemma discovered_removeField st prior :
  discovered st -> discovered (Table_removeField prior st).
Proof.
  intros [H1 H2 H3 H4 H5 H6 H7 H8]. unfold Table_removeField.
  destruct (Field.IsPK (deref (heap st) prior)) eqn:Hpk; split; simpl; try done.
  - by apply removeField_NoDup.
  - intros p Hp. apply H4. by eapply removeField_subseteq.
  - rewrite H5. by rewrite filter_removeField.
  - rewrite H6. symmetry. apply filter_removeField_other. congruence.
  - intros k p Hk. apply lookup_delete_Some in Hk as [_ Hk]. by eapply H8.
  - by apply removeField_NoDup.
  - intros p Hp. apply H4. by eapply removeField_subseteq.
  - rewrite H5. symmetry. apply filter_removeField_other. congruence.
  - rewrite H6. by rewrite filter_removeField.
  - intros k p Hk. apply lookup_delete_Some in Hk as [_ Hk]. by eapply H8.
Qed.

Lemma discovered_created E f index st :
  discovered st ->
  reflect.PkgPath f = "" ->
  discovered (match createField E f index st with
              | (Some field, st) => addField field st
              | (None, st) => st
              end).
Proof.
  intros [H1 H2 H3 H4 H5 H6 H7 H8] Hpkg.
  pose proof (discover_created E f index st) as (Hh & HM & HA & HF & HP & HD).
  pose proof (created_skipped E f index st) as HS.
  set (st1 := match createField E f index st with
              | (Some field, st) => addField field st
              | (None, st) => st
              end) in *.
  set (new := length (heap st)) in *.
  assert (Hnew : deref (heap st1) new = makeField E f index)
    by (by rewrite Hh, deref_alloc).
  assert (Hold : forall p, p < length (heap st) -> deref (heap st1) p = deref (heap st) p).
  { intros p Hlt. rewrite Hh. by apply deref_app. }
  assert (Hlen : length (heap st1) = S new).
  { rewrite Hh, length_app. simpl. lia. }
  assert (Hfv : forall p, p ∈ Table.Fields (tbl st) -> p < new).
  { intros p Hp. apply H1. by apply H4. }
  assert (Hfresh : new ∉ Table.Fields (tbl st)).
  { intros Hin. apply Hfv in Hin. lia. }
  assert (Hpk' : filter (fun p => Field.IsPK (deref (heap st1) p) = true)
                   (Table.Fields (tbl st)) = Table.PKs (tbl st)).
  { rewrite H5. apply filter_ext_elem. intros p Hp. by rewrite Hold by by apply Hfv. }
  assert (Hdt' : filter (fun p => Field.IsPK (deref (heap st1) p) = false)
                   (Table.Fields (tbl st)) = Table.DataFields (tbl st)).
  { rewrite H6. apply filter_ext_elem. intros p Hp. by rewrite Hold by by apply Hfv. }
  assert (Hskip : isSkipped E f = String.eqb (Tag.Name (Field.Tag (makeField E f index))) "-").
  { by rewrite makeField_Tag. }
  split.
  - intros p. rewrite HA, elem_of_app, Hlen. intros [Hp | Hp].
    + apply H1 in Hp. fold new in Hp. lia.
    + apply list_elem_of_singleton in Hp as ->. lia.
  - intros p. rewrite HA, elem_of_app. intros [Hp | Hp].
    + rewrite Hold by by apply H1. by apply H2.
    + apply list_elem_of_singleton in Hp as ->. by rewrite Hnew, makeField_StructField.
  - rewrite HF. destruct (isSkipped E f); [by rewrite app_nil_r |].
    apply NoDup_app. split; [done |]. split; [| apply NoDup_singleton].
    intros p Hp Hp'. apply list_elem_of_singleton in Hp' as ->. done.
  - intros p. rewrite HF, HA, !elem_of_app. intros [Hp | Hp].
    + destruct (H4 p Hp) as [Hall Htag]. rewrite Hold by by apply Hfv. auto.
    + destruct (isSkipped E f) eqn:Hs; [by apply elem_of_nil in Hp |].
      apply list_elem_of_singleton in Hp as ->. split; [right; by left |].
      rewrite Hnew. symmetry in Hskip. by apply String.eqb_neq in Hskip.
  - rewrite HP, HF, filter_app, Hpk'. f_equal.
    destruct (isSkipped E f); simpl; [done |].
    destruct (Field.IsPK (makeField E f index)) eqn:Hpk.
    + rewrite filter_cons_True by (by rewrite Hnew). done.
    + rewrite filter_cons_False by (rewrite Hnew; congruence). done.
  - rewrite HD, HF, filter_app, Hdt'. f_equal.
    destruct (isSkipped E f); simpl; [done |].
    destruct (Field.IsPK (makeField E f index)) eqn:Hpk.
    + rewrite filter_cons_False by (rewrite Hnew; congruence). done.
    + rewrite filter_cons_True by (by rewrite Hnew). done.
  - intros p. rewrite HS, HA, !elem_of_app. intros [Hp | Hp].
    + destruct (H7 p Hp) as [Hall Htag]. rewrite Hold by by apply H1. auto.
    + destruct (isSkipped E f) eqn:Hs; [| by apply elem_of_nil in Hp].
      apply list_elem_of_singleton in Hp as ->. split; [right; by left |].
      rewrite Hnew. symmetry in Hskip. by apply String.eqb_eq in Hskip.
  - intros k p. rewrite HM, HA, elem_of_app. unfold aliasInsert.
    intros Hk. apply lookup_insert_Some in Hk as [[_ <-] | [_ Hk]].
    { right. by left. }
    destruct (Tag.Options (Parse E (reflect.TagBun f)) !! "alias") as [v |].
    + apply lookup_insert_Some in Hk as [[_ <-] | [_ Hk]]; [right; by left |].
      left. by eapply H8.
    + left. by eapply H8.
Qed.

Lemma discovered_step E reg rec base i f0 st st' :
  scanning rec ->
  discovering rec ->
  scanned st (base ++ [i]) ->
  discovered st ->
  addFieldsStep E reg rec base i f0 st = Some st' ->
  discovered st'.
Proof.
  intros Hrec Hrec' Hsc Hdv. destruct (reflect.Anonymous f0) eqn:Hanon.
  - unfold addFieldsStep. simpl. rewrite Hanon.
    destruct (String.eqb (reflect.TagBun f0) "-"); [by intros [= <-] |].
    destruct (String.eqb (reflect.Name f0) "BaseModel").
    { intros [= <-]. destruct (length base =? 0)%nat; [| done].
      pose proof (processBaseModelField_lists E (reflect.withIndex f0 [i]) (tbl st))
        as (? & ? & ? & ? & ? & _).
      apply (discovered_same st); try done.
      apply processBaseModelField_skipped. }
    destruct (negb _); [by intros [= <-] |].
    destruct (rec _ _ st) as [st1 |] eqn:Hr; [| done].
    assert (Hdv1 : discovered st1).
    { eapply Hrec'; [| exact Hdv | exact Hr].
      apply (scanned_mono _ (base ++ [i])); [done |]. intros x. apply lexlt_app_r. }
    destruct (Tag.HasOption _ "inherit"); intros [= <-]; [| done].
    by apply (discovered_same st1).
  - rewrite (addFieldsStep_plain _ _ _ _ _ _ _ Hanon).
    intros [= <-]. set (f := reflect.withIndex f0 [i]).
    destruct (decide (reflect.PkgPath f = "")) as [Hpkg | Hpkg].
    + destruct (fieldWithLock (tbl st) (columnName E f)) as [prior |] eqn:Hprior.
      * destruct (decide (Field.Index (deref (heap st) prior) = base ++ reflect.Index f))
          as [Hix | Hix].
        -- exfalso. destruct (sc_map _ _ Hsc _ _ Hprior) as [_ Hlt].
           rewrite Hix in Hlt. by apply lexlt_irrefl in Hlt.
        -- rewrite (newField_other_path E f base st prior Hpkg Hprior Hix).
           apply discovered_created; [| done]. by apply discovered_removeField.
      * rewrite (newField_unregistered E f base st Hpkg Hprior).
        by apply discovered_created.
    + unfold newField. apply String.eqb_neq in Hpkg. rewrite Hpkg. simpl. done.
Qed.

Lemma discovered_loop E reg rec base fs : forall i st st',
  scanning rec ->
  discovering rec ->
  scanned st (base ++ [i]) ->
  discovered st ->
  addFieldsLoop E reg rec base i fs st = Some st' ->
  discovered st'.
Proof.
  induction fs as [| f fs IH]; intros i st st' Hrec Hrec' Hsc Hdv; simpl.
  - by intros [= <-].
  - destruct (addFieldsStep E reg rec base i f st) as [st1 |] eqn:Hstep; [| done].
    intros Hloop.
    pose proof (scanned_step _ _ _ _ _ _ _ _ Hrec Hsc Hstep) as Hsc1.
    pose proof (discovered_step _ _ _ _ _ _ _ _ Hrec Hrec' Hsc Hdv Hstep) as Hdv1.
    by apply (IH (S i) st1 st').
Qed.

Lemma addFields_discovering E reg fuel : discovering (addFields E reg fuel).
Proof.
  induction fuel as [| fuel IH]; intros typ base st st' Hsc Hdv; simpl; [done |].
  apply (discovered_loop E reg _ base _ 0 st st'); try done.
  apply addFields_scanning.
Qed.

Lemma discovered_fresh (E : Env) (typ : rtype) (h0 : Heap) :
  discovered (mkState h0 (newTable E typ)).
Proof.
  destruct (newTable_fresh E typ) as (_ & HF & HP & HD & HM & HA & HS & _).
  split; cbn [heap tbl]; rewrite ?HF, ?HP, ?HD, ?HM, ?HA, ?HS; try done.
  - intros p Hp. by apply elem_of_nil in Hp.
  - intros p Hp. by apply elem_of_nil in Hp.
  - constructor.
  - intros p Hp. by apply elem_of_nil in Hp.
  - intros p Hp. by apply elem_of_nil in Hp.
Qed.

Lemma pkFallback_none (st : State) :
  conventionalKey (tbl st) = None ->
  pkFallback ["id"; "uuid"; "pk_" +:+ Table.ModelName (tbl st)] st = st.
Proof.
  unfold conventionalKey. simpl.
  destruct (Table.FieldMap (tbl st) !! "id") as [p |]; [done |].
  destruct (Table.FieldMap (tbl st) !! "uuid") as [p |]; [done |].
  by intros ->.
Qed.

(** What initFields makes of the state after the scan. *)
Lemma initFields_fresh E reg fuel typ h0 st' :
  initFields E reg fuel (mkState h0 (newTable E typ)) = Some st' ->
  exists st1,
    addFields E reg fuel typ [] (mkState h0 (newTable E typ)) = Some st1
    /\ (st' = st1
        \/ exists f,
             Table.PKs (tbl st1) = []
             /\ conventionalKey (tbl st1) = Some f
             /\ st' = mkState
                        (store (heap st1) f
                           (Field.set_AutoIncrement true (markAsPK (deref (heap st1) f))))
                        (Table.set_DataFields (removeField (Table.DataFields (tbl st1)) f)
                           (Table.set_PKs [f] (tbl st1)))).
Proof.
  set (st0 := mkState h0 (newTable E typ)).
  destruct (newTable_fresh E typ) as (Htyp & HF & _ & _ & HM & _).
  assert (Hreset : onTable (fun t => Table.set_FieldMap ∅ (Table.set_Fields [] t)) st0
                   = st0).
  { unfold onTable, st0. simpl. by rewrite reset_fresh. }
  unfold initFields. rewrite Hreset.
  change (Table.Typ (tbl st0)) with (Table.Typ (newTable E typ)). rewrite Htyp.
  destruct (addFields E reg fuel typ [] st0) as [st1 |] eqn:Hscan; [| done].
  pose proof (addFields_scanning E reg fuel typ [] st0 st1
                (scanned_fresh E typ h0) Hscan) as [n Hsc].
  destruct (Table.PKs (tbl st1)) as [| pk0 pks] eqn:Hpks.
  2:{ simpl. intros [= <-]. exists st1. split; [done | by left]. }
  change (0 <? length (@nil ptr))%nat with false. cbv iota zeta.
  destruct (conventionalKey (tbl st1)) as [f |] eqn:Hkey.
  - rewrite (pkFallback_conventional st1 f Hkey). simpl.
    intros [= <-]. exists st1. split; [done |]. right. exists f.
    split; [done |]. split; [done |].
    assert (Hvalid : f < length (heap st1)).
    { unfold conventionalKey in Hkey.
      destruct (Table.FieldMap (tbl st1) !! "id") as [p |] eqn:H1.
      { injection Hkey as ->. by destruct (sc_map _ _ Hsc _ _ H1). }
      destruct (Table.FieldMap (tbl st1) !! "uuid") as [p |] eqn:H2.
      { injection Hkey as ->. by destruct (sc_map _ _ Hsc _ _ H2). }
      by destruct (sc_map _ _ Hsc _ _ Hkey). }
    by rewrite deref_store_twice, deref_store_eq.
  - rewrite (pkFallback_none st1 Hkey), Hpks.
    intros [= <-]. exists st1. split; [done | by left].
Qed.

Lemma conventionalKey_registered t f :
  conventionalKey t = Some f -> exists k, Table.FieldMap t !! k = Some f.
Proof.
  unfold conventionalKey.
  destruct (Table.FieldMap t !! "id") as [p |] eqn:H1; [intros [= ->]; eauto |].
  destruct (Table.FieldMap t !! "uuid") as [p |] eqn:H2; [intros [= ->]; eauto |].
  eauto.
Qed.

Lemma filter_only (l : list ptr) (f : ptr) :
  NoDup l -> f ∈ l -> filter (fun p => p = f) l = [f].
Proof.
  induction 1 as [| x l Hx Hl IH]; [by intros ?%elem_of_nil |].
  intros Hin. destruct (decide (x = f)) as [-> | Hne].
  - rewrite filter_cons_True by done. f_equal.
    clear -Hx. induction l as [| y l IH]; [done |].
    apply not_elem_of_cons in Hx as [Hne Hx].
    rewrite filter_cons_False by done. by apply IH.
  - rewrite filter_cons_False by done. apply IH.
    apply elem_of_cons in Hin as [-> | Hin]; done.
Qed.

Lemma filter_other (l : list ptr) (f : ptr) :
  NoDup l -> filter (fun p => p <> f) l = removeField l f.
Proof.
  induction 1 as [| x l Hx Hl IH]; [done |]. simpl.
  destruct (decide (x = f)) as [-> | Hne].
  - rewrite filter_cons_False by (intros H; by apply H).
    clear -Hx. induction l as [| y l IH]; [done |].
    apply not_elem_of_cons in Hx as [Hne Hx].
    rewrite filter_cons_True by done. f_equal. by apply IH.
  - rewrite filter_cons_True by done. by rewrite IH.
Qed.

(** The state after the fallback: the chosen field is marked, the
    other objects of the store are as they were. *)
Lemma discovered_fallback st1 f :
  discovered st1 ->
  Table.PKs (tbl st1) = [] ->
  f ∈ Table.allFields (tbl st1) ->
  let st' := mkState
               (store (heap st1) f
                  (Field.set_AutoIncrement true (markAsPK (deref (heap st1) f))))
               (Table.set_DataFields (removeField (Table.DataFields (tbl st1)) f)
                  (Table.set_PKs [f] (tbl st1))) in
  (forall p, Field.StructField (deref (heap st') p) = Field.StructField (deref (heap st1) p)
             /\ Field.Tag (deref (heap st') p) = Field.Tag (deref (heap st1) p)
             /\ Field.IsPK (deref (heap st') p)
                = (if decide (p = f) then true else Field.IsPK (deref (heap st1) p)))
  /\ length (heap st') = length (heap st1)
  /\ Table.DataFields (tbl st')
     = filter (fun p => Field.IsPK (deref (heap st') p) = false) (Table.Fields (tbl st'))
  /\ (f ∈ Table.Fields (tbl st1) ->
      Table.PKs (tbl st')
      = filter (fun p => Field.IsPK (deref (heap st') p) = true) (Table.Fields (tbl st'))).
Proof.
  intros [H1 H2 H3 H4 H5 H6 H7 H8] Hpks Hall st'.
  assert (Hvalid : f < length (heap st1)) by (by apply H1).
  assert (Hderef : forall p,
             Field.StructField (deref (heap st') p) = Field.StructField (deref (heap st1) p)
             /\ Field.Tag (deref (heap st') p) = Field.Tag (deref (heap st1) p)
             /\ Field.IsPK (deref (heap st') p)
                = (if decide (p = f) then true else Field.IsPK (deref (heap st1) p))).
  { intros p. unfold st'. cbn [heap]. destruct (decide (p = f)) as [-> | Hne].
    - by rewrite deref_store_eq.
    - by rewrite deref_store_ne. }
  assert (Hnone : forall p, p ∈ Table.Fields (tbl st1) ->
                            Field.IsPK (deref (heap st1) p) = false).
  { intros p Hp. destruct (Field.IsPK (deref (heap st1) p)) eqn:Hpk; [| done].
    assert (Hin : p ∈ Table.PKs (tbl st1)) by (rewrite H5; by apply list_elem_of_filter).
    rewrite Hpks in Hin. by apply elem_of_nil in Hin. }
  assert (Hdata : Table.DataFields (tbl st1) = Table.Fields (tbl st1)).
  { rewrite H6. clear -Hnone. induction (Table.Fields (tbl st1)) as [| x l IH]; [done |].
    rewrite filter_cons_True by (apply Hnone; by left).
    f_equal. apply IH. intros p Hp. apply Hnone. by right. }
  assert (HFs : Table.Fields (tbl st') = Table.Fields (tbl st1)) by reflexivity.
  assert (HDs : Table.DataFields (tbl st') = removeField (Table.DataFields (tbl st1)) f)
    by reflexivity.
  assert (HPs : Table.PKs (tbl st') = [f]) by reflexivity.
  assert (Hlen : length (heap st') = length (heap st1)).
  { unfold st', store. cbn [heap]. by rewrite length_insert. }
  clearbody st'.
  split; [exact Hderef |]. split; [exact Hlen |]. split.
  - rewrite HDs, HFs, Hdata, <- (filter_other _ f H3).
    apply filter_ext_elem. intros p Hp. destruct (Hderef p) as (_ & _ & ->).
    destruct (decide (p = f)) as [-> | Hne]; [split; [done | done] |].
    by rewrite Hnone.
  - intros Hin. rewrite HPs, HFs, <- (filter_only _ f H3 Hin).
    apply filter_ext_elem. intros p Hp. destruct (Hderef p) as (_ & _ & ->).
    destruct (decide (p = f)) as [-> | Hne]; [done |].
    rewrite Hnone by done. split; [done | done].
Qed.

(** X12.  After initFields on a new table, [Fields] has no field twice
    and [DataFields] is exactly the fields of [Fields] that are not
    marked as primary keys, in the order of [Fields].  [PKs] is exactly
    the fields of [Fields] that are marked, in that order, with one
    exception: when no field is tagged pk and the field map leads under
    id, uuid or pk_ + model name to a field that is not in [Fields] (a
    skipped field, or one that was replaced and is still registered
    under an alias), that field becomes the only primary key although it
    is not a column. *)
Theorem initFields_partitions_fields (E : Env) (reg : Tables) (fuel : nat)
    (typ : rtype) (h0 : Heap) (st' : State) :
  initFields E reg fuel (mkState h0 (newTable E typ)) = Some st' ->
  NoDup (Table.Fields (tbl st'))
  /\ Table.DataFields (tbl st')
     = filter (fun p => Field.IsPK (deref (heap st') p) = false) (Table.Fields (tbl st'))
  /\ (Table.PKs (tbl st')
      = filter (fun p => Field.IsPK (deref (heap st') p) = true) (Table.Fields (tbl st'))
      \/ exists f,
           Table.PKs (tbl st') = [f]
           /\ (f ∉ Table.Fields (tbl st'))
           /\ f ∈ Table.allFields (tbl st')
           /\ Field.IsPK (deref (heap st') f) = true
           /\ forall p, p ∈ Table.Fields (tbl st') ->
                        Field.IsPK (deref (heap st') p) = false).
Proof.
  intros Hinit. apply initFields_fresh in Hinit as (st1 & Hscan & Hst').
  pose proof (addFields_discovering E reg fuel typ [] _ st1
                (scanned_fresh E typ h0) (discovered_fresh E typ h0) Hscan) as Hdv.
  destruct Hst' as [-> | (f & Hpks & Hkey & ->)].
  { destruct Hdv. split; [done |]. split; [done | by left]. }
  destruct (conventionalKey_registered _ _ Hkey) as [k Hk].
  assert (Hall : f ∈ Table.allFields (tbl st1)) by (by eapply (dv_map _ Hdv)).
  destruct (discovered_fallback st1 f Hdv Hpks Hall) as (Hderef & _ & Hdata & Hpk).
  split; [exact (dv_nodup _ Hdv) |]. split; [exact Hdata |].
  destruct (decide (f ∈ Table.Fields (tbl st1))) as [Hin | Hout].
  - left. by apply Hpk.
  - right. exists f. split; [done |]. split; [done |]. split; [done |].
    split.
    + destruct (Hderef f) as (_ & _ & ->). by destruct (decide (f = f)).
    + intros p Hp. cbn [tbl] in Hp. simpl in Hp.
      destruct (Hderef p) as (_ & _ & ->).
      destruct (decide (p = f)) as [-> | _]; [done |].
      destruct (Field.IsPK (deref (heap st1) p)) eqn:Hpkp; [| done].
      assert (Hin : p ∈ Table.PKs (tbl st1)).
      { rewrite (dv_pks _ Hdv). by apply list_elem_of_filter. }
      rewrite Hpks in Hin. by apply elem_of_nil in Hin.
Qed.

(** X13.  After initFields on a new table, every discovered field is
    allocated and is a field of an exported struct member: unexported
    members never enter the table.  A member whose tag name is the dash
    is skipped: it is in [allFields] and [skippedFields] and never in
    [Fields] (so never in [PKs] by tag or in [DataFields]), and every
    field of [Fields] is a discovered field that is not skipped.  The
    field map leads to discovered fields only. *)
Theorem initFields_skips_and_exports (E : Env) (reg : Tables) (fuel : nat)
    (typ : rtype) (h0 : Heap) (st' : State) :
  initFields E reg fuel (mkState h0 (newTable E typ)) = Some st' ->
  (forall p, p ∈ Table.allFields (tbl st') ->
     p < length (heap st')
     /\ reflect.PkgPath (Field.StructField (deref (heap st') p)) = "")
  /\ (forall p, p ∈ Table.Fields (tbl st') ->
        p ∈ Table.allFields (tbl st')
        /\ Tag.Name (Field.Tag (deref (heap st') p)) <> "-")
  /\ (forall p, p ∈ Table.skippedFields (tbl st') ->
        p ∈ Table.allFields (tbl st')
        /\ Tag.Name (Field.Tag (deref (heap st') p)) = "-"
        /\ (p ∉ Table.Fields (tbl st')))
  /\ (forall k p, Table.FieldMap (tbl st') !! k = Some p ->
        p ∈ Table.allFields (tbl st')).
Proof.
  intros Hinit. apply initFields_fresh in Hinit as (st1 & Hscan & Hst').
  pose proof (addFields_discovering E reg fuel typ [] _ st1
                (scanned_fresh E typ h0) (discovered_fresh E typ h0) Hscan) as Hdv.
  assert (Hscan1 : (forall p, p ∈ Table.allFields (tbl st1) ->
                      p < length (heap st1)
                      /\ reflect.PkgPath (Field.StructField (deref (heap st1) p)) = "")
                   /\ (forall p, p ∈ Table.Fields (tbl st1) ->
                         p ∈ Table.allFields (tbl st1)
                         /\ Tag.Name (Field.Tag (deref (heap st1) p)) <> "-")
                   /\ (forall p, p ∈ Table.skippedFields (tbl st1) ->
                         p ∈ Table.allFields (tbl st1)
                         /\ Tag.Name (Field.Tag (deref (heap st1) p)) = "-"
                         /\ (p ∉ Table.Fields (tbl st1)))
                   /\ (forall k p, Table.FieldMap (tbl st1) !! k = Some p ->
                         p ∈ Table.allFields (tbl st1))).
  { destruct Hdv as [H1 H2 H3 H4 H5 H6 H7 H8].
    split; [intros p Hp; split; [by apply H1 | by apply H2] |].
    split; [exact H4 |]. split; [| exact H8].
    intros p Hp. destruct (H7 p Hp) as [Hall Htag]. split; [done |]. split; [done |].
    intros Hin. by destruct (H4 p Hin). }
  destruct Hst' as [-> | (f & Hpks & Hkey & ->)]; [exact Hscan1 |].
  destruct (conventionalKey_registered _ _ Hkey) as [k Hk].
  assert (Hall : f ∈ Table.allFields (tbl st1)) by (by eapply (dv_map _ Hdv)).
  destruct (discovered_fallback st1 f Hdv Hpks Hall) as (Hderef & Hlen & _ & _).
  destruct Hscan1 as (HA & HF & HS & HM).
  split; [| split; [| split]].
  - intros p Hp. rewrite Hlen. destruct (Hderef p) as (-> & _ & _). by apply HA.
  - intros p Hp. destruct (Hderef p) as (_ & -> & _). by apply HF.
  - intros p Hp. destruct (Hderef p) as (_ & -> & _). by apply HS.
  - exact HM.
Qed.

(** ** The hook flags *)

Lemma sameFlags_refl t : sameFlags t t.
Proof. done. Qed.

Lemma sameFlags_trans t1 t2 t3 : sameFlags t1 t2 -> sameFlags t2 t3 -> sameFlags t1 t3.
Proof. intros (? & ? & ?) (? & ? & ?). repeat split; congruence. Qed.

Lemma Table_removeField_flags prior st : sameFlags (tbl st) (tbl (Table_removeField prior st)).
Proof. unfold Table_removeField. by destruct (Field.IsPK _). Qed.

Lemma createField_flags E f index st :
  sameFlags (tbl st) (tbl match createField E f index st with
                          | (Some field, st) => addField field st
                          | (None, st) => st
                          end).
Proof.
  unfold createField, alloc, addField.
  repeat (case_match; simpl in *; simplify_eq); done.
Qed.

Lemma processBaseModelField_flags E f t : sameFlags t (processBaseModelField E f t).
Proof. unfold processBaseModelField, setName. repeat (case_match; simpl); done. Qed.

Lemma addFieldsStep_flags E reg rec base i f0 st st' :
  (forall typ base st st', rec typ base st = Some st' -> sameFlags (tbl st) (tbl st')) ->
  addFieldsStep E reg rec base i f0 st = Some st' ->
  sameFlags (tbl st) (tbl st').
Proof.
  intros Hrec. destruct (reflect.Anonymous f0) eqn:Hanon.
  - unfold addFieldsStep. simpl. rewrite Hanon.
    destruct (String.eqb (reflect.TagBun f0) "-"); [by intros [= <-] |].
    destruct (String.eqb (reflect.Name f0) "BaseModel").
    { intros [= <-]. destruct (length base =? 0)%nat; [| done].
      apply processBaseModelField_flags. }
    destruct (negb _); [by intros [= <-] |].
    destruct (rec _ _ st) as [st1 |] eqn:Hr; [| done].
    apply Hrec in Hr.
    destruct (Tag.HasOption _ "inherit"); intros [= <-]; [| done].
    eapply sameFlags_trans; [exact Hr | done].
  - rewrite (addFieldsStep_plain _ _ _ _ _ _ _ Hanon). intros [= <-].
    unfold newField.
    destruct (negb _); [apply sameFlags_refl |].
    destruct (fieldWithLock _ _) as [prior |]; [| apply createField_flags].
    destruct (indexEqual _ _); [unfold addField; simpl; by destruct (Field.IsPK _) |].
    eapply sameFlags_trans; [apply (Table_removeField_flags prior) | apply createField_flags].
Qed.

Lemma addFieldsLoop_flags E reg rec base fs : forall i st st',
  (forall typ base st st', rec typ base st = Some st' -> sameFlags (tbl st) (tbl st')) ->
  addFieldsLoop E reg rec base i fs st = Some st' ->
  sameFlags (tbl st) (tbl st').
Proof.
  induction fs as [| f fs IH]; intros i st st' Hrec; simpl; [by intros [= <-] |].
  destruct (addFieldsStep E reg rec base i f st) as [st1 |] eqn:Hstep; [| done].
  intros Hloop. eapply sameFlags_trans.
  - by eapply addFieldsStep_flags.
  - by eapply IH.
Qed.

Lemma addFields_flags E reg fuel : forall typ base st st',
  addFields E reg fuel typ base st = Some st' -> sameFlags (tbl st) (tbl st').
Proof.
  induction fuel as [| fuel IH]; intros typ base st st'; simpl; [done |].
  by apply addFieldsLoop_flags.
Qed.

Lemma initFields_flags E reg fuel typ h0 st' :
  initFields E reg fuel (mkState h0 (newTable E typ)) = Some st' ->
  sameFlags (newTable E typ) (tbl st').
Proof.
  intros Hinit. apply initFields_fresh in Hinit as (st1 & Hscan & Hst').
  apply addFields_flags in Hscan. cbn [tbl] in Hscan. destruct Hscan as (Ht & Hr & Hf).
  destruct Hst' as [-> | (f & _ & _ & ->)]; cbn [tbl];
    (split; [exact Ht | split; [exact Hr | exact Hf]]).
Qed.

Lemma Has_bit (z i : Z) : (0 <= i)%Z -> Flag.Has z (Z.shiftl 1 i) = Z.testbit z i.
Proof.
  intros Hi. unfold Flag.Has. rewrite Z.shiftl_1_l.
  destruct (Z.testbit z i) eqn:Hbit.
  - apply negb_true_iff, Z.eqb_neq. intros Hzero.
    assert (Hb : Z.testbit (Z.land z (2 ^ i)) i = true)
      by (by rewrite Z.land_spec, Hbit, Z.pow2_bits_true).
    rewrite Hzero, Z.bits_0 in Hb. discriminate.
  - apply negb_false_iff, Z.eqb_eq, Z.bits_inj'. intros n Hn.
    rewrite Z.land_spec, Z.bits_0, Z.pow2_bits_eqb by done.
    destruct (Z.eqb_spec i n) as [<- | Hne]; [by rewrite Hbit | apply andb_false_r].
Qed.

Lemma hooks_fold_bit (imp : Hook -> bool) (l : list (Hook * Z)) (z i : Z) :
  Z.testbit (foldl (fun z (hook : Hook * Z) =>
                      if imp hook.1 then Flag.Set_ z hook.2 else z) z l) i
  = Z.testbit z i || existsb (fun hook => Z.testbit hook.2 i && imp hook.1) l.
Proof.
  revert z. induction l as [| hk l IH]; intros z; simpl; [by rewrite orb_false_r |].
  rewrite IH. destruct (imp hk.1); simpl.
  - unfold Flag.Set_. rewrite Z.lor_spec, andb_true_r. by rewrite orb_assoc.
  - by rewrite andb_false_r.
Qed.

Lemma newTable_hook_bit E typ (i : Z) :
  Z.testbit (Table.flags (newTable E typ)) i
  = existsb (fun hook => Z.testbit hook.2 i && Implements E typ hook.1) hooks.
Proof. rewrite newTable_flags. rewrite (hooks_fold_bit (Implements E typ)). by rewrite Z.bits_0. Qed.

(** X14.  The hook flags are independent bits that newTable computes
    once: on the table of a type, each of the eight predicates other
    than HasBeforeInsertHook says exactly whether the type implements
    the predicate's own hook interface, whatever other hooks it
    implements; the before-insert bit of the flags is set exactly for
    the types that implement that hook, though no predicate reads it.
    Phase 1 changes neither the flags nor the type nor the relations, so
    the same holds of the table after initFields. *)
Theorem hook_predicates_report_interfaces (E : Env) (typ : rtype) :
  (forall t,
     Table.flags t = Table.flags (newTable E typ) ->
     HasBeforeScanHook t = Implements E typ beforeScanHookType
     /\ HasAfterScanHook t = Implements E typ afterScanHookType
     /\ HasAfterSelectHook t = Implements E typ afterSelectHookType
     /\ HasAfterInsertHook t = Implements E typ afterInsertHookType
     /\ HasBeforeUpdateHook t = Implements E typ beforeUpdateHookType
     /\ HasAfterUpdateHook t = Implements E typ afterUpdateHookType
     /\ HasBeforeDeleteHook t = Implements E typ beforeDeleteHookType
     /\ HasAfterDeleteHook t = Implements E typ afterDeleteHookType
     /\ Flag.Has (Table.flags t) beforeInsertHookFlag
        = Implements E typ beforeInsertHookType)
  /\ (forall reg fuel h0 st',
        initFields E reg fuel (mkState h0 (newTable E typ)) = Some st' ->
        Table.flags (tbl st') = Table.flags (newTable E typ)
        /\ Table.Typ (tbl st') = typ
        /\ Table.Relations (tbl st') = ∅).
Proof.
  split.
  - intros t Hflags.
    unfold HasBeforeScanHook, HasAfterScanHook, HasAfterSelectHook, HasAfterInsertHook,
      HasBeforeUpdateHook, HasAfterUpdateHook, HasBeforeDeleteHook, HasAfterDeleteHook.
    unfold beforeScanHookFlag, afterScanHookFlag, afterSelectHookFlag,
      beforeInsertHookFlag, afterInsertHookFlag, beforeUpdateHookFlag,
      afterUpdateHookFlag, beforeDeleteHookFlag, afterDeleteHookFlag.
    rewrite Hflags, !Has_bit by lia. rewrite !newTable_hook_bit.
    generalize (Implements E typ). intros imp. unfold hooks.
    unfold beforeScanHookFlag, afterScanHookFlag, afterSelectHookFlag,
      beforeInsertHookFlag, afterInsertHookFlag, beforeUpdateHookFlag,
      afterUpdateHookFlag, beforeDeleteHookFlag, afterDeleteHookFlag.
    cbn [existsb fst snd]. cbv [Z.testbit Z.shiftl Pos.testbit Z.shiftl Pos.iter Z.mul
                                 Pos.mul Z.opp Pos.pred_N Pos.testbit_nat Pos.succ andb orb].
    repeat split; match goal with |- context [imp ?h] => by destruct (imp h) end.
  - intros reg fuel h0 st' Hinit.
    apply initFields_flags in Hinit as (Ht & Hr & Hf).
    destruct (newTable_fresh E typ) as (Htyp & _ & _ & _ & _ & _ & _ & Hrel).
    split; [done |]. split; congruence.
Qed.

(** ** Phase 2: what it leaves as it is *)

Lemma phase2_refl E st : phase2 E st st.
Proof.
  split; try done.
  - exists []. by rewrite app_nil_r.
  - by destruct (tbl st).
Qed.

Lemma phase2_trans E st1 st2 st3 :
  phase2 E st1 st2 -> phase2 E st2 st3 -> phase2 E st1 st3.
Proof.
  intros [(e1 & He1 & Hc1) Ht1 Hm1 Hr1] [(e2 & He2 & Hc2) Ht2 Hm2 Hr2]. split.
  - exists (e1 ++ e2). rewrite He2, He1, app_assoc. split; [done | by apply Forall_app].
  - rewrite Ht2 at 1. rewrite Ht1. reflexivity.
  - intros k p H. by apply Hm2, Hm1.
  - intros k r H. by apply Hr2, Hr1.
Qed.

Lemma phase2_inlined E st st' : inlined E st st' -> phase2 E st st'.
Proof.
  intros [Hh Hk _ Ht]. split; try done.
  - rewrite <- Ht. by destruct (tbl st').
  - intros k r. by rewrite <- Ht.
Qed.

Lemma phase2_tryRelation E reg f st isRel st1 :
  tryRelation E reg f st = Done (isRel, st1) -> phase2 E st st1.
Proof.
  intros Htry. pose proof (tryRelation_ends E reg f st) as Hends.
  rewrite Htry in Hends. simpl in Hends. destruct Hends as (_ & Hheap & Hrel).
  destruct isRel; [| subst st1; apply phase2_refl].
  destruct Hrel as (rel & _ & Hfree & Htbl). split.
  - exists []. by rewrite app_nil_r.
  - rewrite Htbl. by destruct (tbl st).
  - intros k p. by rewrite Htbl.
  - intros k r Hk. rewrite Htbl. simpl. rewrite lookup_insert_ne; [done |]. congruence.
Qed.

Lemma phase2_remove E st f :
  phase2 E st
    (onTable (fun t => Table.set_DataFields (removeField (Table.DataFields t) f)
                         (Table.set_Fields (removeField (Table.Fields t) f) t)) st).
Proof.
  split; try done.
  exists []. by rewrite app_nil_r.
Qed.

Lemma initInlinesLoop_phase2 E reg fuel fs : forall st st',
  initInlinesLoop E reg fuel fs st = Done st' -> phase2 E st st'.
Proof.
  induction fs as [| f fs IH]; intros st st'; simpl.
  - intros [= <-]. apply phase2_refl.
  - destruct (bool_decide _); [| apply IH].
    destruct (inlineFields E reg fuel f None st) as [[path' st1] | |] eqn:Hinl; try done.
    cbn [mbind outcome_bind bind]. intros Hrun.
    apply inlineFields_inlined in Hinl as [Hin _].
    eapply phase2_trans; [by apply phase2_inlined | by apply IH].
Qed.

Lemma initRelationsLoop_phase2 E reg fuel : forall n i st st',
  initRelationsLoop E reg fuel n i st = Done st' -> phase2 E st st'.
Proof.
  induction n as [| n IH]; intros i st st' Hrun.
  - simpl in Hrun. destruct (Table.Fields (tbl st) !! i); [done |].
    injection Hrun as <-. apply phase2_refl.
  - cbn [initRelationsLoop] in Hrun.
    destruct (Table.Fields (tbl st) !! i) as [f |].
    2:{ injection Hrun as <-. apply phase2_refl. }
    destruct (tryRelation E reg f st) as [[isRel st1] | |] eqn:Htry; try done.
    cbn [mbind outcome_bind bind] in Hrun.
    apply phase2_tryRelation in Htry.
    assert (Hturn : exists i' st2,
               (if isRel
                then (i, onTable (fun t =>
                            Table.set_DataFields (removeField (Table.DataFields t) f)
                              (Table.set_Fields (removeField (Table.Fields t) f) t)) st1)
                else (S i, st1)) = (i', st2)
               /\ phase2 E st st2).
    { destruct isRel; eexists _, _; (split; [reflexivity |]); [| done].
      eapply phase2_trans; [exact Htry | apply phase2_remove]. }
    destruct Hturn as (i' & st2 & Heq & Hst2). rewrite Heq in Hrun.
    destruct (bool_decide _).
    + destruct (inlineFields E reg fuel f None st2) as [[path' st3] | |] eqn:Hinl;
        try done.
      cbn [mbind outcome_bind bind] in Hrun.
      apply inlineFields_inlined in Hinl as [Hin _].
      eapply phase2_trans; [exact Hst2 |].
      eapply phase2_trans; [by apply phase2_inlined | by eapply IH].
    + eapply phase2_trans; [exact Hst2 | by eapply IH].
Qed.

(** X15.  Phase 2 only adds to what phase 1 has built.  When init2
    returns, the Field objects that existed are as they were and the new
    ones are renamed copies placed after them; every entry of the field
    map and every relation that was registered is still registered with
    the same value; and of the table only [Fields], [DataFields], the
    field map, the relations and [skippedFields] (which is emptied) can
    differ: the names, [PKs], [allFields], the unique groups, the
    soft-delete field and the hook flags are untouched. *)
Theorem init2_only_adds (E : Env) (reg : Tables) (fuel : nat) (st st' : State) :
  init2 E reg fuel st = Done st' ->
  (exists clones,
     heap st' = heap st ++ clones
     /\ Forall (fun c => exists s f, c = cloneOf E s f) clones)
  /\ tbl st'
     = Table.set_skippedFields []
         (Table.set_Relations (Table.Relations (tbl st'))
            (Table.set_FieldMap (Table.FieldMap (tbl st'))
               (Table.set_DataFields (Table.DataFields (tbl st'))
                  (Table.set_Fields (Table.Fields (tbl st')) (tbl st)))))
  /\ (forall name p, Table.FieldMap (tbl st) !! name = Some p ->
                     Table.FieldMap (tbl st') !! name = Some p)
  /\ (forall name r, Table.Relations (tbl st) !! name = Some r ->
                     Table.Relations (tbl st') !! name = Some r).
Proof.
  unfold init2, initInlines, initRelations.
  destruct (initInlinesLoop E reg fuel _ st) as [st1 | |] eqn:H1; try done.
  cbn [mbind outcome_bind bind].
  destruct (initRelationsLoop E reg fuel _ 0 st1) as [st2 | |] eqn:H2; try done.
  cbn [mbind outcome_bind bind]. intros [= <-].
  apply initInlinesLoop_phase2 in H1. apply initRelationsLoop_phase2 in H2.
  destruct (phase2_trans E _ _ _ H1 H2) as [Hh Ht Hm Hr].
  split; [exact Hh |]. split; [| split; [exact Hm | exact Hr]].
  simpl. rewrite Ht at 1. reflexivity.
Qed.

(** ** removeField, the fallback that does not apply, unique groups *)

(** X16.  removeField cuts out the first occurrence of the field and
    nothing else: a list without the field is returned as it is, and
    otherwise the fields before and after the first occurrence are kept
    in their order, later occurrences included. *)
Theorem removeField_first_occurrence (fields : list ptr) (field : ptr) :
  ((field ∉ fields) /\ removeField fields field = fields)
  \/ (exists before after,
        fields = before ++ field :: after
        /\ (field ∉ before)
        /\ removeField fields field = before ++ after
        /\ S (length (removeField fields field)) = length fields).
Proof.
  induction fields as [| x l IH]; simpl.
  - left. split; [apply not_elem_of_nil | done].
  - destruct (decide (x = field)) as [-> | Hne].
    + right. exists [], l. split; [done |]. split; [apply not_elem_of_nil | done].
    + destruct IH as [[Hnot Heq] | (before & after & Hl & Hnot & Heq & Hlen)].
      * left. split; [by apply not_elem_of_cons | by rewrite Heq].
      * right. exists (x :: before), after. rewrite Heq. simpl.
        split; [by rewrite Hl |]. split; [by apply not_elem_of_cons |].
        split; [done |]. rewrite <- Hlen, Heq. done.
Qed.

Lemma initFields_of_scan E reg fuel typ h0 st1 :
  addFields E reg fuel typ [] (mkState h0 (newTable E typ)) = Some st1 ->
  Table.PKs (tbl st1) <> [] \/ conventionalKey (tbl st1) = None ->
  initFields E reg fuel (mkState h0 (newTable E typ)) = Some st1.
Proof.
  intros Hscan Hcase.
  set (st0 := mkState h0 (newTable E typ)) in *.
  destruct (newTable_fresh E typ) as (Htyp & HF & _ & _ & HM & _).
  assert (Hreset : onTable (fun t => Table.set_FieldMap ∅ (Table.set_Fields [] t)) st0
                   = st0).
  { unfold onTable, st0. simpl. by rewrite reset_fresh. }
  unfold initFields. rewrite Hreset.
  change (Table.Typ (tbl st0)) with (Table.Typ (newTable E typ)).
  rewrite Htyp, Hscan.
  destruct (Table.PKs (tbl st1)) as [| pk0 pks] eqn:Hpks; [| done].
  destruct Hcase as [Hne | Hnone]; [done |].
  change (0 <? length (@nil ptr))%nat with false. cbv iota zeta.
  by rewrite (pkFallback_none st1 Hnone), Hpks.
Qed.

(** X17.  initFields leaves the result of the scan as it is when some
    field is tagged pk, and when no field is tagged and the field map
    has none of the conventional names id, uuid and pk_ + model name.
    In the first case the tagged keys are the primary keys and none is
    made auto-increment by initFields, even when there is only one; in
    the second the table has no primary key and CheckPKs reports the
    error. *)
Theorem initFields_without_fallback (E : Env) (reg : Tables) (fuel : nat)
    (typ : rtype) (h0 : Heap) (st1 : State) :
  addFields E reg fuel typ [] (mkState h0 (newTable E typ)) = Some st1 ->
  Table.PKs (tbl st1) <> [] \/ conventionalKey (tbl st1) = None ->
  initFields E reg fuel (mkState h0 (newTable E typ)) = Some st1
  /\ (Table.PKs (tbl st1) <> [] -> CheckPKs (tbl st1) = None)
  /\ (Table.PKs (tbl st1) = [] ->
      CheckPKs (tbl st1)
      = Some ("bun: " +:+ tableString (tbl st1) +:+ " does not have primary keys")).
Proof.
  intros Hscan Hcase. split; [by apply initFields_of_scan |].
  unfold CheckPKs. split.
  - intros Hne. by destruct (Table.PKs (tbl st1)).
  - by intros ->.
Qed.

Lemma filter_absent (names : list string) (name : string) :
  name ∉ names -> filter (fun n => n = name) names = [].
Proof.
  induction names as [| y l IH]; [done |].
  intros [Hy Hl]%not_elem_of_cons.
  rewrite filter_cons_False by done. by apply IH.
Qed.

Lemma addUnique_lookup (names : list string) (field : ptr) :
  forall (u : gmap string (list ptr)) (name : string),
  addUnique names field u !! name
  = if decide (name ∈ names)
    then Some (default [] (u !! name)
               ++ replicate (length (filter (fun n => n = name) names)) field)
    else u !! name.
Proof.
  unfold addUnique. induction names as [| n names IH]; intros u name.
  - simpl. destruct (decide (name ∈ [])) as [Hin | _]; [by apply elem_of_nil in Hin | done].
  - cbn [foldl]. rewrite IH.
    destruct (decide (name ∈ n :: names)) as [Hcons | Hcons].
    + destruct (decide (n = name)) as [-> | Hne].
      * rewrite filter_cons_True by done. rewrite lookup_insert_eq. simpl.
        destruct (decide (name ∈ names)) as [Hin | Hnot]; [by rewrite <- app_assoc |].
        by rewrite (filter_absent _ _ Hnot).
      * rewrite filter_cons_False by done. rewrite lookup_insert_ne by done.
        apply elem_of_cons in Hcons as [-> | Hin]; [done |].
        by rewrite decide_True.
    + apply not_elem_of_cons in Hcons as [Hne Hnot].
      rewrite decide_False by done. by rewrite lookup_insert_ne.
Qed.

(** X18.  The unique option of a field names one or more groups,
    separated by commas.  When newField creates the field, it is
    appended to each of these groups, once for every time the group is
    named, after the fields that are there already; new groups are
    created and the other groups are not touched.  Without the option
    no group changes.  This also holds of a field that is then
    skipped. *)
Theorem unique_groups (E : Env) (f : reflect.StructField) (index : list nat)
    (st : State) :
  reflect.PkgPath f = "" ->
  fieldWithLock (tbl st) (columnName E f) = None ->
  let st' := (newField E f index st).2 in
  let new := length (heap st) in
  match Tag.Options (Parse E (reflect.TagBun f)) !! "unique" with
  | None => Table.Unique (tbl st') = Table.Unique (tbl st)
  | Some v =>
      forall name,
        Table.Unique (tbl st') !! name
        = if decide (name ∈ Split "," v)
          then Some (default [] (Table.Unique (tbl st) !! name)
                     ++ replicate (length (filter (fun n => n = name) (Split "," v))) new)
          else Table.Unique (tbl st) !! name
  end.
Proof.
  intros Hpkg Hfree. cbv zeta.
  rewrite (newField_unregistered E f index st Hpkg Hfree).
  unfold createField, alloc.
  destruct (Tag.Options (Parse E (reflect.TagBun f)) !! "unique") as [v |].
  - intros name. rewrite <- addUnique_lookup.
    repeat (case_match; simpl in *; simplify_eq); done.
  - repeat (case_match; simpl in *; simplify_eq); done.
Qed.

(** ** Phase 1: Fields is in the order of the declarations *)

Lemma increasing_ext h h' l :
  (forall p, p ∈ l -> deref h' p = deref h p) -> increasing h l -> increasing h' l.
Proof.
  induction l as [| p l IH]; [done |]. intros Hext [Hp Hl]. split.
  - rewrite (Hext p) by (by left). rewrite Forall_forall in Hp |- *.
    intros q Hq. rewrite (Hext q) by (by right). by apply Hp.
  - apply IH; [| done]. intros q Hq. apply Hext. by right.
Qed.

Lemma increasing_snoc h l x :
  increasing h l ->
  (forall p, p ∈ l -> lexlt (Field.Index (deref h p)) (Field.Index (deref h x))) ->
  increasing h (l ++ [x]).
Proof.
  induction l as [| p l IH]; intros Hl Hx; simpl.
  - split; [constructor | done].
  - destruct Hl as [Hp Hl]. split.
    + apply Forall_app. split; [done |]. constructor; [| constructor]. apply Hx. by left.
    + apply IH; [done |]. intros q Hq. apply Hx. by right.
Qed.

Lemma increasing_removeField h l x : increasing h l -> increasing h (removeField l x).
Proof.
  induction l as [| p l IH]; [done |]. intros [Hp Hl]. simpl.
  destruct (decide (p = x)); [done |]. split; [| by apply IH].
  rewrite Forall_forall in Hp |- *. intros q Hq. apply Hp.
  by eapply removeField_subseteq.
Qed.

Lemma increasing_lookup h l i j p q :
  increasing h l -> i < j -> l !! i = Some p -> l !! j = Some q ->
  lexlt (Field.Index (deref h p)) (Field.Index (deref h q)).
Proof.
  revert i j. induction l as [| x l IH]; intros i j Hl Hij Hi Hj; [done |].
  destruct Hl as [Hx Hl]. destruct i as [| i], j as [| j]; try lia; simpl in *.
  - injection Hi as ->. rewrite Forall_forall in Hx. apply Hx.
    by eapply list_elem_of_lookup_2.
  - apply (IH i j); [done | lia | done | done].
Qed.

Lemma ordered_mono st b1 b2 :
  ordered st b1 -> (forall x, lexlt x b1 -> lexlt x b2) -> ordered st b2.
Proof.
  intros [H1 H2 H3 H4] Hle. split; [done | | done | done].
  intros p Hp. by apply Hle, H2.
Qed.

Lemma ordered_same st st' b :
  ordered st b ->
  heap st' = heap st ->
  Table.Fields (tbl st') = Table.Fields (tbl st) ->
  ordered st' b.
Proof. intros [H1 H2 H3 H4] Hh HF. split; rewrite ?Hh, ?HF; done. Qed.

Lemma ordered_removeField st b prior :
  ordered st b -> ordered (Table_removeField prior st) b.
Proof.
  intros [H1 H2 H3 H4]. unfold Table_removeField.
  destruct (Field.IsPK (deref (heap st) prior)); split; simpl.
  - intros p Hp. apply H1. by eapply removeField_subseteq.
  - intros p Hp. apply H2. by eapply removeField_subseteq.
  - by apply increasing_removeField.
  - intros p Hp. apply H4. by eapply removeField_subseteq.
  - intros p Hp. apply H1. by eapply removeField_subseteq.
  - intros p Hp. apply H2. by eapply removeField_subseteq.
  - by apply increasing_removeField.
  - intros p Hp. apply H4. by eapply removeField_subseteq.
Qed.

Lemma ordered_created E f index st b' :
  ordered st index ->
  index <> [] ->
  lexlt index b' ->
  (forall x, lexlt x index -> lexlt x b') ->
  ordered (match createField E f index st with
           | (Some field, st) => addField field st
           | (None, st) => st
           end) b'.
Proof.
  intros [H1 H2 H3 H4] Hne Hix Hle.
  pose proof (discover_created E f index st) as (Hh & _ & _ & HF & _ & _).
  set (st1 := match createField E f index st with
              | (Some field, st) => addField field st
              | (None, st) => st
              end) in *.
  set (new := length (heap st)) in *.
  assert (Hnew : Field.Index (deref (heap st1) new) = index).
  { by rewrite Hh, deref_alloc, makeField_Index. }
  assert (Hold : forall p, p ∈ Table.Fields (tbl st) ->
                           deref (heap st1) p = deref (heap st) p).
  { intros p Hp. rewrite Hh. by apply deref_app, H1. }
  assert (Hlen : length (heap st1) = S new).
  { rewrite Hh, length_app. simpl. lia. }
  assert (Hinc : increasing (heap st1) (Table.Fields (tbl st)))
    by (by apply (increasing_ext (heap st))).
  split.
  - intros p. rewrite HF, elem_of_app, Hlen. intros [Hp | Hp].
    + apply H1 in Hp. fold new in Hp. lia.
    + destruct (isSkipped E f); [by apply elem_of_nil in Hp |].
      apply list_elem_of_singleton in Hp as ->. lia.
  - intros p. rewrite HF, elem_of_app. intros [Hp | Hp].
    + rewrite Hold by done. by apply Hle, H2.
    + destruct (isSkipped E f); [by apply elem_of_nil in Hp |].
      apply list_elem_of_singleton in Hp as ->. by rewrite Hnew.
  - rewrite HF. destruct (isSkipped E f); [by rewrite app_nil_r |].
    apply increasing_snoc; [done |].
    intros p Hp. rewrite Hnew, Hold by done. by apply H2.
  - intros p. rewrite HF, elem_of_app. intros [Hp | Hp].
    + rewrite Hold by done. by apply H4.
    + destruct (isSkipped E f); [by apply elem_of_nil in Hp |].
      apply list_elem_of_singleton in Hp as ->. by rewrite Hnew.
Qed.

Lemma ordered_step E reg rec base i f0 st st' :
  ordering rec ->
  scanned st (base ++ [i]) ->
  ordered st (base ++ [i]) ->
  addFieldsStep E reg rec base i f0 st = Some st' ->
  ordered st' (base ++ [S i]).
Proof.
  intros Hrec Hsc Hor.
  assert (Hle : forall x, lexlt x (base ++ [i]) -> lexlt x (base ++ [S i])).
  { intros x. apply lexlt_next. }
  destruct (reflect.Anonymous f0) eqn:Hanon.
  - unfold addFieldsStep. simpl. rewrite Hanon.
    destruct (String.eqb (reflect.TagBun f0) "-").
    { intros [= <-]. by apply (ordered_mono _ (base ++ [i])). }
    destruct (String.eqb (reflect.Name f0) "BaseModel").
    { intros [= <-]. apply (ordered_mono _ (base ++ [i])); [| done].
      destruct (length base =? 0)%nat; [| done].
      pose proof (processBaseModelField_lists E (reflect.withIndex f0 [i]) (tbl st))
        as (_ & _ & _ & _ & HF & _).
      by apply (ordered_same st). }
    destruct (negb _).
    { intros [= <-]. by apply (ordered_mono _ (base ++ [i])). }
    destruct (rec _ _ st) as [st1 |] eqn:Hr; [| done].
    apply Hrec in Hr as [n Hn].
    2:{ apply (scanned_mono _ (base ++ [i])); [done |]. intros x. apply lexlt_app_r. }
    2:{ apply (ordered_mono _ (base ++ [i])); [done |]. intros x. apply lexlt_app_r. }
    assert (Hor1 : ordered st1 (base ++ [S i])).
    { apply (ordered_mono _ ((base ++ [i]) ++ [n])); [done |].
      intros x. rewrite <- app_assoc. apply lexlt_next. }
    destruct (Tag.HasOption _ "inherit"); intros [= <-]; [| done].
    by apply (ordered_same st1).
  - rewrite (addFieldsStep_plain _ _ _ _ _ _ _ Hanon).
    intros [= <-]. set (f := reflect.withIndex f0 [i]).
    destruct (decide (reflect.PkgPath f = "")) as [Hpkg | Hpkg].
    + destruct (fieldWithLock (tbl st) (columnName E f)) as [prior |] eqn:Hprior.
      * destruct (decide (Field.Index (deref (heap st) prior) = base ++ reflect.Index f))
          as [Hix | Hix].
        -- exfalso. destruct (sc_map _ _ Hsc _ _ Hprior) as [_ Hlt].
           rewrite Hix in Hlt. by apply lexlt_irrefl in Hlt.
        -- rewrite (newField_other_path E f base st prior Hpkg Hprior Hix).
           apply ordered_created;
             [| by destruct base | apply lexlt_snoc_next | done].
           by apply ordered_removeField.
      * rewrite (newField_unregistered E f base st Hpkg Hprior).
        apply ordered_created; [done | by destruct base | apply lexlt_snoc_next | done].
    + unfold newField. apply String.eqb_neq in Hpkg. rewrite Hpkg. simpl.
      by apply (ordered_mono _ (base ++ [i])).
Qed.

Lemma ordered_loop E reg rec base fs : forall i st st',
  scanning rec ->
  ordering rec ->
  scanned st (base ++ [i]) ->
  ordered st (base ++ [i]) ->
  addFieldsLoop E reg rec base i fs st = Some st' ->
  ordered st' (base ++ [i + length fs]).
Proof.
  induction fs as [| f fs IH]; intros i st st' Hrec Hrec' Hsc Hor; simpl.
  - intros [= <-]. by rewrite Nat.add_0_r.
  - destruct (addFieldsStep E reg rec base i f st) as [st1 |] eqn:Hstep; [| done].
    intros Hloop.
    pose proof (scanned_step _ _ _ _ _ _ _ _ Hrec Hsc Hstep) as Hsc1.
    pose proof (ordered_step _ _ _ _ _ _ _ _ Hrec' Hsc Hor Hstep) as Hor1.
    rewrite <- Nat.add_succ_comm. by apply (IH (S i) st1 st').
Qed.

Lemma addFields_ordering E reg fuel : ordering (addFields E reg fuel).
Proof.
  induction fuel as [| fuel IH]; intros typ base st st' Hsc Hor; simpl; [done |].
  intros Hloop. exists (0 + length (structFields E typ)).
  apply (ordered_loop E reg (addFields E reg fuel) base (structFields E typ) 0 st st');
    try done.
  apply addFields_scanning.
Qed.

Lemma ordered_fresh (E : Env) (typ : rtype) (h0 : Heap) :
  ordered (mkState h0 (newTable E typ)) ([] ++ [0]).
Proof.
  destruct (newTable_fresh E typ) as (_ & HF & _).
  split; cbn [heap tbl]; rewrite HF; [| | done |].
  - intros p Hp. by apply elem_of_nil in Hp.
  - intros p Hp. by apply elem_of_nil in Hp.
  - intros p Hp. by apply elem_of_nil in Hp.
Qed.

(** X19.  After initFields on a new table, [Fields] lists the columns
    in the order of their declaration, embedded structs expanded in
    place: the access paths of the fields strictly increase along
    [Fields] in the order in which the members are visited, so no two
    fields of [Fields] have the same access path, and no path is
    empty. *)
Theorem initFields_declaration_order (E : Env) (reg : Tables) (fuel : nat)
    (typ : rtype) (h0 : Heap) (st' : State) :
  initFields E reg fuel (mkState h0 (newTable E typ)) = Some st' ->
  (forall i j p q,
     i < j ->
     Table.Fields (tbl st') !! i = Some p ->
     Table.Fields (tbl st') !! j = Some q ->
     lexlt (Field.Index (deref (heap st') p)) (Field.Index (deref (heap st') q))
     /\ Field.Index (deref (heap st') p) <> Field.Index (deref (heap st') q))
  /\ (forall p, p ∈ Table.Fields (tbl st') -> Field.Index (deref (heap st') p) <> []).
Proof.
  intros Hinit. apply initFields_fresh in Hinit as (st1 & Hscan & Hst').
  pose proof (addFields_ordering E reg fuel typ [] _ st1
                (scanned_fresh E typ h0) (ordered_fresh E typ h0) Hscan) as [n Hor].
  assert (Hix : forall p, Field.Index (deref (heap st') p) = Field.Index (deref (heap st1) p)).
  { intros p. destruct Hst' as [-> | (f & _ & _ & ->)]; [done |]. cbn [heap].
    destruct (decide (p = f)) as [-> | Hne]; [| by rewrite deref_store_ne].
    unfold deref at 1, store. destruct (decide (f < length (heap st1))) as [Hlt | Hge].
    - rewrite (nth_lookup_Some _ _ _ (Field.set_AutoIncrement true
                                        (markAsPK (deref (heap st1) f)))); [done |].
      by rewrite list_lookup_insert_eq.
    - rewrite list_insert_ge by lia. done. }
  assert (HF : Table.Fields (tbl st') = Table.Fields (tbl st1)).
  { by destruct Hst' as [-> | (f & _ & _ & ->)]. }
  rewrite HF. destruct Hor as [H1 H2 H3 H4]. split.
  - intros i j p q Hij Hp Hq. rewrite !Hix.
    pose proof (increasing_lookup _ _ i j p q H3 Hij Hp Hq) as Hlt.
    split; [done |]. intros Heq. rewrite Heq in Hlt. by apply lexlt_irrefl in Hlt.
  - intros p Hp. rewrite Hix. by apply H4.
Qed.

(** ** The names of a table *)

Lemma hook_fold_names (E : Env) (typ : rtype) (l : list (Hook * Z)) (t0 : Table.t) :
  let t := foldl (fun t (hook : Hook * Z) =>
                    if Implements E typ hook.1
                    then Table.set_flags (Flag.Set_ (Table.flags t) hook.2) t
                    else t) t0 l in
  Table.TypeName t = Table.TypeName t0
  /\ Table.ModelName t = Table.ModelName t0
  /\ Table.Name t = Table.Name t0
  /\ Table.SQLName t = Table.SQLName t0
  /\ Table.SQLNameForSelects t = Table.SQLNameForSelects t0
  /\ Table.Alias t = Table.Alias t0.
Proof.
  revert t0. induction l as [| hk l IH]; intros t0; [done |].
  cbn [foldl]. cbv zeta in IH. destruct (Implements E typ hk.1).
  - destruct (IH (Table.set_flags (Flag.Set_ (Table.flags t0) hk.2) t0))
      as (-> & -> & -> & -> & -> & ->). done.
  - apply IH.
Qed.

Lemma newTable_names (E : Env) (typ : rtype) :
  let model := Underscore E (reflect.name typ) in
  let name := tableNameInflector E model in
  Table.TypeName (newTable E typ) = ToExported E (reflect.name typ)
  /\ Table.ModelName (newTable E typ) = model
  /\ Table.Name (newTable E typ) = name
  /\ Table.SQLName (newTable E typ) = quoteIdent E name
  /\ Table.SQLNameForSelects (newTable E typ) = quoteIdent E name
  /\ Table.Alias (newTable E typ) = quoteIdent E model.
Proof.
  cbv zeta. unfold newTable. cbv zeta.
  match goal with
  | |- context [foldl ?g ?t0 hooks] =>
      destruct (hook_fold_names E typ hooks t0) as (-> & -> & -> & -> & -> & ->)
  end.
  done.
Qed.

Lemma processBaseModelField_names (E : Env) (f : reflect.StructField) (t0 : Table.t) :
  let tag := Parse E (reflect.TagBun f) in
  let name :=
    if String.eqb (Tag.Name tag) "_" then ""
    else if String.eqb (Tag.Name tag) "" then Table.Name t0
         else Tag.Name tag in
  let t := processBaseModelField E f t0 in
  Table.Alias t0 <> "" ->
  Table.SQLName t0 = quoteIdent E (Table.Name t0) ->
  Table.SQLNameForSelects t0 = quoteIdent E (Table.Name t0) ->
  Table.TypeName t = Table.TypeName t0
  /\ Table.ModelName t = Table.ModelName t0
  /\ Table.Name t = name
  /\ Table.SQLName t = quoteIdent E name
  /\ Table.SQLNameForSelects t
     = match Tag.Options tag !! "select" with
       | Some s => quoteTableName E s
       | None => quoteIdent E name
       end
  /\ Table.Alias t
     = match Tag.Options tag !! "alias" with
       | Some v => quoteIdent E v
       | None => Table.Alias t0
       end.
Proof.
  intros tag name t Halias HS HSel.
  unfold t, name, processBaseModelField, setName. fold tag.
  destruct t0 as [ty tn mn nm sq sel al Fs Ps Ds FM Rel Un sd ud al1 sk fl].
  cbn [Table.Alias Table.SQLName Table.SQLNameForSelects Table.Name] in Halias, HS, HSel.
  destruct (String.eqb (Tag.Name tag) "_");
    [| destruct (String.eqb (Tag.Name tag) "")];
    destruct (Tag.Options tag !! "select"), (Tag.Options tag !! "alias");
    cbn [negb Table.set_naming Table.TypeName Table.ModelName Table.Name Table.SQLName
         Table.SQLNameForSelects Table.Alias];
    rewrite ?decide_False by exact Halias;
    repeat split; try reflexivity; try assumption.
Qed.

(** X20.  The names of a table.  newTable derives them from the name
    of the type: the exported name, the underscored model name, the
    inflected table name and its quoted forms, and the quoted model name
    as alias.  A BaseModel member then overrides them by its tag: a tag
    name replaces the table name (an underscore stands for the empty
    name) and its quoted forms, the option select replaces the name for
    selects, not quoted when it holds a placeholder or parentheses, and
    the option alias replaces the alias.  Without the option alias the
    alias stays the quoted model name, provided that this is not
    empty.  Only a BaseModel member at the top level of the record does
    this: one inside an embedded struct is passed over. *)
Theorem table_names (E : Env) (reg : Tables) (typ : rtype) (f : reflect.StructField) :
  let model := Underscore E (reflect.name typ) in
  let tag := Parse E (reflect.TagBun f) in
  let name :=
    if String.eqb (Tag.Name tag) "_" then ""
    else if String.eqb (Tag.Name tag) "" then tableNameInflector E model
         else Tag.Name tag in
  let t := processBaseModelField E f (newTable E typ) in
  quoteIdent E model <> "" ->
  (Table.TypeName t = ToExported E (reflect.name typ)
   /\ Table.ModelName t = model
   /\ Table.Name t = name
   /\ Table.SQLName t = quoteIdent E name
   /\ Table.SQLNameForSelects t
      = match Tag.Options tag !! "select" with
        | Some s => if hasByte "?" s || hasByte "(" s || hasByte ")" s then s
                    else quoteIdent E s
        | None => quoteIdent E name
        end
   /\ Table.Alias t
      = match Tag.Options tag !! "alias" with
        | Some v => quoteIdent E v
        | None => quoteIdent E model
        end)
  /\ (forall rec base i st,
        reflect.Anonymous f = true ->
        reflect.TagBun f <> "-" ->
        reflect.Name f = "BaseModel" ->
        addFieldsStep E reg rec base i f st
        = Some (match base with
                | [] => onTable (processBaseModelField E (reflect.withIndex f [i])) st
                | _ :: _ => st
                end)).
Proof.
  intros model tag name t Halias.
  pose proof (newTable_names E typ) as (HT & HM & HN & HS & HSel & HA). cbv zeta in HT, HM, HN, HS, HSel, HA.
  split.
  - pose proof (processBaseModelField_names E f (newTable E typ)) as Hp.
    cbv zeta in Hp. fold tag in Hp. fold t in Hp.
    rewrite HA, HS, HSel, HN, HT, HM in Hp.
    destruct (Hp Halias eq_refl eq_refl) as (H1 & H2 & H3 & H4 & H5 & H6).
    unfold quoteTableName in H5. fold model in H3, H4, H5, H6 |- *. fold name in H3, H4, H5.
    repeat split; assumption.
  - intros rec base i st Hanon Htag Hname.
    unfold addFieldsStep. cbn [reflect.withIndex reflect.Anonymous reflect.TagBun reflect.Name].
    rewrite Hanon.
    apply String.eqb_neq in Htag. rewrite Htag.
    apply String.eqb_eq in Hname. rewrite Hname.
    destruct base; reflexivity.
Qed.

(** ** Columns are found by their names *)

Lemma named_same st st' :
  named st ->
  heap st' = heap st ->
  Table.Fields (tbl st') = Table.Fields (tbl st) ->
  Table.FieldMap (tbl st') = Table.FieldMap (tbl st) ->
  named st'.
Proof.
  intros [H1 H2] Hh HF HM. split; rewrite ?Hh, ?HF, ?HM; done.
Qed.

Lemma named_removeField st prior k :
  discovered st -> named st ->
  Table.FieldMap (tbl st) !! k = Some prior ->
  named (Table_removeField prior st)
  /\ forall p, p ∈ Table.Fields (tbl (Table_removeField prior st)) ->
               Field.Name (deref (heap st) p) <> k.
Proof.
  intros Hdv [H1 H2] Hk.
  assert (Hname : Field.Name (deref (heap st) prior) = k) by (by apply H1).
  assert (HF : Table.Fields (tbl (Table_removeField prior st))
               = removeField (Table.Fields (tbl st)) prior).
  { unfold Table_removeField. by destruct (Field.IsPK _). }
  assert (HM : Table.FieldMap (tbl (Table_removeField prior st))
               = delete k (Table.FieldMap (tbl st))).
  { unfold Table_removeField. rewrite Hname. by destruct (Field.IsPK _). }
  assert (Hh : heap (Table_removeField prior st) = heap st) by reflexivity.
  destruct (removeField_NoDup _ prior (dv_nodup _ Hdv)) as [_ Hout].
  assert (Hother : forall p, p ∈ removeField (Table.Fields (tbl st)) prior ->
                             Field.Name (deref (heap st) p) <> k).
  { intros p Hp Heq.
    assert (Hin : p ∈ Table.Fields (tbl st)) by (by eapply removeField_subseteq).
    apply H2 in Hin. rewrite Heq, Hk in Hin. injection Hin as ->. done. }
  split; [split |].
  - intros k' p. rewrite HM, Hh. intros Hl. apply lookup_delete_Some in Hl as [_ Hl].
    by apply H1.
  - intros p. rewrite HF, HM, Hh. intros Hp.
    rewrite lookup_delete_ne by (intros Heq; by apply (Hother p Hp)).
    apply H2. by eapply removeField_subseteq.
  - intros p. rewrite HF. apply Hother.
Qed.

Lemma named_created E f index st :
  discovered st -> named st ->
  Tag.Options (Parse E (reflect.TagBun f)) !! "alias" = None ->
  (forall p, p ∈ Table.Fields (tbl st) ->
             Field.Name (deref (heap st) p) <> columnName E f) ->
  named (match createField E f index st with
         | (Some field, st) => addField field st
         | (None, st) => st
         end).
Proof.
  intros Hdv [H1 H2] Hno Hfree.
  pose proof (discover_created E f index st) as (Hh & HM & HA & HF & _).
  set (st1 := match createField E f index st with
              | (Some field, st) => addField field st
              | (None, st) => st
              end) in *.
  set (new := length (heap st)) in *.
  unfold aliasInsert in HM. rewrite Hno in HM.
  assert (Hnew : deref (heap st1) new = makeField E f index)
    by (by rewrite Hh, deref_alloc).
  assert (Hold : forall p, p < length (heap st) -> deref (heap st1) p = deref (heap st) p).
  { intros p Hlt. rewrite Hh. by apply deref_app. }
  assert (Hfv : forall p, p ∈ Table.Fields (tbl st) -> p < length (heap st)).
  { intros p Hp. apply (dv_valid _ Hdv). by apply (dv_fields _ Hdv). }
  split.
  - intros k p. rewrite HM. intros Hl.
    apply lookup_insert_Some in Hl as [[<- <-] | [_ Hl]].
    + by rewrite Hnew, makeField_Name.
    + rewrite Hold; [by apply H1 |]. apply (dv_valid _ Hdv). by eapply (dv_map _ Hdv).
  - intros p. rewrite HF, HM, elem_of_app. intros [Hp | Hp].
    + rewrite Hold by (by apply Hfv).
      rewrite lookup_insert_ne by (intros Heq; by apply (Hfree p Hp)).
      by apply H2.
    + destruct (isSkipped E f); [by apply elem_of_nil in Hp |].
      apply list_elem_of_singleton in Hp as ->.
      rewrite Hnew, makeField_Name. apply lookup_insert_eq.
Qed.

Lemma named_step E reg rec base i f0 st st' :
  scanning rec ->
  discovering rec ->
  naming rec ->
  (reflect.Anonymous f0 = false ->
   Tag.Options (Parse E (reflect.TagBun f0)) !! "alias" = None) ->
  scanned st (base ++ [i]) ->
  discovered st ->
  named st ->
  addFieldsStep E reg rec base i f0 st = Some st' ->
  named st'.
Proof.
  intros Hrec Hrec' Hrec'' Hno Hsc Hdv Hnm. destruct (reflect.Anonymous f0) eqn:Hanon.
  - unfold addFieldsStep. simpl. rewrite Hanon.
    destruct (String.eqb (reflect.TagBun f0) "-"); [by intros [= <-] |].
    destruct (String.eqb (reflect.Name f0) "BaseModel").
    { intros [= <-]. destruct (length base =? 0)%nat; [| done].
      pose proof (processBaseModelField_lists E (reflect.withIndex f0 [i]) (tbl st))
        as (? & ? & ? & ? & ? & _).
      by apply (named_same st). }
    destruct (negb _); [by intros [= <-] |].
    destruct (rec _ _ st) as [st1 |] eqn:Hr; [| done].
    assert (Hsc0 : scanned st ((base ++ [i]) ++ [0])).
    { apply (scanned_mono _ (base ++ [i])); [done |]. intros x. apply lexlt_app_r. }
    assert (Hnm1 : named st1) by (by eapply Hrec''; [exact Hsc0 | exact Hdv | exact Hnm | exact Hr]).
    destruct (Tag.HasOption _ "inherit"); intros [= <-]; [| done].
    by apply (named_same st1).
  - rewrite (addFieldsStep_plain _ _ _ _ _ _ _ Hanon).
    intros [= <-]. set (f := reflect.withIndex f0 [i]).
    specialize (Hno eq_refl).
    assert (Hno' : Tag.Options (Parse E (reflect.TagBun f)) !! "alias" = None) by exact Hno.
    destruct (decide (reflect.PkgPath f = "")) as [Hpkg | Hpkg].
    + destruct (fieldWithLock (tbl st) (columnName E f)) as [prior |] eqn:Hprior.
      * destruct (decide (Field.Index (deref (heap st) prior) = base ++ reflect.Index f))
          as [Hix | Hix].
        -- exfalso. destruct (sc_map _ _ Hsc _ _ Hprior) as [_ Hlt].
           rewrite Hix in Hlt. by apply lexlt_irrefl in Hlt.
        -- rewrite (newField_other_path E f base st prior Hpkg Hprior Hix).
           destruct (named_removeField st prior _ Hdv Hnm Hprior) as [Hnm1 Hfree].
           apply named_created; [by apply discovered_removeField | done | done | done].
      * rewrite (newField_unregistered E f base st Hpkg Hprior).
        apply named_created; [done | done | done |].
        intros p Hp Heq. apply (nm_fields _ Hnm) in Hp. rewrite Heq in Hp.
        unfold fieldWithLock in Hprior. congruence.
    + unfold newField. apply String.eqb_neq in Hpkg. rewrite Hpkg. simpl. done.
Qed.

Lemma named_loop E reg rec base fs : forall i st st',
  scanning rec ->
  discovering rec ->
  naming rec ->
  Forall (fun f0 => reflect.Anonymous f0 = false ->
                    Tag.Options (Parse E (reflect.TagBun f0)) !! "alias" = None) fs ->
  scanned st (base ++ [i]) ->
  discovered st ->
  named st ->
  addFieldsLoop E reg rec base i fs st = Some st' ->
  named st'.
Proof.
  induction fs as [| f fs IH]; intros i st st' Hrec Hrec' Hrec'' Hno Hsc Hdv Hnm; simpl.
  - by intros [= <-].
  - destruct (addFieldsStep E reg rec base i f st) as [st1 |] eqn:Hstep; [| done].
    intros Hloop. apply Forall_cons in Hno as [Hf Hfs].
    pose proof (scanned_step _ _ _ _ _ _ _ _ Hrec Hsc Hstep) as Hsc1.
    pose proof (discovered_step _ _ _ _ _ _ _ _ Hrec Hrec' Hsc Hdv Hstep) as Hdv1.
    pose proof (named_step _ _ _ _ _ _ _ _ Hrec Hrec' Hrec'' Hf Hsc Hdv Hnm Hstep) as Hnm1.
    by apply (IH (S i) st1 st').
Qed.

Lemma addFields_naming E reg fuel : noAlias E -> naming (addFields E reg fuel).
Proof.
  intros Hno. induction fuel as [| fuel IH]; intros typ base st st' Hsc Hdv Hnm; simpl; [done |].
  apply (named_loop E reg _ base _ 0 st st'); try done.
  - apply addFields_scanning.
  - apply addFields_discovering.
  - apply Forall_forall. intros f Hf. by apply (Hno typ).
Qed.

Lemma named_fresh (E : Env) (typ : rtype) (h0 : Heap) :
  named (mkState h0 (newTable E typ)).
Proof.
  destruct (newTable_fresh E typ) as (_ & HF & HP & HD & HM & HA & HS & _).
  split; cbn [heap tbl]; rewrite ?HF, ?HM.
  - intros k p Hk. by rewrite lookup_empty in Hk.
  - intros p Hp. by apply elem_of_nil in Hp.
Qed.

(** After initFields on a new table, in a program without alias
    options. *)
Lemma initFields_named E reg fuel typ h0 st' :
  noAlias E ->
  initFields E reg fuel (mkState h0 (newTable E typ)) = Some st' ->
  named st'
  /\ NoDup (Table.Fields (tbl st'))
  /\ NoDup (Table.DataFields (tbl st'))
  /\ (forall p, p ∈ Table.Fields (tbl st') -> p < length (heap st')).
Proof.
  intros Hno Hinit. apply initFields_fresh in Hinit as (st1 & Hscan & Hst').
  pose proof (addFields_discovering E reg fuel typ [] _ st1
                (scanned_fresh E typ h0) (discovered_fresh E typ h0) Hscan) as Hdv.
  pose proof (addFields_naming E reg fuel Hno typ [] _ st1
                (scanned_fresh E typ h0) (discovered_fresh E typ h0)
                (named_fresh E typ h0) Hscan) as Hnm.
  assert (Hnd : NoDup (Table.DataFields (tbl st1))).
  { rewrite (dv_data _ Hdv). apply NoDup_filter, (dv_nodup _ Hdv). }
  assert (Hfv : forall p, p ∈ Table.Fields (tbl st1) -> p < length (heap st1)).
  { intros p Hp. apply (dv_valid _ Hdv). by apply (dv_fields _ Hdv). }
  destruct Hst' as [-> | (f & Hpks & Hkey & ->)].
  { split; [done |]. split; [apply (dv_nodup _ Hdv) |]. split; done. }
  destruct (conventionalKey_registered _ _ Hkey) as [k Hk].
  assert (Hvalid : f < length (heap st1)).
  { apply (dv_valid _ Hdv). by eapply (dv_map _ Hdv). }
  assert (Hname : forall p,
             Field.Name (deref (store (heap st1) f
                                  (Field.set_AutoIncrement true (markAsPK (deref (heap st1) f)))) p)
             = Field.Name (deref (heap st1) p)).
  { intros p. destruct (decide (p = f)) as [-> | Hne].
    - by rewrite deref_store_eq.
    - by rewrite deref_store_ne. }
  split; [| split; [exact (dv_nodup _ Hdv) | split]].
  - destruct Hnm as [H1 H2]. split; cbn [heap tbl]; intros; rewrite Hname.
    + by apply H1.
    + by apply H2.
  - cbn [tbl]. change (NoDup (removeField (Table.DataFields (tbl st1)) f)).
    by apply removeField_NoDup.
  - cbn [heap tbl]. unfold store. rewrite length_insert. exact Hfv.
Qed.

Lemma named_columns st :
  named st -> NoDup (Table.Fields (tbl st)) -> columnsByName st.
Proof.
  intros [H1 H2] Hnd. split.
  - intros p Hp. unfold fieldWithLock, HasField. rewrite (H2 p Hp).
    split; [done |]. by apply bool_decide_eq_true.
  - intros i j p q Hij Hp Hq Heq.
    assert (Hpq : p = q).
    { apply list_elem_of_lookup_2 in Hp as Hp', Hq as Hq'.
      apply H2 in Hp', Hq'. rewrite Heq in Hp'. congruence. }
    subst q. apply Hij. by eapply NoDup_lookup.
Qed.

Lemma initInlinesLoop_fields E reg fuel fs : forall st st',
  initInlinesLoop E reg fuel fs st = Done st' ->
  Table.Fields (tbl st') = Table.Fields (tbl st)
  /\ Table.DataFields (tbl st') = Table.DataFields (tbl st).
Proof.
  induction fs as [| f fs IH]; intros st st'; simpl.
  - by intros [= <-].
  - destruct (bool_decide _); [| apply IH].
    destruct (inlineFields E reg fuel f None st) as [[path' st1] | |] eqn:Hinl; try done.
    cbn [mbind outcome_bind bind]. intros Hrun.
    apply inlineFields_inlined in Hinl as [Hin _].
    destruct (set_FieldMap_projections _ _ _ (in_table _ _ _ Hin)) as (HF & _ & HD & _).
    destruct (IH _ _ Hrun) as [-> ->]. done.
Qed.

(** What init2 leaves of the columns of phase 1. *)
Lemma init2_columns E reg fuel st st' :
  named st ->
  NoDup (Table.Fields (tbl st)) ->
  NoDup (Table.DataFields (tbl st)) ->
  (forall p, p ∈ Table.Fields (tbl st) -> p < length (heap st)) ->
  init2 E reg fuel st = Done st' ->
  columnsByName st'.
Proof.
  intros [Hm Hf] Hnd Hndd Hvalid. unfold init2, initInlines, initRelations.
  destruct (initInlinesLoop E reg fuel _ st) as [st1 | |] eqn:H1; try done.
  cbn [mbind outcome_bind bind].
  destruct (initRelationsLoop E reg fuel _ 0 st1) as [st2 | |] eqn:H2; try done.
  cbn [mbind outcome_bind bind]. intros [= <-].
  destruct (initInlinesLoop_fields _ _ _ _ _ _ H1) as [HF1 HD1].
  pose proof (initInlinesLoop_phase2 _ _ _ _ _ _ H1) as P1.
  pose proof (initRelationsLoop_phase2 _ _ _ _ _ _ _ H2) as P2.
  destruct (p2_heap _ _ _ P1) as (c1 & Hh1 & _).
  destruct (phase2_trans E _ _ _ P1 P2) as [(c & Hh & _) _ Hkept _].
  assert (Hvalid1 : forall p, p ∈ Table.Fields (tbl st1) -> p < length (heap st1)).
  { intros p. rewrite HF1, Hh1, length_app. intros Hp. apply Hvalid in Hp. lia. }
  assert (Hndd1 : NoDup (Table.DataFields (tbl st1))) by (by rewrite HD1).
  destruct (initRelationsLoop_relating E reg fuel st1 st2 Hvalid1 _ 0 st1
              (relating_start st1 Hndd1) H2)
    as (j & [_ Hsub Hfil Hseen _ _ _ _ _] & Hj).
  rewrite take_ge in Hseen by done.
  assert (HF2 : Table.Fields (tbl st2)
                = filter (fun p => isRelationField (deref (heap st1) p) = false)
                    (Table.Fields (tbl st))).
  { rewrite <- HF1, <- Hfil. clear -Hseen. induction Hseen as [| p l Hp Hl IH]; [done |].
    rewrite filter_cons_True by done. by rewrite <- IH. }
  assert (Hnd2 : NoDup (Table.Fields (tbl st2))) by (rewrite HF2; by apply NoDup_filter).
  assert (Hin : forall p, p ∈ Table.Fields (tbl st2) ->
                  p ∈ Table.Fields (tbl st)
                  /\ deref (heap st2) p = deref (heap st) p).
  { intros p. rewrite HF2. intros Hp. apply list_elem_of_filter in Hp as [_ Hp].
    split; [done |]. rewrite Hh. apply deref_app. by apply Hvalid. }
  assert (Hlook : forall p, p ∈ Table.Fields (tbl st2) ->
                    Table.FieldMap (tbl st2) !! Field.Name (deref (heap st2) p) = Some p).
  { intros p Hp. destruct (Hin p Hp) as [Hp0 ->]. by apply Hkept, Hf. }
  split; cbn [heap tbl onTable]; change (Table.Fields (Table.set_skippedFields [] (tbl st2)))
    with (Table.Fields (tbl st2)).
  - intros p Hp. unfold fieldWithLock, HasField.
    change (Table.FieldMap (Table.set_skippedFields [] (tbl st2)))
      with (Table.FieldMap (tbl st2)).
    rewrite (Hlook p Hp). split; [done |]. by apply bool_decide_eq_true.
  - intros i j' p q Hij Hp Hq Heq.
    assert (Hpq : p = q).
    { apply list_elem_of_lookup_2 in Hp as Hp', Hq as Hq'.
      apply Hlook in Hp', Hq'. rewrite Heq in Hp'. congruence. }
    subst q. apply Hij. by eapply NoDup_lookup.
Qed.

(** X21.  Columns are found by their names.  In a program in which no
    member of a record type carries the field option alias, after
    initFields on a new table every field of [Fields] is the field that
    the field map holds under the field's column name (so HasField and
    the lookup by name find it), every entry of the field map leads to a
    field of that name, and no two fields of [Fields] have the same
    column name: of two members that resolve to the same column name the
    later one replaces the earlier one.  The columns that are left after
    init2 are still found under their names and still have different
    names. *)
Theorem columns_found_by_name (E : Env) (reg : Tables) (fuel : nat)
    (typ : rtype) (h0 : Heap) (st1 : State) :
  noAlias E ->
  initFields E reg fuel (mkState h0 (newTable E typ)) = Some st1 ->
  columnsByName st1
  /\ (forall name p, fieldWithLock (tbl st1) name = Some p ->
                     Field.Name (deref (heap st1) p) = name)
  /\ (forall reg2 fuel2 st2, init2 E reg2 fuel2 st1 = Done st2 -> columnsByName st2).
Proof.
  intros Hno Hinit.
  destruct (initFields_named E reg fuel typ h0 st1 Hno Hinit) as (Hnm & Hnd & Hndd & Hvalid).
  split; [by apply named_columns |]. split; [exact (nm_map _ Hnm) |].
  intros reg2 fuel2 st2. by apply init2_columns.
Qed.

(** With an alias option the names of the columns need not differ: the
    alias of B takes over the entry of A, so C, which resolves to the
    same name, replaces B instead of A. *)
Example alias_shadows_column :
  exists st1,
    initFields aliasEnv noTables 8 (mkState [] (newTable aliasEnv (structT "Shadow")))
    = Some st1
    /\ Table.Fields (tbl st1) = [0; 2]
    /\ Field.Name (deref (heap st1) 0) = "x"
    /\ Field.Name (deref (heap st1) 2) = "x"
    /\ Field.GoName (deref (heap st1) 1) = "B"
    /\ Table.FieldMap (tbl st1) !! "b" = None.
Proof.
  assert (Hok : match initFields aliasEnv noTables 8
                        (mkState [] (newTable aliasEnv (structT "Shadow"))) with
                | Some st1 =>
                    bool_decide (Table.Fields (tbl st1) = [0; 2]
                                 /\ Field.Name (deref (heap st1) 0) = "x"
                                 /\ Field.Name (deref (heap st1) 2) = "x"
                                 /\ Field.GoName (deref (heap st1) 1) = "B"
                                 /\ Table.FieldMap (tbl st1) !! "b" = None)
                | None => false
                end = true) by (vm_compute; reflexivity).
  destruct (initFields aliasEnv noTables 8
              (mkState [] (newTable aliasEnv (structT "Shadow"))))
    as [st1 |] eqn:Hrun; [| discriminate Hok].
  apply bool_decide_eq_true in Hok. exists st1. split; [reflexivity | exact Hok].
Qed.

(** ** The soft-delete field of a table *)

Lemma makeField_soft E f index :
  isSoftDelete (makeField E f index)
  = negb (isSkipped E f) && Tag.HasOption (Parse E (reflect.TagBun f)) "soft_delete".
Proof. unfold isSoftDelete, isSkipped. by rewrite makeField_Tag. Qed.

Lemma makeField_NullZero E f index :
  isSoftDelete (makeField E f index) = true ->
  Field.NullZero (makeField E f index) = true.
Proof.
  rewrite makeField_soft. unfold isSkipped, makeField. cbv zeta.
  intros ->. reflexivity.
Qed.

Lemma created_soft E f index st :
  let st1 := match createField E f index st with
             | (Some field, st) => addField field st
             | (None, st) => st
             end in
  Table.SoftDeleteField (tbl st1)
  = (if isSoftDelete (makeField E f index) then Some (length (heap st))
     else Table.SoftDeleteField (tbl st))
  /\ Table.UpdateSoftDeleteField (tbl st1)
     = (if isSoftDelete (makeField E f index)
        then Some (softDeleteFieldUpdater (makeField E f index))
        else Table.UpdateSoftDeleteField (tbl st)).
Proof.
  cbv zeta. rewrite makeField_soft.
  unfold createField, alloc, isSkipped, addField. cbv zeta.
  repeat (case_match; simpl in *; simplify_eq); rewrite ?deref_alloc; done.
Qed.

Lemma softDeleteChoice_same st st' :
  softDeleteChoice st ->
  heap st' = heap st ->
  Table.allFields (tbl st') = Table.allFields (tbl st) ->
  Table.SoftDeleteField (tbl st') = Table.SoftDeleteField (tbl st) ->
  Table.UpdateSoftDeleteField (tbl st') = Table.UpdateSoftDeleteField (tbl st) ->
  softDeleteChoice st'.
Proof.
  unfold softDeleteChoice. intros H Hh HA HS HU. by rewrite Hh, HA, HS, HU.
Qed.

Lemma softDeleteChoice_removeField st prior :
  softDeleteChoice st -> softDeleteChoice (Table_removeField prior st).
Proof.
  intros H. apply (softDeleteChoice_same st); [done | done | | |];
    unfold Table_removeField; by destruct (Field.IsPK _).
Qed.

Lemma softDeleteChoice_created E f index st :
  discovered st -> softDeleteChoice st ->
  softDeleteChoice (match createField E f index st with
                    | (Some field, st) => addField field st
                    | (None, st) => st
                    end).
Proof.
  intros Hdv Hsd.
  pose proof (discover_created E f index st) as (Hh & _ & HA & _).
  pose proof (created_soft E f index st) as (HS & HU).
  set (st1 := match createField E f index st with
              | (Some field, st) => addField field st
              | (None, st) => st
              end) in *.
  set (new := length (heap st)) in *. cbv zeta in HS, HU.
  assert (Hnew : deref (heap st1) new = makeField E f index)
    by (by rewrite Hh, deref_alloc).
  assert (Hold : forall p, p ∈ Table.allFields (tbl st) ->
                           deref (heap st1) p = deref (heap st) p).
  { intros p Hp. rewrite Hh. apply deref_app. by apply (dv_valid _ Hdv). }
  assert (Hall : forall l, l ⊆ Table.allFields (tbl st) ->
             Forall (fun q => isSoftDelete (deref (heap st) q) = false) l ->
             Forall (fun q => isSoftDelete (deref (heap st1) q) = false) l).
  { intros l Hsub Hl. apply Forall_forall. intros q Hq.
    rewrite Hold by (by apply Hsub). by eapply (proj1 (Forall_forall _ _) Hl). }
  unfold softDeleteChoice in *. rewrite HS, HU, HA.
  destruct (isSoftDelete (makeField E f index)) eqn:Hsoft.
  - split; [| by rewrite Hnew, Hsoft, makeField_NullZero].
    exists (Table.allFields (tbl st)), []. split; [done | constructor].
  - destruct (Table.SoftDeleteField (tbl st)) as [p |] eqn:Hp.
    + destruct Hsd as ((before & after & Hsplit & Hafter) & H1 & H2 & H3).
      assert (Hin : p ∈ Table.allFields (tbl st)).
      { rewrite Hsplit. apply elem_of_app. right. by left. }
      rewrite (Hold p Hin). split; [| done].
      exists before, (after ++ [new]). split; [by rewrite Hsplit, <- app_assoc |].
      apply Forall_app. split.
      * apply Hall; [| done]. rewrite Hsplit. intros q Hq.
        apply elem_of_app. right. by right.
      * apply Forall_singleton. by rewrite Hnew.
    + destruct Hsd as [H1 H2]. split; [done |]. apply Forall_app. split.
      * by apply Hall.
      * apply Forall_singleton. by rewrite Hnew.
Qed.

Lemma processBaseModelField_soft E f t :
  Table.SoftDeleteField (processBaseModelField E f t) = Table.SoftDeleteField t
  /\ Table.UpdateSoftDeleteField (processBaseModelField E f t)
     = Table.UpdateSoftDeleteField t.
Proof. unfold processBaseModelField, setName. repeat (case_match; simpl); done. Qed.

Lemma softDeleteChoice_step E reg rec base i f0 st st' :
  scanning rec ->
  discovering rec ->
  softening rec ->
  scanned st (base ++ [i]) ->
  discovered st ->
  softDeleteChoice st ->
  addFieldsStep E reg rec base i f0 st = Some st' ->
  softDeleteChoice st'.
Proof.
  intros Hrec Hrec' Hrec'' Hsc Hdv Hsd. destruct (reflect.Anonymous f0) eqn:Hanon.
  - unfold addFieldsStep. simpl. rewrite Hanon.
    destruct (String.eqb (reflect.TagBun f0) "-"); [by intros [= <-] |].
    destruct (String.eqb (reflect.Name f0) "BaseModel").
    { intros [= <-]. destruct (length base =? 0)%nat; [| done].
      pose proof (processBaseModelField_lists E (reflect.withIndex f0 [i]) (tbl st))
        as (? & ? & ? & ? & ? & _).
      pose proof (processBaseModelField_soft E (reflect.withIndex f0 [i]) (tbl st))
        as (? & ?).
      by apply (softDeleteChoice_same st). }
    destruct (negb _); [by intros [= <-] |].
    destruct (rec _ _ st) as [st1 |] eqn:Hr; [| done].
    assert (Hsc0 : scanned st ((base ++ [i]) ++ [0])).
    { apply (scanned_mono _ (base ++ [i])); [done |]. intros x. apply lexlt_app_r. }
    assert (Hsd1 : softDeleteChoice st1)
      by (by eapply Hrec''; [exact Hsc0 | exact Hdv | exact Hsd | exact Hr]).
    destruct (Tag.HasOption _ "inherit"); intros [= <-]; [| done].
    by apply (softDeleteChoice_same st1).
  - rewrite (addFieldsStep_plain _ _ _ _ _ _ _ Hanon).
    intros [= <-]. set (f := reflect.withIndex f0 [i]).
    destruct (decide (reflect.PkgPath f = "")) as [Hpkg | Hpkg].
    + destruct (fieldWithLock (tbl st) (columnName E f)) as [prior |] eqn:Hprior.
      * destruct (decide (Field.Index (deref (heap st) prior) = base ++ reflect.Index f))
          as [Hix | Hix].
        -- exfalso. destruct (sc_map _ _ Hsc _ _ Hprior) as [_ Hlt].
           rewrite Hix in Hlt. by apply lexlt_irrefl in Hlt.
        -- rewrite (newField_other_path E f base st prior Hpkg Hprior Hix).
           apply softDeleteChoice_created; [by apply discovered_removeField |].
           by apply softDeleteChoice_removeField.
      * rewrite (newField_unregistered E f base st Hpkg Hprior).
        by apply softDeleteChoice_created.
    + unfold newField. apply String.eqb_neq in Hpkg. rewrite Hpkg. simpl. done.
Qed.

Lemma softDeleteChoice_loop E reg rec base fs : forall i st st',
  scanning rec ->
  discovering rec ->
  softening rec ->
  scanned st (base ++ [i]) ->
  discovered st ->
  softDeleteChoice st ->
  addFieldsLoop E reg rec base i fs st = Some st' ->
  softDeleteChoice st'.
Proof.
  induction fs as [| f fs IH]; intros i st st' Hrec Hrec' Hrec'' Hsc Hdv Hsd; simpl.
  - by intros [= <-].
  - destruct (addFieldsStep E reg rec base i f st) as [st1 |] eqn:Hstep; [| done].
    intros Hloop.
    pose proof (scanned_step _ _ _ _ _ _ _ _ Hrec Hsc Hstep) as Hsc1.
    pose proof (discovered_step _ _ _ _ _ _ _ _ Hrec Hrec' Hsc Hdv Hstep) as Hdv1.
    pose proof (softDeleteChoice_step _ _ _ _ _ _ _ _ Hrec Hrec' Hrec'' Hsc Hdv Hsd Hstep)
      as Hsd1.
    by apply (IH (S i) st1 st').
Qed.

Lemma addFields_softening E reg fuel : softening (addFields E reg fuel).
Proof.
  induction fuel as [| fuel IH]; intros typ base st st' Hsc Hdv Hsd; simpl; [done |].
  apply (softDeleteChoice_loop E reg _ base _ 0 st st'); try done.
  - apply addFields_scanning.
  - apply addFields_discovering.
Qed.

Lemma hook_fold_soft (E : Env) (typ : rtype) (l : list (Hook * Z)) (t0 : Table.t) :
  let t := foldl (fun t (hook : Hook * Z) =>
                    if Implements E typ hook.1
                    then Table.set_flags (Flag.Set_ (Table.flags t) hook.2) t
                    else t) t0 l in
  Table.SoftDeleteField t = Table.SoftDeleteField t0
  /\ Table.UpdateSoftDeleteField t = Table.UpdateSoftDeleteField t0.
Proof.
  revert t0. induction l as [| hk l IH]; intros t0; [done |].
  cbn [foldl]. cbv zeta in IH. destruct (Implements E typ hk.1).
  - destruct (IH (Table.set_flags (Flag.Set_ (Table.flags t0) hk.2) t0)) as (-> & ->). done.
  - apply IH.
Qed.

Lemma softDeleteChoice_fresh (E : Env) (typ : rtype) (h0 : Heap) :
  softDeleteChoice (mkState h0 (newTable E typ)).
Proof.
  destruct (newTable_fresh E typ) as (_ & _ & _ & _ & _ & HA & _).
  assert (HS : Table.SoftDeleteField (newTable E typ) = None
               /\ Table.UpdateSoftDeleteField (newTable E typ) = None).
  { unfold newTable. cbv zeta.
    match goal with
    | |- context [foldl ?g ?t0 hooks] =>
        destruct (hook_fold_soft E typ hooks t0) as (-> & ->)
    end. done. }
  destruct HS as [HS HU].
  unfold softDeleteChoice. cbn [heap tbl]. rewrite HS, HU, HA. split; [done | constructor].
Qed.

(** X22.  The soft-delete field.  After initFields on a new table the
    soft-delete field of the table, when there is one, is the last of
    the discovered fields ([allFields], in the order of discovery) that
    carries the option soft_delete and is not skipped; it has [NullZero]
    set, and the table's updater is the one that softDeleteFieldUpdater
    chooses for it.  When no discovered field carries the option
    unskipped, the table has neither a soft-delete field nor an
    updater. *)
Theorem soft_delete_field_choice (E : Env) (reg : Tables) (fuel : nat)
    (typ : rtype) (h0 : Heap) (st' : State) :
  initFields E reg fuel (mkState h0 (newTable E typ)) = Some st' ->
  match Table.SoftDeleteField (tbl st') with
  | Some p =>
      (exists before after,
          Table.allFields (tbl st') = before ++ p :: after
          /\ Forall (fun q => isSoftDelete (deref (heap st') q) = false) after)
      /\ isSoftDelete (deref (heap st') p) = true
      /\ Field.NullZero (deref (heap st') p) = true
      /\ Table.UpdateSoftDeleteField (tbl st')
         = Some (softDeleteFieldUpdater (deref (heap st') p))
  | None =>
      Table.UpdateSoftDeleteField (tbl st') = None
      /\ Forall (fun q => isSoftDelete (deref (heap st') q) = false)
           (Table.allFields (tbl st'))
  end.
Proof.
  intros Hinit. apply initFields_fresh in Hinit as (st1 & Hscan & Hst').
  pose proof (addFields_discovering E reg fuel typ [] _ st1
                (scanned_fresh E typ h0) (discovered_fresh E typ h0) Hscan) as Hdv.
  pose proof (addFields_softening E reg fuel typ [] _ st1
                (scanned_fresh E typ h0) (discovered_fresh E typ h0)
                (softDeleteChoice_fresh E typ h0) Hscan) as Hsd.
  destruct Hst' as [-> | (f & Hpks & Hkey & ->)]; [exact Hsd |].
  destruct (conventionalKey_registered _ _ Hkey) as [k Hk].
  assert (Hvalid : f < length (heap st1)).
  { apply (dv_valid _ Hdv). by eapply (dv_map _ Hdv). }
  set (h' := store (heap st1) f
               (Field.set_AutoIncrement true (markAsPK (deref (heap st1) f)))).
  assert (Hsame : forall p,
             isSoftDelete (deref h' p) = isSoftDelete (deref (heap st1) p)
             /\ Field.NullZero (deref h' p) = Field.NullZero (deref (heap st1) p)
             /\ softDeleteFieldUpdater (deref h' p)
                = softDeleteFieldUpdater (deref (heap st1) p)).
  { intros p. unfold h'. destruct (decide (p = f)) as [-> | Hne].
    - by rewrite deref_store_eq.
    - by rewrite deref_store_ne. }
  assert (Hall : forall l,
             Forall (fun q => isSoftDelete (deref (heap st1) q) = false) l ->
             Forall (fun q => isSoftDelete (deref h' q) = false) l).
  { intros l Hl. eapply Forall_impl; [exact Hl |]. intros q Hq. simpl.
    by destruct (Hsame q) as (-> & _). }
  unfold softDeleteChoice in Hsd. cbn [heap tbl].
  change (Table.SoftDeleteField _) with (Table.SoftDeleteField (tbl st1)).
  change (Table.UpdateSoftDeleteField _) with (Table.UpdateSoftDeleteField (tbl st1)).
  change (Table.allFields (Table.set_DataFields _ _)) with (Table.allFields (tbl st1)).
  destruct (Table.SoftDeleteField (tbl st1)) as [p |].
  - destruct Hsd as ((before & after & Hsplit & Hafter) & H1 & H2 & H3).
    destruct (Hsame p) as (-> & -> & ->).
    split; [| done]. exists before, after. split; [done | by apply Hall].
  - destruct Hsd as [H1 H2]. split; [done | by apply Hall].
Qed.

(** ** The further properties at concrete inputs *)


Lemma explicit_join_resolution_witness :
  Tag.Options (Field.Tag (deref writerHeap 27)) !! "join" = Some "author_id=id"
  /\ parseRelationJoin "author_id=id" = Some (["author_id"], ["id"])
  /\ resolveColumns bookT ["author_id"] = Some [3]
  /\ resolveColumns authorT ["id"] = Some [0]
  /\ CheckPKs authorT = None
  /\ hasOneRelation writerEnv demoTables writerHeap bookT bookT 27
     = Done (Relation.mk HasOneRelation 27 (structT "Author") [3] [0] None "" None [] []).
Proof.
  assert (Hjoin : Tag.Options (Field.Tag (deref writerHeap 27)) !! "join"
                  = Some "author_id=id") by (vm_compute; reflexivity).
  assert (Hparse : parseRelationJoin "author_id=id" = Some (["author_id"], ["id"]))
    by (vm_compute; reflexivity).
  assert (Hb : resolveColumns bookT ["author_id"] = Some [3]) by (vm_compute; reflexivity).
  assert (Hj : resolveColumns authorT ["id"] = Some [0]) by (vm_compute; reflexivity).
  assert (Hpk : CheckPKs authorT = None) by (vm_compute; reflexivity).
  split; [exact Hjoin |]. split; [exact Hparse |]. split; [exact Hb |].
  split; [exact Hj |]. split; [exact Hpk |].
  destruct (explicit_join_resolution writerEnv demoTables writerHeap bookT bookT 27
              "author_id=id" ["author_id"] ["id"] Hjoin Hparse) as [Hok _].
  assert (HJT : Tables_Ref demoTables bookT (Field.Typ (deref writerHeap 27)) = authorT)
    by (vm_compute; reflexivity).
  rewrite HJT in Hok.
  assert (Htyp : Table.Typ authorT = structT "Author") by (vm_compute; reflexivity).
  rewrite Htyp in Hok.
  destruct (Hok [3] [0] Hb Hj) as [Hone _].
  exact (Hone Hpk).
Defined.

Lemma relation_requires_primary_keys_witness :
  Table.PKs (tbl keylessBook) = []
  /\ Tag.Options (Field.Tag (deref (heap keylessBook) 4)) !! "rel" = Some "belongs-to"
  /\ tryRelation demoEnv demoTables 4 keylessBook
     = Panic ("bun: " +:+ tableString (tbl keylessBook) +:+ " does not have primary keys").
Proof.
  assert (Hpk : Table.PKs (tbl keylessBook) = []) by reflexivity.
  assert (Hrel : Tag.Options (Field.Tag (deref (heap keylessBook) 4)) !! "rel"
                 = Some "belongs-to") by (vm_compute; reflexivity).
  split; [exact Hpk |]. split; [exact Hrel |].
  destruct (relation_requires_primary_keys demoEnv demoTables 4 keylessBook) as [Hown _].
  apply Hown; [exact Hpk |]. left. exact Hrel.
Defined.

Lemma has_many_polymorphic_witness :
  exists rel,
    hasManyRelation demoEnv demoTables demoHeap ownerT ownerT 17 = Done rel
    /\ Tag.Options (Field.Tag (deref demoHeap 17)) !! "polymorphic" = Some ""
    /\ Relation.PolymorphicField rel = Some 15
    /\ Field.Name (deref demoHeap 15) = "owner_type"
    /\ Relation.PolymorphicValue rel = "owner".
Proof.
  destruct (hasManyRelation demoEnv demoTables demoHeap ownerT ownerT 17)
    as [rel | |] eqn:Hrel; [| vm_compute in Hrel; discriminate ..].
  exists rel. split; [reflexivity |].
  destruct (has_many_polymorphic demoEnv demoTables demoHeap ownerT ownerT 17 rel Hrel)
    as (el & Hel & Hpoly).
  cbv zeta in Hpoly.
  assert (Hopt : Tag.Options (Field.Tag (deref demoHeap 17)) !! "polymorphic" = Some "")
    by (vm_compute; reflexivity).
  split; [exact Hopt |].
  rewrite Hopt in Hpoly. destruct Hpoly as (_ & Hf & Hv).
  assert (Hel' : el = structT "Item").
  { vm_compute in Hel. by injection Hel as <-. }
  subst el.
  assert (Hcol : Table.FieldMap (Tables_Ref demoTables ownerT (indirectType (structT "Item")))
                 !! match Tag.Options (Field.Tag (deref demoHeap 17)) !! "join" with
                    | Some _ => polymorphicColumnOf (joinPairs (deref demoHeap 17))
                    | None => (Underscore demoEnv (Table.ModelName ownerT) +:+ "_") +:+ "type"
                    end = Some 15) by (vm_compute; reflexivity).
  rewrite Hcol in Hf.
  assert (Hval : (if String.eqb "" "" then Table.ModelName ownerT else "") = "owner")
    by (vm_compute; reflexivity).
  rewrite Hval in Hv.
  split; [exact Hf |]. split; [vm_compute; reflexivity | exact Hv].
Defined.

Lemma inlineFields_only_adds_witness :
  exists path' st',
    inlineFields demoEnv demoTables 8 4 None (mkState demoHeap bookT) = Done (path', st')
    /\ length (heap st') = 29
    /\ Table.FieldMap (tbl st') !! "author__name" = Some 28
    /\ (exists clones,
          heap st' = heap (mkState demoHeap bookT) ++ clones
          /\ Forall (fun c => exists s f, c = cloneOf demoEnv s f) clones)
    /\ (forall name p,
          Table.FieldMap (tbl (mkState demoHeap bookT)) !! name = Some p ->
          Table.FieldMap (tbl st') !! name = Some p)
    /\ (forall name p,
          Table.FieldMap (tbl (mkState demoHeap bookT)) !! name = None ->
          Table.FieldMap (tbl st') !! name = Some p ->
          length (heap (mkState demoHeap bookT)) <= p < length (heap st')
          /\ Field.Name (deref (heap st') p) = name)
    /\ Table.set_FieldMap (Table.FieldMap (tbl (mkState demoHeap bookT))) (tbl st')
       = tbl (mkState demoHeap bookT)
    /\ visitedOf None (mkState demoHeap bookT) ⊆ path'.
Proof.
  assert (Hok : match inlineFields demoEnv demoTables 8 4 None (mkState demoHeap bookT) with
                | Done (_, st') =>
                    bool_decide (length (heap st') = 29
                                 /\ Table.FieldMap (tbl st') !! "author__name" = Some 28)
                | _ => false
                end = true) by (vm_compute; reflexivity).
  destruct (inlineFields demoEnv demoTables 8 4 None (mkState demoHeap bookT))
    as [[path' st'] | |] eqn:Hrun; [| discriminate Hok ..].
  apply bool_decide_eq_true in Hok as [Hlen Hname].
  exists path', st'. split; [reflexivity |]. split; [exact Hlen |]. split; [exact Hname |].
  exact (inlineFields_only_adds demoEnv demoTables 8 4 None (mkState demoHeap bookT)
           path' st' Hrun).
Defined.

Lemma inlineFields_registers_columns_witness :
  exists path' st',
    inlineFields demoEnv demoTables 8 4 None (mkState demoHeap bookT) = Done (path', st')
    /\ (Field.Typ (deref (heap (mkState demoHeap bookT)) 4)
        ∉ visitedOf None (mkState demoHeap bookT))
    /\ 4 < length (heap (mkState demoHeap bookT))
    /\ Table.allFields
         (Tables_Ref demoTables (tbl (mkState demoHeap bookT))
            (Field.Typ (deref (heap (mkState demoHeap bookT)) 4)))
       = [0; 1]
    /\ Field.Name (deref (heap (mkState demoHeap bookT)) 4) +:+ "__"
       +:+ Field.Name (deref (heap (mkState demoHeap bookT)) 1)
       = "author__name"
    /\ exists p,
         Table.FieldMap (tbl st')
           !! (Field.Name (deref (heap (mkState demoHeap bookT)) 4) +:+ "__"
               +:+ Field.Name (deref (heap (mkState demoHeap bookT)) 1))
         = Some p
         /\ (Table.FieldMap (tbl (mkState demoHeap bookT))
               !! (Field.Name (deref (heap (mkState demoHeap bookT)) 4) +:+ "__"
                   +:+ Field.Name (deref (heap (mkState demoHeap bookT)) 1))
             = Some p
             \/ (length (heap (mkState demoHeap bookT)) <= p < length (heap st')
                 /\ Field.Name (deref (heap st') p)
                    = Field.Name (deref (heap (mkState demoHeap bookT)) 4) +:+ "__"
                      +:+ Field.Name (deref (heap (mkState demoHeap bookT)) 1))).
Proof.
  assert (Hok : match inlineFields demoEnv demoTables 8 4 None (mkState demoHeap bookT) with
                | Done _ => true
                | _ => false
                end = true) by (vm_compute; reflexivity).
  destruct (inlineFields demoEnv demoTables 8 4 None (mkState demoHeap bookT))
    as [[path' st'] | |] eqn:Hrun; [| discriminate Hok ..].
  exists path', st'. split; [reflexivity |].
  assert (Hnew : Field.Typ (deref (heap (mkState demoHeap bookT)) 4)
                 ∉ visitedOf None (mkState demoHeap bookT)).
  { intros Hin. unfold visitedOf in Hin. apply elem_of_singleton in Hin.
    vm_compute in Hin. discriminate. }
  assert (Hlen : length (heap (mkState demoHeap bookT)) = 27) by (vm_compute; reflexivity).
  assert (Hstrct : 4 < length (heap (mkState demoHeap bookT))) by (rewrite Hlen; lia).
  assert (Hall : Table.allFields
                   (Tables_Ref demoTables (tbl (mkState demoHeap bookT))
                      (Field.Typ (deref (heap (mkState demoHeap bookT)) 4)))
                 = [0; 1]) by (vm_compute; reflexivity).
  split; [exact Hnew |]. split; [exact Hstrct |]. split; [exact Hall |].
  split; [vm_compute; reflexivity |].
  apply (inlineFields_registers_columns demoEnv demoTables 8 4 None
           (mkState demoHeap bookT) path' st' Hrun Hnew Hstrct).
  - intros f Hf. rewrite Hall in Hf. rewrite Hlen.
    apply elem_of_cons in Hf as [-> | Hf]; [lia |].
    apply list_elem_of_singleton in Hf as ->. lia.
  - rewrite Hall. right. left.
Defined.

Lemma init2_terminates_witness :
  finiteProgram demoTables demoHeap demoTypes 5
  /\ S (size demoTypes) < 20
  /\ (exists st',
        init2 demoEnv demoTables 20 (mkState demoHeap bookT) = Done st'
        /\ Table.skippedFields (tbl st') = []
        /\ exists clones, heap st' = demoHeap ++ clones).
Proof.
  assert (Hfuel : S (size demoTypes) < 20) by (vm_compute; lia).
  split; [exact demo_finite |]. split; [exact Hfuel |].
  assert (Hok : match init2 demoEnv demoTables 20 (mkState demoHeap bookT) with
                | Done _ => true
                | _ => false
                end = true) by (vm_compute; reflexivity).
  destruct (init2_terminates demoEnv demoTables demoTypes 5 demoHeap bookT 20
              demo_finite Hfuel) as [Hdone | [msg Hpanic]].
  - exact Hdone.
  - rewrite Hpanic in Hok. discriminate Hok.
Defined.

Lemma initRelations_splits_fields_witness :
  exists st',
    initRelations demoEnv demoTables 20 (mkState demoHeap bookT) = Done st'
    /\ (forall p, p ∈ Table.Fields (tbl (mkState demoHeap bookT)) ->
                  p < length (heap (mkState demoHeap bookT)))
    /\ NoDup (Table.DataFields (tbl (mkState demoHeap bookT)))
    /\ Table.Fields (tbl (mkState demoHeap bookT)) = [2; 3; 4]
    /\ isRelationField (deref (heap (mkState demoHeap bookT)) 4) = true
    /\ Table.Fields (tbl st') = [2; 3]
    /\ Table.PKs (tbl st') = Table.PKs (tbl (mkState demoHeap bookT))
    /\ (4 ∉ Table.DataFields (tbl st'))
    /\ exists r, Table.Relations (tbl st') !! "Author" = Some r /\ Relation.Field r = 4.
Proof.
  assert (Hok : match initRelations demoEnv demoTables 20 (mkState demoHeap bookT) with
                | Done _ => true
                | _ => false
                end = true) by (vm_compute; reflexivity).
  destruct (initRelations demoEnv demoTables 20 (mkState demoHeap bookT))
    as [st' | |] eqn:Hrun; [| discriminate Hok ..].
  exists st'. split; [reflexivity |].
  assert (HF : Table.Fields (tbl (mkState demoHeap bookT)) = [2; 3; 4])
    by (vm_compute; reflexivity).
  assert (HD : Table.DataFields (tbl (mkState demoHeap bookT)) = [3; 4])
    by (vm_compute; reflexivity).
  assert (Hlen : length (heap (mkState demoHeap bookT)) = 27) by (vm_compute; reflexivity).
  assert (Hvalid : forall p, p ∈ Table.Fields (tbl (mkState demoHeap bookT)) ->
                             p < length (heap (mkState demoHeap bookT))).
  { intros p Hp. rewrite HF in Hp. rewrite Hlen.
    repeat (apply elem_of_cons in Hp as [-> | Hp]; [lia |]).
    exfalso. exact (proj1 (elem_of_nil p) Hp). }
  assert (Hnd : NoDup (Table.DataFields (tbl (mkState demoHeap bookT)))).
  { rewrite HD. apply (bool_decide_unpack _). vm_compute. exact I. }
  assert (Hrel : isRelationField (deref (heap (mkState demoHeap bookT)) 4) = true)
    by (vm_compute; reflexivity).
  split; [exact Hvalid |]. split; [exact Hnd |]. split; [exact HF |].
  split; [exact Hrel |].
  destruct (initRelations_splits_fields demoEnv demoTables 20 (mkState demoHeap bookT) st'
              Hrun Hvalid Hnd) as (Hfields & Hpks & _ & _ & Hgone).
  assert (Hfil : filter (fun p => isRelationField
                                    (deref (heap (mkState demoHeap bookT)) p) = false)
                   (Table.Fields (tbl (mkState demoHeap bookT))) = [2; 3])
    by (vm_compute; reflexivity).
  rewrite Hfil in Hfields.
  split; [exact Hfields |]. split; [exact Hpks |].
  assert (Hname : Field.GoName (deref (heap (mkState demoHeap bookT)) 4) = "Author")
    by (vm_compute; reflexivity).
  rewrite <- Hname. apply Hgone; [| exact Hrel].
  rewrite HF. right. right. left.
Defined.

Lemma initFields_partitions_fields_witness :
  exists st',
    initFields ghostEnv noTables 8 (mkState [] (newTable ghostEnv (structT "Ghost")))
    = Some st'
    /\ Table.Fields (tbl st') = [1]
    /\ Table.PKs (tbl st') = [0]
    /\ Table.skippedFields (tbl st') = [0]
    /\ NoDup (Table.Fields (tbl st'))
    /\ Table.DataFields (tbl st')
       = filter (fun p => Field.IsPK (deref (heap st') p) = false) (Table.Fields (tbl st'))
    /\ (Table.PKs (tbl st')
        = filter (fun p => Field.IsPK (deref (heap st') p) = true) (Table.Fields (tbl st'))
        \/ exists f,
             Table.PKs (tbl st') = [f]
             /\ (f ∉ Table.Fields (tbl st'))
             /\ f ∈ Table.allFields (tbl st')
             /\ Field.IsPK (deref (heap st') f) = true
             /\ forall p, p ∈ Table.Fields (tbl st') ->
                          Field.IsPK (deref (heap st') p) = false).
Proof.
  assert (Hok : match initFields ghostEnv noTables 8
                        (mkState [] (newTable ghostEnv (structT "Ghost"))) with
                | Some st' =>
                    bool_decide (Table.Fields (tbl st') = [1]
                                 /\ Table.PKs (tbl st') = [0]
                                 /\ Table.skippedFields (tbl st') = [0])
                | None => false
                end = true) by (vm_compute; reflexivity).
  destruct (initFields ghostEnv noTables 8
              (mkState [] (newTable ghostEnv (structT "Ghost"))))
    as [st' |] eqn:Hrun; [| discriminate Hok].
  apply bool_decide_eq_true in Hok as (HF & HP & HS).
  exists st'. split; [reflexivity |]. split; [exact HF |]. split; [exact HP |].
  split; [exact HS |].
  exact (initFields_partitions_fields ghostEnv noTables 8 (structT "Ghost") [] st' Hrun).
Defined.

Lemma initFields_skips_and_exports_witness :
  exists st',
    initFields demoEnv noTables 8 (mkState [] (newTable demoEnv (structT "Node")))
    = Some st'
    /\ Table.Fields (tbl st') = [0]
    /\ Table.skippedFields (tbl st') = [1]
    /\ Field.GoName (deref (heap st') 1) = "Next"
    /\ (forall p, p ∈ Table.allFields (tbl st') ->
          p < length (heap st')
          /\ reflect.PkgPath (Field.StructField (deref (heap st') p)) = "")
    /\ (forall p, p ∈ Table.Fields (tbl st') ->
          p ∈ Table.allFields (tbl st')
          /\ Tag.Name (Field.Tag (deref (heap st') p)) <> "-")
    /\ (forall p, p ∈ Table.skippedFields (tbl st') ->
          p ∈ Table.allFields (tbl st')
          /\ Tag.Name (Field.Tag (deref (heap st') p)) = "-"
          /\ (p ∉ Table.Fields (tbl st')))
    /\ (forall k p, Table.FieldMap (tbl st') !! k = Some p ->
          p ∈ Table.allFields (tbl st')).
Proof.
  assert (Hok : match initFields demoEnv noTables 8
                        (mkState [] (newTable demoEnv (structT "Node"))) with
                | Some st' =>
                    bool_decide (Table.Fields (tbl st') = [0]
                                 /\ Table.skippedFields (tbl st') = [1]
                                 /\ Field.GoName (deref (heap st') 1) = "Next")
                | None => false
                end = true) by (vm_compute; reflexivity).
  destruct (initFields demoEnv noTables 8
              (mkState [] (newTable demoEnv (structT "Node"))))
    as [st' |] eqn:Hrun; [| discriminate Hok].
  apply bool_decide_eq_true in Hok as (HF & HS & HN).
  exists st'. split; [reflexivity |]. split; [exact HF |]. split; [exact HS |].
  split; [exact HN |].
  exact (initFields_skips_and_exports demoEnv noTables 8 (structT "Node") [] st' Hrun).
Defined.

Lemma init2_only_adds_witness :
  exists st',
    init2 demoEnv demoTables 20 (mkState demoHeap bookT) = Done st'
    /\ Table.Fields (tbl st') = [2; 3]
    /\ Table.PKs (tbl st') = [2]
    /\ length (heap st') = 29
    /\ (exists clones,
          heap st' = heap (mkState demoHeap bookT) ++ clones
          /\ Forall (fun c => exists s f, c = cloneOf demoEnv s f) clones)
    /\ tbl st'
       = Table.set_skippedFields []
           (Table.set_Relations (Table.Relations (tbl st'))
              (Table.set_FieldMap (Table.FieldMap (tbl st'))
                 (Table.set_DataFields (Table.DataFields (tbl st'))
                    (Table.set_Fields (Table.Fields (tbl st'))
                       (tbl (mkState demoHeap bookT))))))
    /\ (forall name p, Table.FieldMap (tbl (mkState demoHeap bookT)) !! name = Some p ->
                       Table.FieldMap (tbl st') !! name = Some p)
    /\ (forall name r, Table.Relations (tbl (mkState demoHeap bookT)) !! name = Some r ->
                       Table.Relations (tbl st') !! name = Some r).
Proof.
  assert (Hok : match init2 demoEnv demoTables 20 (mkState demoHeap bookT) with
                | Done st' =>
                    bool_decide (Table.Fields (tbl st') = [2; 3]
                                 /\ Table.PKs (tbl st') = [2]
                                 /\ length (heap st') = 29)
                | _ => false
                end = true) by (vm_compute; reflexivity).
  destruct (init2 demoEnv demoTables 20 (mkState demoHeap bookT))
    as [st' | |] eqn:Hrun; [| discriminate Hok ..].
  apply bool_decide_eq_true in Hok as (HF & HP & HL).
  exists st'. split; [reflexivity |]. split; [exact HF |]. split; [exact HP |].
  split; [exact HL |].
  exact (init2_only_adds demoEnv demoTables 20 (mkState demoHeap bookT) st' Hrun).
Defined.

Lemma initFields_without_fallback_witness :
  exists st1,
    addFields demoEnv noTables 8 (structT "Author") []
      (mkState [] (newTable demoEnv (structT "Author"))) = Some st1
    /\ Table.PKs (tbl st1) = [0]
    /\ Field.AutoIncrement (deref (heap st1) 0) = false
    /\ initFields demoEnv noTables 8 (mkState [] (newTable demoEnv (structT "Author")))
       = Some st1
    /\ CheckPKs (tbl st1) = None.
Proof.
  assert (Hok : match addFields demoEnv noTables 8 (structT "Author") []
                        (mkState [] (newTable demoEnv (structT "Author"))) with
                | Some st1 =>
                    bool_decide (Table.PKs (tbl st1) = [0]
                                 /\ Field.AutoIncrement (deref (heap st1) 0) = false)
                | None => false
                end = true) by (vm_compute; reflexivity).
  destruct (addFields demoEnv noTables 8 (structT "Author") []
              (mkState [] (newTable demoEnv (structT "Author"))))
    as [st1 |] eqn:Hscan; [| discriminate Hok].
  apply bool_decide_eq_true in Hok as (HP & HA).
  exists st1. split; [reflexivity |]. split; [exact HP |]. split; [exact HA |].
  assert (Hne : Table.PKs (tbl st1) <> []).
  { rewrite HP. intros Heq. discriminate Heq. }
  destruct (initFields_without_fallback demoEnv noTables 8 (structT "Author") [] st1
              Hscan (or_introl Hne)) as (Hinit & Hcheck & _).
  split; [exact Hinit | exact (Hcheck Hne)].
Defined.

Lemma unique_groups_witness :
  reflect.PkgPath (reflect.withIndex (fld "Email" goString "email,unique:people,contact") [2])
  = ""
  /\ fieldWithLock (tbl groupedAuthor)
       (columnName uniqueEnv
          (reflect.withIndex (fld "Email" goString "email,unique:people,contact") [2]))
     = None
  /\ Table.Unique (tbl groupedAuthor) !! "people" = Some [1]
  /\ Table.Unique
       (tbl (newField uniqueEnv
               (reflect.withIndex (fld "Email" goString "email,unique:people,contact") [2])
               [] groupedAuthor).2) !! "people" = Some [1; 27]
  /\ Table.Unique
       (tbl (newField uniqueEnv
               (reflect.withIndex (fld "Email" goString "email,unique:people,contact") [2])
               [] groupedAuthor).2) !! "contact" = Some [27].
Proof.
  assert (Hpkg : reflect.PkgPath
                   (reflect.withIndex (fld "Email" goString "email,unique:people,contact") [2])
                 = "") by reflexivity.
  assert (Hfree : fieldWithLock (tbl groupedAuthor)
                    (columnName uniqueEnv
                       (reflect.withIndex
                          (fld "Email" goString "email,unique:people,contact") [2]))
                  = None) by (vm_compute; reflexivity).
  split; [exact Hpkg |]. split; [exact Hfree |].
  split; [vm_compute; reflexivity |].
  pose proof (unique_groups uniqueEnv
                (reflect.withIndex (fld "Email" goString "email,unique:people,contact") [2])
                [] groupedAuthor Hpkg Hfree) as Hgroups.
  cbv zeta in Hgroups.
  assert (Hopt : Tag.Options
                   (Parse uniqueEnv
                      (reflect.TagBun
                         (reflect.withIndex
                            (fld "Email" goString "email,unique:people,contact") [2])))
                 !! "unique" = Some "people,contact") by (vm_compute; reflexivity).
  rewrite Hopt in Hgroups.
  split.
  - rewrite (Hgroups "people"). vm_compute. reflexivity.
  - rewrite (Hgroups "contact"). vm_compute. reflexivity.
Defined.

Lemma initFields_declaration_order_witness :
  exists st',
    initFields demoEnv noTables 8 (mkState [] (newTable demoEnv (structT "Book")))
    = Some st'
    /\ map (fun p => Field.Index (deref (heap st') p)) (Table.Fields (tbl st'))
       = [[0]; [1]; [2]]
    /\ (forall i j p q, i < j ->
          Table.Fields (tbl st') !! i = Some p -> Table.Fields (tbl st') !! j = Some q ->
          lexlt (Field.Index (deref (heap st') p)) (Field.Index (deref (heap st') q))
          /\ Field.Index (deref (heap st') p) <> Field.Index (deref (heap st') q))
    /\ (forall p, p ∈ Table.Fields (tbl st') -> Field.Index (deref (heap st') p) <> []).
Proof.
  assert (Hok : match initFields demoEnv noTables 8
                        (mkState [] (newTable demoEnv (structT "Book"))) with
                | Some st' =>
                    bool_decide
                      (map (fun p => Field.Index (deref (heap st') p))
                           (Table.Fields (tbl st')) = [[0]; [1]; [2]])
                | None => false
                end = true) by (vm_compute; reflexivity).
  destruct (initFields demoEnv noTables 8
              (mkState [] (newTable demoEnv (structT "Book"))))
    as [st' |] eqn:Hrun; [| discriminate Hok].
  apply bool_decide_eq_true in Hok.
  exists st'. split; [reflexivity |]. split; [exact Hok |].
  exact (initFields_declaration_order demoEnv noTables 8 (structT "Book") [] st' Hrun).
Defined.

Lemma table_names_witness :
  exists t,
    t = processBaseModelField baseEnv
          (reflect.mkStructField "BaseModel" "" (structT "BaseModel")
             "users,select:users_view" [0] true)
          (newTable baseEnv (structT "Author"))
    /\ Table.Name (newTable baseEnv (structT "Author")) = "authors"
    /\ quoteIdent baseEnv (Underscore baseEnv (reflect.name (structT "Author")))
       = "`author`"
    /\ Table.TypeName t = "Author"
    /\ Table.ModelName t = "author"
    /\ Table.Name t = "users"
    /\ Table.SQLName t = "`users`"
    /\ Table.SQLNameForSelects t = "`users_view`"
    /\ Table.Alias t = "`author`".
Proof.
  eexists. split; [reflexivity |].
  split; [vm_compute; reflexivity |].
  assert (Hquote : quoteIdent baseEnv
                     (Underscore baseEnv (reflect.name (structT "Author")))
                   = "`author`") by (vm_compute; reflexivity).
  split; [exact Hquote |].
  assert (Halias : quoteIdent baseEnv
                     (Underscore baseEnv (reflect.name (structT "Author"))) <> "")
    by (rewrite Hquote; discriminate).
  pose proof (table_names baseEnv noTables (structT "Author")
                (reflect.mkStructField "BaseModel" "" (structT "BaseModel")
                   "users,select:users_view" [0] true) Halias)
    as [(HT & HM & HN & HS & HSel & HA) _].
  split; [exact HT |]. split; [exact HM |]. split; [exact HN |].
  split; [exact HS |]. split; [exact HSel |]. exact HA.
Defined.

Lemma columns_found_by_name_witness :
  exists st1,
    noAlias demoEnv
    /\ initFields demoEnv noTables 8 (mkState [] (newTable demoEnv (structT "Dup")))
       = Some st1
    /\ Table.Fields (tbl st1) = [1]
    /\ Table.allFields (tbl st1) = [0; 1]
    /\ Field.Name (deref (heap st1) 0) = "id"
    /\ Table.FieldMap (tbl st1) !! "id" = Some 1
    /\ columnsByName st1
    /\ (forall name p, fieldWithLock (tbl st1) name = Some p ->
                       Field.Name (deref (heap st1) p) = name)
    /\ (forall reg2 fuel2 st2, init2 demoEnv reg2 fuel2 st1 = Done st2 -> columnsByName st2).
Proof.
  assert (Hno : noAlias demoEnv).
  { intros typ f _ _. cbn [Parse demoEnv]. unfold demoParse.
    repeat case_match; vm_compute; reflexivity. }
  assert (Hok : match initFields demoEnv noTables 8
                        (mkState [] (newTable demoEnv (structT "Dup"))) with
                | Some st1 =>
                    bool_decide (Table.Fields (tbl st1) = [1]
                                 /\ Table.allFields (tbl st1) = [0; 1]
                                 /\ Field.Name (deref (heap st1) 0) = "id"
                                 /\ Table.FieldMap (tbl st1) !! "id" = Some 1)
                | None => false
                end = true) by (vm_compute; reflexivity).
  destruct (initFields demoEnv noTables 8
              (mkState [] (newTable demoEnv (structT "Dup"))))
    as [st1 |] eqn:Hrun; [| discriminate Hok].
  apply bool_decide_eq_true in Hok as (HF & HA & HN & HM).
  exists st1. split; [exact Hno |]. split; [reflexivity |]. split; [exact HF |].
  split; [exact HA |]. split; [exact HN |]. split; [exact HM |].
  exact (columns_found_by_name demoEnv noTables 8 (structT "Dup") [] st1 Hno Hrun).
Defined.

Lemma soft_delete_field_choice_witness :
  exists st',
    initFields demoEnv noTables 8 (mkState [] (newTable demoEnv (structT "Doc")))
    = Some st'
    /\ Table.allFields (tbl st') = [0; 1]
    /\ Table.SoftDeleteField (tbl st') = Some 1
    /\ Field.GoName (deref (heap st') 1) = "DeletedAt"
    /\ match Table.SoftDeleteField (tbl st') with
       | Some p =>
           (exists before after,
               Table.allFields (tbl st') = before ++ p :: after
               /\ Forall (fun q => isSoftDelete (deref (heap st') q) = false) after)
           /\ isSoftDelete (deref (heap st') p) = true
           /\ Field.NullZero (deref (heap st') p) = true
           /\ Table.UpdateSoftDeleteField (tbl st')
              = Some (softDeleteFieldUpdater (deref (heap st') p))
       | None =>
           Table.UpdateSoftDeleteField (tbl st') = None
           /\ Forall (fun q => isSoftDelete (deref (heap st') q) = false)
                (Table.allFields (tbl st'))
       end.
Proof.
  assert (Hok : match initFields demoEnv noTables 8
                        (mkState [] (newTable demoEnv (structT "Doc"))) with
                | Some st' =>
                    bool_decide (Table.allFields (tbl st') = [0; 1]
                                 /\ Table.SoftDeleteField (tbl st') = Some 1
                                 /\ Field.GoName (deref (heap st') 1) = "DeletedAt")
                | None => false
                end = true) by (vm_compute; reflexivity).
  destruct (initFields demoEnv noTables 8
              (mkState [] (newTable demoEnv (structT "Doc"))))
    as [st' |] eqn:Hrun; [| discriminate Hok].
  apply bool_decide_eq_true in Hok as (HA & HS & HG).
  exists st'. split; [reflexivity |]. split; [exact HA |]. split; [exact HS |].
  split; [exact HG |].
  exact (soft_delete_field_choice demoEnv noTables 8 (structT "Doc") [] st' Hrun).
Defined.
